(** * Compressor trees of the parmys plugin (core/compressor.cc)

    A shallow embedding of [implement_compressor_tree] and its helpers:
    the Wallace and Dadda reducers, the carry-chain finisher and the
    half/full adder cell builders, together with the properties of the
    design document that hold of them. *)

From Stdlib Require Import Lia Bool.
From stdpp Require Import base tactics option list numbers.

Set Default Proof Using "Type".

(** ** The shared netlist *)

Module Netlist.

(** Node operations used by the compressor (a fragment of odin's
    [operation_list]). *)
Inductive operation_list := LOGICAL_AND | LOGICAL_OR | LOGICAL_XOR | ADD.

(** A bit-signal handle ([npin_t *]).  A pin hangs on a net; what the
    compressor can observe of it is the driver of that net: a signal owned
    by the caller, the netlist's constant zero, or output [idx] of the node
    with handle [node]. *)
Inductive npin_t :=
| PI (n : nat)
| ZERO_PIN
| OUT (node idx : nat).

Global Instance npin_eq_dec : EqDecision npin_t.
Proof. solve_decision. Defined.

(** A logic node ([nnode_t]): its operation, the widths of its input
    ports, its input pin slots ([None] is a slot nothing was attached to)
    and, per output slot, whether an output pin was attached. *)
Record nnode_t := mk_nnode {
  type : operation_list;
  input_port_sizes : list nat;
  input_pins : list (option npin_t);
  output_pins : list bool
}.

(** The mutable world of one synthesis run: the nodes allocated so far (a
    node's handle is its position) and the global [add_list] registry of
    adder nodes. *)
Record netlist_t := mk_netlist {
  nodes : list nnode_t;
  add_list : list nat
}.

Definition empty_netlist : netlist_t := mk_netlist [] [].

(** Modelled from the spec: the gate constructors of the netlist library
    ([make_2port_gate], [make_3port_gate] of netlist_utils), which the
    compressor calls but does not own: a fresh node with the given port
    widths, every input slot unattached, every output slot unattached. *)
Definition make_gate (op : operation_list) (ports : list nat) (width_output : nat)
    (s : netlist_t) : nat * netlist_t :=
  (length (nodes s),
   mk_netlist
     (nodes s ++ [mk_nnode op ports (replicate (sum_list ports) None)
                    (replicate width_output false)])
     (add_list s)).

Definition make_2port_gate (op : operation_list) (w1 w2 wout : nat) :=
  make_gate op [w1; w2] wout.

Definition make_3port_gate (op : operation_list) (w1 w2 w3 wout : nat) :=
  make_gate op [w1; w2; w3] wout.

(** Modelled from the spec: [add_input_pin_to_node] of the netlist library
    attaches a pin to input slot [idx] of a node; a slot outside the node
    (or a node that does not exist) is an assertion failure there. *)
Definition add_input_pin_to_node (node : nat) (pin : npin_t) (idx : nat)
    (s : netlist_t) : option netlist_t :=
  nd ← nodes s !! node;
  if decide (idx < length (input_pins nd)) then
    Some (mk_netlist
            (<[node := mk_nnode (type nd) (input_port_sizes nd)
                         (<[idx := Some pin]> (input_pins nd)) (output_pins nd)]>
               (nodes s))
            (add_list s))
  else None.

(** Modelled from the spec: [copy_input_npin] gives another pin on the same
    net, hence the same signal. *)
Definition copy_input_npin (p : npin_t) : npin_t := p.

(** Modelled from the spec: the netlist's constant-zero signal source. *)
Definition get_zero_pin (s : netlist_t) : npin_t := ZERO_PIN.

(** Modelled from the spec: [insert_in_vptr_list] on the global registry of
    adder nodes. *)
Definition register_adder (node : nat) (s : netlist_t) : netlist_t :=
  mk_netlist (nodes s) (add_list s ++ [node]).

(** [make_output_pin]: a new pin and net on output slot [idx] of the node;
    the pin handed back is the fanout of that net. *)
Definition make_output_pin (node idx : nat) (s : netlist_t)
    : option (npin_t * netlist_t) :=
  nd ← nodes s !! node;
  if decide (idx < length (output_pins nd)) then
    Some (OUT node idx,
          mk_netlist
            (<[node := mk_nnode (type nd) (input_port_sizes nd) (input_pins nd)
                         (<[idx := true]> (output_pins nd))]> (nodes s))
            (add_list s))
  else None.

(** *** Meaning of a netlist *)

(** Value of a little-endian row of bits. *)
Fixpoint bits_value (bs : list bool) : nat :=
  match bs with
  | [] => 0
  | b :: bs' => Nat.b2n b + 2 * bits_value bs'
  end.

(** Modelled from the spec: what the primitives compute.  AND, OR and XOR
    combine all their inputs into output 0; an ADD node with two [w]-bit
    ports is a carry-propagate adder whose output [idx] is bit [idx] of the
    sum of its operands (output [w] is the carry-out). *)
Definition node_value (nd : nnode_t) (ins : list bool) (idx : nat) : bool :=
  match type nd with
  | LOGICAL_AND => forallb (λ b, b) ins
  | LOGICAL_OR => existsb (λ b, b) ins
  | LOGICAL_XOR => foldr xorb false ins
  | ADD =>
      let w := default 0 (input_port_sizes nd !! 0) in
      Nat.testbit (bits_value (take w ins) + bits_value (drop w ins)) idx
  end.

Section Semantics.
(** Level read on the caller's signals, and on an input slot nothing is
    attached to (node handle, slot). *)
Variable env : nat → bool.
Variable floating : nat → nat → bool.

Definition slot_value (v : npin_t → bool) (node : nat) (k : nat)
    (o : option npin_t) : bool :=
  match o with
  | Some p => v p
  | None => floating node k
  end.

Definition node_inputs (v : npin_t → bool) (node : nat) (nd : nnode_t) : list bool :=
  imap (slot_value v node) (input_pins nd).

(** A valuation of the signals agrees with the netlist when it reads the
    caller's signals from [env], zero on the constant and, on every
    output of every node, what the node computes from its inputs. *)
Definition consistent (s : netlist_t) (v : npin_t → bool) : Prop :=
  (∀ n, v (PI n) = env n) ∧
  v ZERO_PIN = false ∧
  ∀ node nd idx, nodes s !! node = Some nd →
    v (OUT node idx) = node_value nd (node_inputs v node nd) idx.

(** Evaluation by unfolding the drivers, [fuel] levels deep. *)
Fixpoint eval (fuel : nat) (s : netlist_t) (p : npin_t) : bool :=
  match fuel with
  | 0 => false
  | S fuel' =>
      match p with
      | PI n => env n
      | ZERO_PIN => false
      | OUT node idx =>
          match nodes s !! node with
          | Some nd => node_value nd (node_inputs (eval fuel' s) node nd) idx
          | None => false
          end
      end
  end.
End Semantics.

End Netlist.
Import Netlist.

(** ** The cell builders *)

(** [implement_AND]: out = ab. *)
Definition implement_AND (a b : npin_t) (s : netlist_t) : option (npin_t * netlist_t) :=
  let '(and_node, s) := make_2port_gate LOGICAL_AND 1 1 1 s in
  s ← add_input_pin_to_node and_node (copy_input_npin a) 0 s;
  s ← add_input_pin_to_node and_node (copy_input_npin b) 1 s;
  make_output_pin and_node 0 s.

(** [implement_FA]: (sum, carry) of a full adder on a, b, c. *)
Definition implement_FA (a b c : npin_t) (s : netlist_t)
    : option (npin_t * npin_t * netlist_t) :=
  let '(sum_node, s) := make_3port_gate LOGICAL_XOR 1 1 1 1 s in
  s ← add_input_pin_to_node sum_node (copy_input_npin a) 0 s;
  s ← add_input_pin_to_node sum_node (copy_input_npin b) 1 s;
  s ← add_input_pin_to_node sum_node (copy_input_npin c) 2 s;
  '(sum, s) ← make_output_pin sum_node 0 s;
  let '(carry_node, s) := make_3port_gate LOGICAL_OR 1 1 1 1 s in
  '(ab, s) ← implement_AND a b s;
  s ← add_input_pin_to_node carry_node ab 0 s;
  '(ac, s) ← implement_AND a c s;
  s ← add_input_pin_to_node carry_node ac 1 s;
  '(bc, s) ← implement_AND b c s;
  s ← add_input_pin_to_node carry_node bc 2 s;
  '(carry, s) ← make_output_pin carry_node 0 s;
  Some (sum, carry, s).

(** [implement_HA]: (sum, carry) of a half adder on a, b. *)
Definition implement_HA (a b : npin_t) (s : netlist_t)
    : option (npin_t * npin_t * netlist_t) :=
  let '(sum_node, s) := make_2port_gate LOGICAL_XOR 1 1 1 s in
  s ← add_input_pin_to_node sum_node (copy_input_npin a) 0 s;
  s ← add_input_pin_to_node sum_node (copy_input_npin b) 1 s;
  '(sum, s) ← make_output_pin sum_node 0 s;
  '(carry, s) ← implement_AND a b s;
  Some (sum, carry, s).

(** The finished gates the builders leave in the netlist. *)
Definition gate (op : operation_list) (ins : list npin_t) : nnode_t :=
  mk_nnode op (replicate (length ins) 1) (Some <$> ins) [true].

Definition FA_nodes (n : nat) (a b c : npin_t) : list nnode_t :=
  [ gate LOGICAL_XOR [a; b; c];
    gate LOGICAL_OR [OUT (n + 2) 0; OUT (n + 3) 0; OUT (n + 4) 0];
    gate LOGICAL_AND [a; b];
    gate LOGICAL_AND [a; c];
    gate LOGICAL_AND [b; c] ].

Definition HA_nodes (a b : npin_t) : list nnode_t :=
  [ gate LOGICAL_XOR [a; b]; gate LOGICAL_AND [a; b] ].

Definition extend (s : netlist_t) (new : list nnode_t) : netlist_t :=
  mk_netlist (nodes s ++ new) (add_list s).

(** ** Running the cell builders *)

Section ListFacts.
Context {A : Type}.
Implicit Types l : list A.

Lemma lookup_app_plus l1 l2 i : (l1 ++ l2) !! (length l1 + i) = l2 !! i.
Proof. rewrite lookup_app_r by lia. f_equal. lia. Qed.

Lemma lookup_app_here l1 l2 : (l1 ++ l2) !! length l1 = l2 !! 0.
Proof. rewrite <- (lookup_app_plus l1 l2 0). f_equal. lia. Qed.

Lemma insert_app_here l1 l2 (x : A) : <[length l1 := x]> (l1 ++ l2) = l1 ++ <[0 := x]> l2.
Proof. rewrite <- (insert_app_r l1 l2 0 x). f_equal. lia. Qed.
End ListFacts.

Ltac run_netlist :=
  repeat first
    [ progress simpl
    | rewrite <- app_assoc
    | rewrite length_app
    | rewrite lookup_app_plus
    | rewrite lookup_app_here
    | rewrite insert_app_r
    | rewrite insert_app_here
    | rewrite <- Nat.add_assoc
    | case_decide; [| simpl in *; lia] ].

Lemma implement_AND_run a b s :
  implement_AND a b s
  = Some (OUT (length (nodes s)) 0, extend s [gate LOGICAL_AND [a; b]]).
Proof.
  destruct s as [ns al]. unfold implement_AND, make_2port_gate, make_gate,
    add_input_pin_to_node, make_output_pin, copy_input_npin, extend, gate.
  run_netlist. reflexivity.
Qed.

Lemma implement_HA_run a b s :
  implement_HA a b s
  = Some (OUT (length (nodes s)) 0, OUT (length (nodes s) + 1) 0,
          extend s (HA_nodes a b)).
Proof.
  destruct s as [ns al]. unfold implement_HA. 
  unfold make_2port_gate, make_gate,
    add_input_pin_to_node, make_output_pin, copy_input_npin, extend, HA_nodes, gate.
  run_netlist. rewrite implement_AND_run. unfold extend, gate. run_netlist. reflexivity.
Qed.

Lemma implement_FA_run a b c s :
  implement_FA a b c s
  = Some (OUT (length (nodes s)) 0, OUT (length (nodes s) + 1) 0,
          extend s (FA_nodes (length (nodes s)) a b c)).
Proof.
  destruct s as [ns al]. unfold implement_FA.
  unfold make_3port_gate, make_gate,
    add_input_pin_to_node, make_output_pin, copy_input_npin, extend, FA_nodes, gate.
  run_netlist.
  rewrite implement_AND_run. unfold extend, gate. run_netlist.
  rewrite implement_AND_run. unfold extend, gate. run_netlist.
  rewrite implement_AND_run. unfold extend, gate. run_netlist.
  reflexivity.
Qed.

(** ** Properties of the cell builders *)

(** A signal is fresh for a netlist when it is an output of a node the
    netlist does not have yet. *)
Definition fresh_pin (s : netlist_t) (p : npin_t) : Prop :=
  ∃ node idx, p = OUT node idx ∧ length (nodes s) ≤ node.

Section Saturation.
Variable env : nat → bool.
Variable floating : nat → nat → bool.

(** One more level of fuel changes no input of any node. *)
Definition saturated (fuel : nat) (s : netlist_t) : bool :=
  forallb (λ nd,
    forallb (λ o, match o with
                  | Some p => eqb (eval env floating fuel s p)
                                  (eval env floating (S fuel) s p)
                  | None => true
                  end) (input_pins nd)) (nodes s).

Lemma eval_consistent fuel s :
  saturated fuel s = true →
  consistent env floating s (eval env floating (S fuel) s).
Proof.
  intros Hsat. split; [done|]. split; [done|].
  intros node nd idx Hnd. cbn [eval]. rewrite Hnd.
  f_equal. unfold node_inputs. apply imap_ext. intros k o Ho.
  unfold saturated in Hsat. rewrite forallb_forall in Hsat.
  assert (Hin : In nd (nodes s)).
  { apply list_elem_of_In. eapply list_elem_of_lookup_2; eauto. }
  specialize (Hsat _ Hin). rewrite forallb_forall in Hsat.
  assert (Hin' : In o (input_pins nd)).
  { apply list_elem_of_In. eapply list_elem_of_lookup_2; eauto. }
  specialize (Hsat _ Hin'). destruct o as [p|]; [|done]. simpl.
  apply eqb_prop in Hsat. done.
Qed.
End Saturation.

Lemma consistent_node env floating s v node nd idx :
  consistent env floating s v →
  nodes s !! node = Some nd →
  v (OUT node idx) = node_value nd (node_inputs floating v node nd) idx.
Proof. intros (_ & _ & H). apply H. Qed.

Lemma consistent_gate env floating s v node op ins idx :
  consistent env floating s v →
  nodes s !! node = Some (gate op ins) →
  v (OUT node idx) = node_value (gate op ins) (v <$> ins) idx.
Proof.
  intros Hc Hn. rewrite (consistent_node _ _ _ _ _ _ _ Hc Hn). f_equal.
  unfold node_inputs, gate. simpl. apply list_eq. intros i.
  rewrite list_lookup_imap, !list_lookup_fmap.
  destruct (ins !! i); done.
Qed.

Lemma extend_lookup s new k :
  nodes (extend s new) !! (length (nodes s) + k) = new !! k.
Proof. unfold extend. simpl. apply lookup_app_plus. Qed.

(** What a valuation of the extended netlist reads on a full adder. *)
Lemma FA_value env floating s a b c v :
  consistent env floating (extend s (FA_nodes (length (nodes s)) a b c)) v →
  v (OUT (length (nodes s)) 0) = xorb (xorb (v a) (v b)) (v c) ∧
  v (OUT (length (nodes s) + 1) 0) = (v a && v b) || (v b && v c) || (v a && v c).
Proof.
  intros Hc.
  pose proof (λ k, extend_lookup s (FA_nodes (length (nodes s)) a b c) k) as Hl.
  pose proof (Hl 0) as H0. rewrite Nat.add_0_r in H0.
  rewrite (consistent_gate _ _ _ _ _ _ _ 0 Hc H0).
  rewrite (consistent_gate _ _ _ _ _ _ _ 0 Hc (Hl 1)).
  unfold node_value. simpl.
  rewrite (consistent_gate _ _ _ _ _ _ _ 0 Hc (Hl 2)).
  rewrite (consistent_gate _ _ _ _ _ _ _ 0 Hc (Hl 3)).
  rewrite (consistent_gate _ _ _ _ _ _ _ 0 Hc (Hl 4)).
  unfold node_value. simpl.
  destruct (v a), (v b), (v c); done.
Qed.

Lemma HA_value env floating s a b v :
  consistent env floating (extend s (HA_nodes a b)) v →
  v (OUT (length (nodes s)) 0) = xorb (v a) (v b) ∧
  v (OUT (length (nodes s) + 1) 0) = v a && v b.
Proof.
  intros Hc.
  pose proof (λ k, extend_lookup s (HA_nodes a b) k) as Hl.
  pose proof (Hl 0) as H0. rewrite Nat.add_0_r in H0.
  rewrite (consistent_gate _ _ _ _ _ _ _ 0 Hc H0).
  rewrite (consistent_gate _ _ _ _ _ _ _ 0 Hc (Hl 1)).
  unfold node_value. simpl.
  destruct (v a), (v b); done.
Qed.

(** C6. Cell builders: [implement_HA a b] yields sum = a xor b and
    carry = a and b; [implement_FA a b c] yields sum = a xor b xor c and
    carry = (a and b) or (b and c) or (a and c), the carry being one OR
    gate fed by three AND gates.  Both only append new nodes to the
    netlist (nothing that existed is changed) and hand back two distinct
    outputs of nodes that did not exist before. *)
Theorem cell_builders_correct (a b c : npin_t) (s : netlist_t) :
  (∃ sum carry,
      implement_HA a b s = Some (sum, carry, extend s (HA_nodes a b)) ∧
      fresh_pin s sum ∧ fresh_pin s carry ∧ sum ≠ carry ∧
      ∀ env floating v, consistent env floating (extend s (HA_nodes a b)) v →
        v sum = xorb (v a) (v b) ∧ v carry = v a && v b) ∧
  (∃ sum carry,
      implement_FA a b c s
      = Some (sum, carry, extend s (FA_nodes (length (nodes s)) a b c)) ∧
      fresh_pin s sum ∧ fresh_pin s carry ∧ sum ≠ carry ∧
      carry = OUT (length (nodes s) + 1) 0 ∧
      ∀ env floating v,
        consistent env floating (extend s (FA_nodes (length (nodes s)) a b c)) v →
        v sum = xorb (xorb (v a) (v b)) (v c) ∧
        v carry = (v a && v b) || (v b && v c) || (v a && v c)).
Proof.
  split.
  - eexists _, _. split; [apply implement_HA_run|].
    repeat split.
    + eexists _, _. split; [done|]. lia.
    + eexists _, _. split; [done|]. lia.
    + intros [=]. lia.
    + eapply HA_value; eauto.
    + eapply HA_value; eauto.
  - eexists _, _. split; [apply implement_FA_run|].
    repeat split.
    + eexists _, _. split; [done|]. lia.
    + eexists _, _. split; [done|]. lia.
    + intros [=]. lia.
    + eapply FA_value; eauto.
    + eapply FA_value; eauto.
Qed.

(** ** Rank structures *)

(** A rank ([std::vector<npin_t *>]) is used as a stack throughout: the
    code reads [back()], calls [pop_back()] and [push_back()], appends at
    [end()] and asks for [size()].  It is kept here with the back of the
    vector first. *)
Abbreviation rank_t := (list npin_t).

(** The rank structure: rank [i] holds the signals of weight [2^i]. *)
Abbreviation ranks_t := (list (list npin_t)).

(** [ranks[i].back(); ranks[i].pop_back()]; on an empty rank, or outside
    the structure, the behaviour of the source is undefined. *)
Definition pop_pin (i : nat) (rk : ranks_t) : option (npin_t * ranks_t) :=
  r ← rk !! i;
  match r with
  | [] => None
  | a :: r' => Some (a, <[i := r']> rk)
  end.

(** [temp[i].push_back(p)]. *)
Definition push_pin (i : nat) (p : npin_t) (t : ranks_t) : option ranks_t :=
  r ← t !! i; Some (<[i := p :: r]> t).

(** The loop [for (i = first; i < first + count; i++)] over a state. *)
Fixpoint for_loop {St : Type} (body : nat → St → option St) (i count : nat) (s : St)
    : option St :=
  match count with
  | 0 => Some s
  | S count' => s' ← body i s; for_loop body (S i) count' s'
  end.

(** The loop [while (cond)] over a state; [fuel] bounds the number of
    turns, and running out of it gives no result. *)
Fixpoint while_loop {St : Type} (cond : St → bool) (body : St → option St)
    (fuel : nat) (s : St) : option St :=
  if cond s then
    match fuel with
    | 0 => None
    | S fuel' => s' ← body s; while_loop cond body fuel' s'
    end
  else Some s.

(** [reaches cond body s0 k s]: [s] is the state of the loop after [k]
    turns from [s0]. *)
Inductive reaches {St : Type} (cond : St → bool) (body : St → option St) (s0 : St)
    : nat → St → Prop :=
| reaches_0 : reaches cond body s0 0 s0
| reaches_S k s s' :
    reaches cond body s0 k s → cond s = true → body s = Some s' →
    reaches cond body s0 (S k) s'.

(** "get the maximum rank size". *)
Definition get_max_rank_size (ranks : ranks_t) : nat :=
  fold_left (λ max_rank_size r,
               if decide (max_rank_size < length r) then length r else max_rank_size)
            ranks 0.

(** What a reduction pass works on: the ranks, the rows [temp] of freshly
    produced sums and carries, the number of those rows and the netlist. *)
Record rows_t := mk_rows {
  ranks : ranks_t;
  temp : ranks_t;
  new_ranks_size : nat;
  netlist : netlist_t
}.

(** "make new row": [if (new_ranks_size < k) { temp.push_back({});
    new_ranks_size++; }]. *)
Definition new_row (k : nat) (st : rows_t) : rows_t :=
  if decide (new_ranks_size st < k)
  then mk_rows (ranks st) (temp st ++ [[]]) (S (new_ranks_size st)) (netlist st)
  else st.

(** "make FA with last 3 pins" and "add FA output pins to new ranks". *)
Definition reduce_with_FA (i : nat) (st : rows_t) : option rows_t :=
  '(a, rk) ← pop_pin i (ranks st);
  '(b, rk) ← pop_pin i rk;
  '(c, rk) ← pop_pin i rk;
  '(sum, carry, nl) ← implement_FA a b c (netlist st);
  t ← push_pin i sum (temp st);
  t ← push_pin (i + 1) carry t;
  Some (mk_rows rk t (new_ranks_size st) nl).

(** "make HA with last 2 pins" and "add HA output pins to new ranks". *)
Definition reduce_with_HA (i : nat) (st : rows_t) : option rows_t :=
  '(a, rk) ← pop_pin i (ranks st);
  '(b, rk) ← pop_pin i rk;
  '(sum, carry, nl) ← implement_HA a b (netlist st);
  t ← push_pin i sum (temp st);
  t ← push_pin (i + 1) carry t;
  Some (mk_rows rk t (new_ranks_size st) nl).

(** The state of the loop [while (max_rank_size > 2)] of either reducer. *)
Record tree_t := mk_tree {
  t_ranks : ranks_t;
  t_netlist : netlist_t;
  max_rank_size : nat;
  cur_ranks_size : nat
}.

Definition update_max (max_rank_size : nat) (r : rank_t) : nat :=
  if decide (max_rank_size < length r) then length r else max_rank_size.

(** ** The Wallace reducer *)

Record wallace_t := mk_wallace {
  w_rows : rows_t;
  is_first_reducible_rank : bool;
  last_adder_count : nat
}.

(** "make as many FAs as possible": [while (rank_size >= 3)]. *)
Fixpoint wallace_FA_loop (fuel i : nat) (st : rows_t)
    (rank_size cur_adder_count : nat) (is_first : bool)
    : option (rows_t * nat * nat * bool) :=
  if decide (3 ≤ rank_size) then
    match fuel with
    | 0 => None
    | S fuel' =>
        st ← reduce_with_FA i st;
        wallace_FA_loop fuel' i st (rank_size - 3) (S cur_adder_count) false
    end
  else Some (st, rank_size, cur_adder_count, is_first).

(** The body of "reduce current ranks" for rank [i]. *)
Definition wallace_rank (target_rank_size i : nat) (w : wallace_t) : option wallace_t :=
  r ← ranks (w_rows w) !! i;
  let rank_size := length r in
  let st := new_row (i + 1) (w_rows w) in
  if decide (rank_size < 2) then
    Some (mk_wallace st (is_first_reducible_rank w) 0)
  else
    let st := new_row (i + 2) st in
    '(st, rank_size, cur_adder_count, is_first) ←
      wallace_FA_loop rank_size i st rank_size 0 (is_first_reducible_rank w);
    if bool_decide (rank_size = 2)
       && (is_first
           || bool_decide (target_rank_size
                           < cur_adder_count + last_adder_count w + rank_size))
    then
      st ← reduce_with_HA i st;
      Some (mk_wallace st false (S cur_adder_count))
    else Some (mk_wallace st is_first cur_adder_count).

(** The body of "re-append all from temp" for row [i]. *)
Definition wallace_merge_row (temp : ranks_t) (cur_ranks_size i : nat)
    (m : ranks_t * nat) : option (ranks_t * nat) :=
  temp_rank ← temp !! i;
  if decide (length temp_rank ≠ 0) then
    rk ← (if decide (i < cur_ranks_size)
          then r ← m.1 !! i; Some (<[i := temp_rank ++ r]> m.1)
          else Some (m.1 ++ [temp_rank]));
    r ← rk !! i;
    Some (rk, update_max m.2 r)
  else if decide (cur_ranks_size ≤ i) then
    Some m
  else
    r ← m.1 !! i;
    Some (m.1, update_max m.2 r).

(** The reduction pass of one stage, before the rows are merged back. *)
Definition wallace_pass (t : tree_t) : option wallace_t :=
  let target_rank_size := (max_rank_size t / 3) * 2 + max_rank_size t `mod` 3 in
  for_loop (wallace_rank target_rank_size) 0 (cur_ranks_size t)
    (mk_wallace (mk_rows (t_ranks t) [] 0 (t_netlist t)) true 0).

(** One turn of [while (max_rank_size > 2)]. *)
Definition wallace_stage (t : tree_t) : option tree_t :=
  w ← wallace_pass t;
  m ← for_loop (wallace_merge_row (temp (w_rows w)) (cur_ranks_size t))
        0 (new_ranks_size (w_rows w)) (ranks (w_rows w), 0);
  Some (mk_tree m.1 (netlist (w_rows w)) m.2 (length m.1)).

(** "reduce ranks until only 2 rows remain". *)
Definition wallace_reduce (fuel : nat) (t : tree_t) : option tree_t :=
  while_loop (λ t, bool_decide (2 < max_rank_size t)) wallace_stage fuel t.

Definition init_tree (s : netlist_t) (ranks : ranks_t) : tree_t :=
  mk_tree ranks s (get_max_rank_size ranks) (length ranks).

(** ** The Dadda reducer *)

(** "get all d-factors": [while (d < max_rank_size)].  The vector of
    d-factors is a stack as well, kept with its back first. *)
Fixpoint get_d_factors (fuel max_rank_size d : nat) (d_factors : list nat)
    : option (nat * list nat) :=
  if decide (d < max_rank_size) then
    match fuel with
    | 0 => None
    | S fuel' => get_d_factors fuel' max_rank_size (d * 3 / 2) (d :: d_factors)
    end
  else Some (d, d_factors).

(** "roll d back by one". *)
Definition roll_back (d : nat) (d_factors : list nat) : nat * list nat :=
  match d_factors with
  | [] => (d, [])
  | d' :: rest => (d', rest)
  end.

(** "reduce d if possible": [while (!d_factors.empty())] with its break. *)
Fixpoint reduce_d (max_rank_size d : nat) (d_factors : list nat) : nat * list nat :=
  match d_factors with
  | [] => (d, [])
  | d' :: rest =>
      if decide (d' < max_rank_size) then (d', rest)
      else reduce_d max_rank_size d' rest
  end.

Record dadda_t := mk_dadda {
  d_rows : rows_t;
  last_carry_count : nat
}.

(** [while (rank_size + last_carry_count + cur_adder_count > d+1 &&
    rank_size >= 3)]. *)
Fixpoint dadda_FA_loop (fuel d last_carry_count i : nat) (st : rows_t)
    (rank_size cur_adder_count : nat) : option (rows_t * nat * nat) :=
  if bool_decide (d + 1 < rank_size + last_carry_count + cur_adder_count)
     && bool_decide (3 ≤ rank_size) then
    match fuel with
    | 0 => None
    | S fuel' =>
        st ← reduce_with_FA i st;
        dadda_FA_loop fuel' d last_carry_count i st (rank_size - 3) (S cur_adder_count)
    end
  else Some (st, rank_size, cur_adder_count).

(** The body of "reduce current ranks" for rank [i]. *)
Definition dadda_rank (d i : nat) (w : dadda_t) : option dadda_t :=
  r ← ranks (d_rows w) !! i;
  let rank_size := length r in
  let st := new_row (i + 1) (d_rows w) in
  if decide (rank_size + last_carry_count w ≤ d) then
    Some (mk_dadda st (last_carry_count w))
  else
    let st := new_row (i + 2) st in
    '(st, rank_size, cur_adder_count) ←
      dadda_FA_loop rank_size d (last_carry_count w) i st rank_size 0;
    if bool_decide (rank_size + last_carry_count w + cur_adder_count = d + 1)
       && bool_decide (2 ≤ rank_size)
    then
      st ← reduce_with_HA i st;
      Some (mk_dadda st (S cur_adder_count))
    else Some (mk_dadda st cur_adder_count).

(** The body of "re-append all from temp" for row [i]; unlike the Wallace
    one it reads [ranks[i]] whatever the row holds. *)
Definition dadda_merge_row (temp : ranks_t) (cur_ranks_size i : nat)
    (m : ranks_t * nat) : option (ranks_t * nat) :=
  temp_rank ← temp !! i;
  rk ← (if decide (length temp_rank ≠ 0) then
          if decide (i < cur_ranks_size)
          then r ← m.1 !! i; Some (<[i := temp_rank ++ r]> m.1)
          else Some (m.1 ++ [temp_rank])
        else Some m.1);
  r ← rk !! i;
  Some (rk, update_max m.2 r).

Record dadda_tree_t := mk_dadda_tree {
  d_tree : tree_t;
  d : nat;
  d_factors : list nat
}.

Definition dadda_pass (t : dadda_tree_t) : option dadda_t :=
  for_loop (dadda_rank (d t)) 0 (cur_ranks_size (d_tree t))
    (mk_dadda (mk_rows (t_ranks (d_tree t)) [] 0 (t_netlist (d_tree t))) 0).

(** One turn of [while (max_rank_size > 2)]. *)
Definition dadda_stage (t : dadda_tree_t) : option dadda_tree_t :=
  w ← dadda_pass t;
  m ← for_loop (dadda_merge_row (temp (d_rows w)) (cur_ranks_size (d_tree t)))
        0 (new_ranks_size (d_rows w)) (ranks (d_rows w), 0);
  let '(d', d_factors') := reduce_d m.2 (d t) (d_factors t) in
  Some (mk_dadda_tree (mk_tree m.1 (netlist (d_rows w)) m.2 (length m.1)) d' d_factors').

Definition dadda_reduce (fuel : nat) (t : dadda_tree_t) : option dadda_tree_t :=
  while_loop (λ t, bool_decide (2 < max_rank_size (d_tree t))) dadda_stage fuel t.

Definition init_dadda (s : netlist_t) (ranks : ranks_t) : option dadda_tree_t :=
  let t := init_tree s ranks in
  '(d, d_factors) ← get_d_factors (max_rank_size t) (max_rank_size t) 2 [];
  let '(d, d_factors) := roll_back d d_factors in
  Some (mk_dadda_tree t d d_factors).

(** ** The carry-chain finisher *)

(** The adder of the chain: [add_node], [adder_start_i] and
    [adder_input_size], which the source assigns together when it sets
    [makingAdderChain]. *)
Record adder_t := mk_adder {
  add_node : nat;
  adder_start_i : nat;
  adder_input_size : nat
}.

Record chain_t := mk_chain {
  ret : list npin_t;
  c_ranks : ranks_t;
  c_netlist : netlist_t;
  adder : option adder_t
}.

Definition makingAdderChain (c : chain_t) : bool := bool_decide (is_Some (adder c)).

(** "Make the adder chain if not yet instantiated." *)
Definition start_chain (cur_ranks_size i rank_size : nat) (c : chain_t) : chain_t :=
  if bool_decide (1 < rank_size) && negb (makingAdderChain c) then
    let adder_input_size := cur_ranks_size - i in
    let '(add_node, s) :=
      make_2port_gate ADD adder_input_size adder_input_size (adder_input_size + 1)
        (c_netlist c) in
    mk_chain (ret c) (c_ranks c) (register_adder add_node s)
      (Some (mk_adder add_node i adder_input_size))
  else c.

(** The body of the loop of [ranks_to_adder_chain] for rank [i]. *)
Definition adder_chain_rank (cur_ranks_size i : nat) (c : chain_t) : option chain_t :=
  r ← c_ranks c !! i;
  let rank_size := length r in
  let c := start_chain cur_ranks_size i rank_size c in
  if decide (rank_size ≠ 0) then
    match adder c with
    | Some ad =>
        let adder_idx := i - adder_start_i ad in
        '(first_input, rk) ← pop_pin i (c_ranks c);
        s ← add_input_pin_to_node (add_node ad) first_input adder_idx (c_netlist c);
        '(second_input, rk) ←
          (if decide (1 < rank_size) then pop_pin i rk
           else Some (get_zero_pin s, rk));
        s ← add_input_pin_to_node (add_node ad) second_input
               (adder_input_size ad + adder_idx) s;
        '(pin, s) ← make_output_pin (add_node ad) adder_idx s;
        Some (mk_chain (ret c ++ [pin]) rk s (adder c))
    | None =>
        '(pin, rk) ← pop_pin i (c_ranks c);
        Some (mk_chain (ret c ++ [pin]) rk (c_netlist c) (adder c))
    end
  else
    Some (mk_chain (ret c ++ [get_zero_pin (c_netlist c)]) (c_ranks c) (c_netlist c)
            (adder c)).

(** [ranks_to_adder_chain]: the output signals and the netlist they live
    in. *)
Definition ranks_to_adder_chain (s : netlist_t) (ranks : ranks_t)
    : option (list npin_t * netlist_t) :=
  c ← for_loop (adder_chain_rank (length ranks)) 0 (length ranks)
        (mk_chain [] ranks s None);
  match adder c with
  | Some ad =>
      '(pin, s) ← make_output_pin (add_node ad) (adder_input_size ad) (c_netlist c);
      Some (ret c ++ [pin], s)
  | None => Some (ret c, c_netlist c)
  end.

(** ** The entry points *)

(** [fuel] bounds the number of turns of [while (max_rank_size > 2)]. *)
Definition implement_compressor_tree_wallace (fuel : nat) (s : netlist_t)
    (ranks : ranks_t) : option (list npin_t * netlist_t) :=
  t ← wallace_reduce fuel (init_tree s ranks);
  ranks_to_adder_chain (t_netlist t) (t_ranks t).

Definition implement_compressor_tree_dadda (fuel : nat) (s : netlist_t)
    (ranks : ranks_t) : option (list npin_t * netlist_t) :=
  t ← init_dadda s ranks;
  t ← dadda_reduce fuel t;
  ranks_to_adder_chain (t_netlist (d_tree t)) (t_ranks (d_tree t)).

(** The strategies of [compressor_tree_type_e]. *)
Inductive compressor_tree_type_e := WALLACE | DADDA.

Definition implement_compressor_tree (tree_type : compressor_tree_type_e)
    (fuel : nat) (s : netlist_t) (ranks : ranks_t) : option (list npin_t * netlist_t) :=
  match tree_type with
  | WALLACE => implement_compressor_tree_wallace fuel s ranks
  | DADDA => implement_compressor_tree_dadda fuel s ranks
  end.

(** ** Reading a rank structure as a number *)

Definition rank_value (v : npin_t → bool) (r : list npin_t) : nat :=
  sum_list_with (λ p, Nat.b2n (v p)) r.

(** Sum over the ranks of the number of ones in rank [i] times [2^i]. *)
Fixpoint ranks_value (v : npin_t → bool) (rk : ranks_t) : nat :=
  match rk with
  | [] => 0
  | r :: rk' => rank_value v r + 2 * ranks_value v rk'
  end.

(** Value of an output sequence: signal [i] weighs [2^i]. *)
Definition output_value (v : npin_t → bool) (out : list npin_t) : nat :=
  bits_value (v <$> out).

(** Adders in a netlist: every full adder has exactly one 3-input XOR,
    every half adder exactly one 2-input XOR. *)
Definition is_adder_sum (k : nat) (nd : nnode_t) : bool :=
  match type nd with
  | LOGICAL_XOR => bool_decide (length (input_pins nd) = k)
  | _ => false
  end.

Definition count_FA (s : netlist_t) : nat := length (filter (λ nd, is_adder_sum 3 nd) (nodes s)).
Definition count_HA (s : netlist_t) : nat := length (filter (λ nd, is_adder_sum 2 nd) (nodes s)).
Definition count_adders (s : netlist_t) : nat := count_FA s + count_HA s.


(** ** Reasoning about the loops *)

(** The invariant rule of [for_loop], for total correctness. *)
Lemma for_loop_inv {St : Type} (I : nat → St → Prop) (body : nat → St → option St)
    (count : nat) :
  ∀ i s,
    I i s →
    (∀ j s, i ≤ j < i + count → I j s → ∃ s', body j s = Some s' ∧ I (S j) s') →
    ∃ s', for_loop body i count s = Some s' ∧ I (i + count) s'.
Proof.
  induction count as [|count IH]; intros i s Hi Hstep; simpl.
  - exists s. rewrite Nat.add_0_r. done.
  - destruct (Hstep i s) as (s1 & Hb & Hi1); [lia | done |].
    rewrite Hb. simpl.
    destruct (IH (S i) s1) as (s2 & Hl & Hi2); [done | |].
    + intros j s' Hj. apply Hstep. lia.
    + exists s2. split; [done|]. by replace (i + S count) with (S i + count) by lia.
Qed.

Lemma for_loop_split {St : Type} (body : nat → St → option St) (n m i : nat) (s : St) :
  for_loop body i (n + m) s = s' ← for_loop body i n s; for_loop body (i + n) m s'.
Proof.
  revert i s. induction n as [|n IH]; intros i s; simpl.
  - by rewrite Nat.add_0_r.
  - destruct (body i s) as [s1|]; simpl; [|done].
    rewrite IH. by replace (S i + n) with (i + S n) by lia.
Qed.

Lemma pop_pin_cons i (rk : ranks_t) p r :
  rk !! i = Some (p :: r) → pop_pin i rk = Some (p, <[i := r]> rk).
Proof. intros H. unfold pop_pin. by rewrite H. Qed.

Lemma push_pin_Some i p (t : ranks_t) r :
  t !! i = Some r → push_pin i p t = Some (<[i := p :: r]> t).
Proof. intros H. unfold push_pin. by rewrite H. Qed.

Lemma add_input_pin_here ns nd al p idx :
  idx < length (input_pins nd) →
  add_input_pin_to_node (length ns) p idx (mk_netlist (ns ++ [nd]) al)
  = Some (mk_netlist
            (ns ++ [mk_nnode (type nd) (input_port_sizes nd)
                      (<[idx := Some p]> (input_pins nd)) (output_pins nd)]) al).
Proof.
  intros H. unfold add_input_pin_to_node. simpl.
  rewrite lookup_app_here. simpl. case_decide; [|lia].
  by rewrite insert_app_here.
Qed.

Lemma make_output_pin_here ns nd al idx :
  idx < length (output_pins nd) →
  make_output_pin (length ns) idx (mk_netlist (ns ++ [nd]) al)
  = Some (OUT (length ns) idx,
          mk_netlist
            (ns ++ [mk_nnode (type nd) (input_port_sizes nd) (input_pins nd)
                      (<[idx := true]> (output_pins nd))]) al).
Proof.
  intros H. unfold make_output_pin. simpl.
  rewrite lookup_app_here. simpl. case_decide; [|lia].
  by rewrite insert_app_here.
Qed.

(** ** What the finisher builds *)

(** A rank before the chain goes to the output as it is, an empty one as
    the constant zero. *)
Definition pass_pin (r : rank_t) : npin_t :=
  match r with
  | [] => ZERO_PIN
  | p :: _ => p
  end.

(** A rank inside the chain gives output [j] of the adder, an empty one
    the constant zero. *)
Definition chain_pin (a j : nat) (r : rank_t) : npin_t :=
  match r with
  | [] => ZERO_PIN
  | _ :: _ => OUT a j
  end.

Definition first_input (r : rank_t) : option npin_t := head r.

Definition second_input (r : rank_t) : option npin_t :=
  match r with
  | [] => None
  | [_] => Some ZERO_PIN
  | _ :: q :: _ => Some q
  end.

Definition has_pin (r : rank_t) : bool :=
  match r with
  | [] => false
  | _ :: _ => true
  end.

(** The adder of the chain once the ranks [rows] were fed to it. *)
Definition chain_adder (w : nat) (rows : ranks_t) (carry_out : bool) : nnode_t :=
  mk_nnode ADD [w; w]
    ((first_input <$> rows) ++ (second_input <$> rows))
    ((has_pin <$> rows) ++ [carry_out]).

(** [k] is the first rank of height above 1. *)
Definition chain_start (ranks : ranks_t) (k : nat) : Prop :=
  (∃ r, ranks !! k = Some r ∧ 1 < length r) ∧
  ∀ j r, j < k → ranks !! j = Some r → length r ≤ 1.

Definition no_chain (ranks : ranks_t) : Prop :=
  ∀ j r, ranks !! j = Some r → length r ≤ 1.

(** The ranks from [k] on, those from [i] on not yet fed to the adder. *)
Definition chain_rows (k i : nat) (ranks : ranks_t) : ranks_t :=
  imap (λ j r, if decide (k + j < i) then r else []) (drop k ranks).

Lemma length_chain_rows k i ranks : length (chain_rows k i ranks) = length ranks - k.
Proof. unfold chain_rows. by rewrite length_imap, length_drop. Qed.

Lemma chain_rows_lookup k i ranks j :
  chain_rows k i ranks !! j
  = (λ r, if decide (k + j < i) then r else []) <$> ranks !! (k + j).
Proof. unfold chain_rows. by rewrite list_lookup_imap, lookup_drop. Qed.

Lemma chain_rows_start k ranks :
  chain_rows k k ranks = replicate (length ranks - k) [].
Proof.
  apply list_eq. intros j. rewrite chain_rows_lookup.
  destruct (decide (j < length ranks - k)) as [Hj|Hj].
  - rewrite lookup_replicate_2 by done.
    destruct (lookup_lt_is_Some_2 ranks (k + j)) as [r ->]; [lia|].
    simpl. case_decide; [lia|done].
  - rewrite (proj1 (lookup_replicate_None _ _ _)) by lia.
    rewrite lookup_ge_None_2 by lia. done.
Qed.

Lemma chain_rows_step k i ranks r :
  k ≤ i → ranks !! i = Some r →
  chain_rows k (S i) ranks = <[i - k := r]> (chain_rows k i ranks).
Proof.
  intros Hk Hr. apply list_eq. intros j.
  destruct (decide (j = i - k)) as [->|Hne].
  - rewrite list_lookup_insert_eq.
    + rewrite chain_rows_lookup. replace (k + (i - k)) with i by lia.
      rewrite Hr. simpl. case_decide; [done|lia].
    + rewrite length_chain_rows. apply lookup_lt_Some in Hr. lia.
  - rewrite list_lookup_insert_ne by done. rewrite !chain_rows_lookup.
    destruct (ranks !! (k + j)); simpl; [|done].
    repeat case_decide; try done; lia.
Qed.

Lemma chain_rows_end k ranks : chain_rows k (length ranks) ranks = drop k ranks.
Proof.
  apply list_eq. intros j. rewrite chain_rows_lookup, lookup_drop.
  destruct (ranks !! (k + j)) eqn:E; simpl; [|done].
  apply lookup_lt_Some in E. case_decide; [done|lia].
Qed.

Lemma chain_rows_pending k i ranks j :
  i ≤ k + j → k + j < length ranks → chain_rows k i ranks !! j = Some [].
Proof.
  intros H1 H2. rewrite chain_rows_lookup.
  destruct (lookup_lt_is_Some_2 ranks (k + j)) as [r ->]; [lia|].
  simpl. case_decide; [lia|done].
Qed.

Lemma chain_adder_feed w (rows : ranks_t) x r p q :
  length rows = w → x < w →
  first_input r = Some p → second_input r = Some q →
  mk_nnode ADD [w; w]
    (<[w + x := Some q]>
       (<[x := Some p]> (input_pins (chain_adder w rows false))))
    (<[x := true]> (output_pins (chain_adder w rows false)))
  = chain_adder w (<[x := r]> rows) false.
Proof.
  intros Hlen Hx Hp Hq. unfold chain_adder. simpl. f_equal.
  - rewrite !list_fmap_insert, Hp, Hq.
    rewrite insert_app_l by (rewrite length_fmap; lia).
    replace (w + x) with (length (<[x := Some p]> (first_input <$> rows)) + x)
      by (rewrite length_insert, length_fmap; lia).
    by rewrite insert_app_r.
  - rewrite list_fmap_insert.
    rewrite insert_app_l by (rewrite length_fmap; lia).
    destruct r; [done|]. done.
Qed.

(** The invariant of the loop of [ranks_to_adder_chain] before rank [i]. *)
Definition chain_netlist (s : netlist_t) (w : nat) (rows : ranks_t) (carry_out : bool)
    : netlist_t :=
  mk_netlist (nodes s ++ [chain_adder w rows carry_out])
             (add_list s ++ [length (nodes s)]).

Definition chain_inv (s : netlist_t) (ranks : ranks_t) (i : nat) (c : chain_t) : Prop :=
  length (c_ranks c) = length ranks ∧
  (∀ j, i ≤ j → c_ranks c !! j = ranks !! j) ∧
  ((adder c = None ∧
    (∀ j r, j < i → ranks !! j = Some r → length r ≤ 1) ∧
    c_netlist c = s ∧
    ret c = pass_pin <$> take i ranks)
   ∨
   (∃ k, k < i ∧ chain_start ranks k ∧
      adder c = Some (mk_adder (length (nodes s)) k (length ranks - k)) ∧
      c_netlist c = chain_netlist s (length ranks - k) (chain_rows k i ranks) false ∧
      ret c = (pass_pin <$> take k ranks)
                ++ imap (chain_pin (length (nodes s))) (take (i - k) (drop k ranks)))).

(** Feeding rank [j] to an adder that started at [k]. *)
Lemma chain_feed s ranks k j (c : chain_t) r :
  k ≤ j → j < length ranks →
  ranks !! j = Some r → r ≠ [] →
  length (c_ranks c) = length ranks →
  (∀ j', j ≤ j' → c_ranks c !! j' = ranks !! j') →
  c_netlist c = chain_netlist s (length ranks - k) (chain_rows k j ranks) false →
  ∃ rk s',
    ('(first_input, rk) ← pop_pin j (c_ranks c);
     s0 ← add_input_pin_to_node (length (nodes s)) first_input (j - k) (c_netlist c);
     '(second_input, rk) ←
       (if decide (1 < length r) then pop_pin j rk
        else Some (get_zero_pin s0, rk));
     s0 ← add_input_pin_to_node (length (nodes s)) second_input
            (length ranks - k + (j - k)) s0;
     '(pin, s0) ← make_output_pin (length (nodes s)) (j - k) s0;
     Some (mk_chain (ret c ++ [pin]) rk s0 (adder c)))
    = Some (mk_chain (ret c ++ [OUT (length (nodes s)) (j - k)]) rk s' (adder c)) ∧
    s' = chain_netlist s (length ranks - k) (chain_rows k (S j) ranks) false ∧
    length rk = length ranks ∧
    (∀ j', S j ≤ j' → rk !! j' = ranks !! j').
Proof.
  intros Hk Hj Hr Hne Hlen Hsame Hnl.
  assert (Hcr : c_ranks c !! j = Some r) by (rewrite Hsame by lia; done).
  destruct r as [|p r]; [done|].
  rewrite (pop_pin_cons _ _ _ _ Hcr). simpl.
  rewrite Hnl. unfold chain_netlist.
  rewrite add_input_pin_here
    by (simpl; rewrite length_app, !length_fmap, length_chain_rows; lia).
  simpl.
  set (w := length ranks - k).
  assert (Hrows : length (chain_rows k j ranks) = w) by apply length_chain_rows.
  destruct r as [|q r].
  - (* one pin: paired with the constant zero *)
    case_decide; [simpl in *; lia|]. simpl.
    rewrite add_input_pin_here
      by (simpl; rewrite length_insert, length_app, !length_fmap, Hrows; lia).
    simpl.
    rewrite make_output_pin_here
      by (simpl; rewrite length_app, length_fmap, Hrows; simpl; lia).
    simpl. eexists _, _. split; [reflexivity|]. split.
    + f_equal. f_equal. f_equal.
      rewrite (chain_rows_step k j ranks [p]) by done.
      apply (chain_adder_feed w (chain_rows k j ranks) (j - k) [p] p ZERO_PIN);
        [done | lia | done | done].
    + split; [by rewrite length_insert|].
      intros j' Hj'. rewrite list_lookup_insert_ne by lia. apply Hsame. lia.
  - case_decide; [|simpl in *; lia]. simpl.
    rewrite (pop_pin_cons _ _ q r)
      by (apply list_lookup_insert_eq; lia).
    simpl.
    rewrite add_input_pin_here
      by (simpl; rewrite length_insert, length_app, !length_fmap, Hrows; lia).
    simpl.
    rewrite make_output_pin_here
      by (simpl; rewrite length_app, length_fmap, Hrows; simpl; lia).
    simpl. eexists _, _. split; [reflexivity|]. split.
    + f_equal. f_equal. f_equal.
      rewrite (chain_rows_step k j ranks (p :: q :: r)) by done.
      apply (chain_adder_feed w (chain_rows k j ranks) (j - k) (p :: q :: r) p q);
        [done | lia | done | done].
    + split; [by rewrite !length_insert|].
      intros j' Hj'. rewrite !list_lookup_insert_ne by lia. apply Hsame. lia.
Qed.

Lemma start_chain_same n i rank_size (c : chain_t) :
  is_Some (adder c) ∨ rank_size ≤ 1 → start_chain n i rank_size c = c.
Proof.
  intros H. unfold start_chain, makingAdderChain.
  destruct H as [H|H].
  - rewrite (bool_decide_eq_true_2 _ H). by rewrite andb_false_r.
  - rewrite bool_decide_eq_false_2 by lia. done.
Qed.

Lemma start_chain_new s ranks i rank_size (c : chain_t) :
  adder c = None → 1 < rank_size → c_netlist c = s →
  start_chain (length ranks) i rank_size c
  = mk_chain (ret c) (c_ranks c)
      (chain_netlist s (length ranks - i) (chain_rows i i ranks) false)
      (Some (mk_adder (length (nodes s)) i (length ranks - i))).
Proof.
  intros Ha Hr Hs. unfold start_chain, makingAdderChain. rewrite Ha.
  rewrite bool_decide_eq_true_2 by done.
  rewrite bool_decide_eq_false_2 by (intros [? [=]]).
  simpl. rewrite Hs. unfold register_adder, chain_netlist. simpl.
  f_equal. f_equal. f_equal. f_equal.
  rewrite chain_rows_start. unfold chain_adder.
  rewrite !fmap_replicate. simpl. f_equal.
  - by rewrite Nat.add_0_r, replicate_add.
  - by rewrite replicate_add.
Qed.

Lemma chain_ret_step a k j (ranks : ranks_t) r :
  k ≤ j → ranks !! j = Some r →
  imap (chain_pin a) (take (S j - k) (drop k ranks))
  = imap (chain_pin a) (take (j - k) (drop k ranks)) ++ [chain_pin a (j - k) r].
Proof.
  intros Hk Hr. replace (S j - k) with (S (j - k)) by lia.
  rewrite (take_S_r _ _ r).
  - rewrite imap_app. simpl. rewrite length_take, length_drop.
    apply lookup_lt_Some in Hr.
    replace ((j - k) `min` (length ranks - k) + 0) with (j - k) by lia. done.
  - rewrite lookup_drop. by replace (k + (j - k)) with j by lia.
Qed.

Lemma chain_step s ranks j c :
  chain_inv s ranks j c → j < length ranks →
  ∃ c', adder_chain_rank (length ranks) j c = Some c' ∧ chain_inv s ranks (S j) c'.
Proof.
  intros (Hlen & Hsame & Hinv) Hj.
  destruct (lookup_lt_is_Some_2 ranks j Hj) as [r Hr].
  assert (Hcr : c_ranks c !! j = Some r) by (rewrite Hsame by lia; done).
  unfold adder_chain_rank. rewrite Hcr. simpl.
  destruct Hinv as [(Hnone & Hlow & Hnl & Hret) | (k & Hk & Hstart & Hsome & Hnl & Hret)].
  - destruct (le_lt_dec (length r) 1) as [Hshort|Htall]; cycle 1.
    + (* the chain starts here *)
      rewrite (start_chain_new s ranks j (length r) c Hnone Htall Hnl).
      case_decide; [|lia]. cbn [adder add_node adder_start_i adder_input_size c_ranks c_netlist ret].
      assert (Hne : r ≠ []) by (intros ->; simpl in *; lia).
      destruct (chain_feed s ranks j j
                  (mk_chain (ret c) (c_ranks c)
                     (chain_netlist s (length ranks - j) (chain_rows j j ranks) false)
                     (Some (mk_adder (length (nodes s)) j (length ranks - j))))
                  r) as (rk & s' & Hrun & Hs' & Hlen' & Hsame'); try done.
      eexists. split; [exact Hrun|].
      split; [done|]. split; [done|]. right. exists j. simpl.
      split; [lia|]. split; [split; [eauto|done]|].
      split; [done|]. split; [done|].
      rewrite Hret. f_equal.
      rewrite (chain_ret_step _ j j ranks r) by done.
      rewrite Nat.sub_diag. simpl. destruct r; done.
    + rewrite start_chain_same by (right; lia).
      rewrite Hnone. destruct r as [|p r].
      * simpl. eexists. split; [reflexivity|]. split; [done|]. split.
        { intros j' Hj'. apply Hsame. lia. }
        left. simpl. split; [done|]. split.
        { intros j' r' Hj' Hr'. destruct (decide (j' = j)) as [->|].
          - rewrite Hr in Hr'. by injection Hr' as <-; simpl; lia.
          - apply (Hlow j'); [lia|done]. }
        split; [done|].
        rewrite (take_S_r _ _ _ Hr), fmap_app, Hret. done.
      * case_decide; [|simpl in *; lia].
        rewrite (pop_pin_cons _ _ _ _ Hcr). simpl.
        eexists. split; [reflexivity|]. split; [simpl; by rewrite length_insert|]. split.
        { intros j' Hj'. simpl. rewrite list_lookup_insert_ne by lia. apply Hsame. lia. }
        left. simpl. split; [done|]. split.
        { intros j' r' Hj' Hr'. destruct (decide (j' = j)) as [->|].
          - rewrite Hr in Hr'. injection Hr' as <-. lia.
          - apply (Hlow j'); [lia|done]. }
        split; [done|].
        rewrite (take_S_r _ _ _ Hr), fmap_app, Hret. done.
  - rewrite start_chain_same by (left; rewrite Hsome; eauto).
    rewrite Hsome. cbn [add_node adder_start_i adder_input_size].
    destruct (decide (r = [])) as [->|Hne].
    + simpl. eexists. split; [reflexivity|]. split; [done|]. split.
      { intros j' Hj'. apply Hsame. lia. }
      right. exists k. simpl. split; [lia|]. split; [done|]. split; [done|]. split.
      * rewrite Hnl. f_equal.
        rewrite (chain_rows_step k j ranks []) by (done || lia).
        rewrite list_insert_id; [done|].
        apply chain_rows_pending; lia.
      * rewrite Hret, (chain_ret_step _ k j ranks []) by (done || lia).
        by rewrite <- app_assoc.
    + case_decide; [|destruct r; simpl in *; done].
      destruct (chain_feed s ranks k j c r) as (rk & s' & Hrun & Hs' & Hlen' & Hsame');
        try done; [lia|].
      rewrite Hsome in Hrun.
      eexists. split; [exact Hrun|]. split; [done|]. split; [done|].
      right. exists k. simpl. split; [lia|]. split; [done|]. split; [done|].
      split; [done|].
      rewrite Hret, (chain_ret_step _ k j ranks r) by (done || lia).
      rewrite <- app_assoc. destruct r; done.
Qed.

Lemma chain_start_unique ranks k k' :
  chain_start ranks k → chain_start ranks k' → k = k'.
Proof.
  intros [(r & Hr & Ht) Hlow] [(r' & Hr' & Ht') Hlow'].
  destruct (Nat.lt_trichotomy k k') as [H|[H|H]]; [|done|].
  - specialize (Hlow' k r H Hr). lia.
  - specialize (Hlow k' r' H Hr'). lia.
Qed.

Lemma chain_start_not_no_chain ranks k : chain_start ranks k → no_chain ranks → False.
Proof. intros [(r & Hr & Ht) _] Hno. specialize (Hno k r Hr). lia. Qed.

(** The finisher always returns: either no rank is higher than 1 and the
    ranks pass through, or the chain starts at the first such rank. *)
Lemma ranks_to_adder_chain_run s ranks :
  (no_chain ranks ∧
   ranks_to_adder_chain s ranks = Some (pass_pin <$> ranks, s))
  ∨
  (∃ k, chain_start ranks k ∧
     ranks_to_adder_chain s ranks
     = Some ((pass_pin <$> take k ranks)
               ++ imap (chain_pin (length (nodes s))) (drop k ranks)
               ++ [OUT (length (nodes s)) (length ranks - k)],
             chain_netlist s (length ranks - k) (drop k ranks) true)).
Proof.
  destruct (for_loop_inv (chain_inv s ranks) (adder_chain_rank (length ranks))
              (length ranks) 0 (mk_chain [] ranks s None))
    as (c & Hrun & Hlen & Hsame & Hinv).
  { split; [done|]. split; [done|]. left. simpl. repeat split; try done.
    intros j r Hj. lia. }
  { intros j c Hj Hc. apply chain_step; [done|lia]. }
  unfold ranks_to_adder_chain. rewrite Hrun. simpl.
  destruct Hinv as [(Hnone & Hlow & Hnl & Hret) | (k & Hk & Hstart & Hsome & Hnl & Hret)].
  - left. split.
    + intros j r Hr. apply (Hlow j r); [|done]. by apply lookup_lt_Some in Hr.
    + rewrite Hnone, Hret, Hnl. by rewrite take_ge by lia.
  - right. exists k. split; [done|]. rewrite Hsome, Hnl. simpl.
    unfold chain_netlist.
    rewrite make_output_pin_here
      by (simpl; rewrite length_app, length_fmap, length_chain_rows; simpl; lia).
    simpl. rewrite Hret. rewrite chain_rows_end.
    rewrite (take_ge (drop k ranks)) by (rewrite length_drop; lia).
    rewrite <- app_assoc. f_equal. f_equal. f_equal. f_equal.
    unfold chain_adder. f_equal.
    replace (length ranks - k) with (length (has_pin <$> drop k ranks) + 0)
      by (rewrite length_fmap, length_drop; lia).
    by rewrite insert_app_r.
Qed.

(** C5. Finisher output shape: the finisher returns one signal per rank,
    rank [i] at position [i]; a single adder is made exactly when some rank
    is higher than 1, it starts at the first such rank [k], its two ports
    are as wide as the number of ranks from [k] to the last, it is the only
    node added and it is entered in the adder registry, and its carry-out
    is then the one extra, last output; otherwise the netlist is left as it
    was.  In particular an empty rank structure gives no output and
    changes nothing. *)
Theorem finisher_output_shape (s : netlist_t) (ranks : ranks_t) :
  ∃ out s',
    ranks_to_adder_chain s ranks = Some (out, s') ∧
    ((no_chain ranks ∧
      length out = length ranks ∧
      (∀ i r, ranks !! i = Some r → out !! i = Some (pass_pin r)) ∧
      s' = s)
     ∨
     (∃ k, chain_start ranks k ∧
        length out = S (length ranks) ∧
        (∀ i r, ranks !! i = Some r →
           out !! i = Some (if decide (i < k) then pass_pin r
                            else chain_pin (length (nodes s)) (i - k) r)) ∧
        out !! length ranks = Some (OUT (length (nodes s)) (length ranks - k)) ∧
        nodes s' = nodes s ++ [chain_adder (length ranks - k) (drop k ranks) true] ∧
        add_list s' = add_list s ++ [length (nodes s)])) ∧
    (ranks = [] → out = [] ∧ s' = s).
Proof.
  destruct (ranks_to_adder_chain_run s ranks) as [[Hno Hrun] | (k & Hstart & Hrun)].
  - eexists _, _. split; [exact Hrun|]. split.
    + left. split; [done|]. split; [by rewrite length_fmap|]. split; [|done].
      intros i r Hr. by rewrite list_lookup_fmap, Hr.
    + by intros ->.
  - eexists _, _. split; [exact Hrun|].
    assert (Hk : k < length ranks).
    { destruct Hstart as [(r & Hr & _) _]. by apply lookup_lt_Some in Hr. }
    assert (Hl1 : length (pass_pin <$> take k ranks) = k)
      by (rewrite length_fmap, length_take; lia).
    assert (Hl2 : length (imap (chain_pin (length (nodes s))) (drop k ranks))
                  = length ranks - k)
      by (by rewrite length_imap, length_drop).
    split.
    + right. exists k. split; [done|]. split.
      { rewrite !length_app, Hl1, Hl2. simpl. lia. }
      split; [|split; [|done]].
      * intros i r Hr. pose proof (lookup_lt_Some _ _ _ Hr) as Hi.
        case_decide.
        -- rewrite lookup_app_l by lia.
           rewrite list_lookup_fmap, lookup_take_lt, Hr by done. done.
        -- rewrite lookup_app_r by lia. rewrite Hl1.
           rewrite lookup_app_l by lia.
           rewrite list_lookup_imap, lookup_drop.
           replace (k + (i - k)) with i by lia. by rewrite Hr.
      * rewrite lookup_app_r by lia. rewrite Hl1.
        rewrite lookup_app_r by lia. rewrite Hl2.
        by replace (length ranks - k - (length ranks - k)) with 0 by lia.
    + intros ->. simpl in Hk. lia.
Qed.

(** A signal that exists in a netlist: an output of one of its nodes, a
    signal of the caller or the constant. *)
Definition known_pin (s : netlist_t) (p : npin_t) : Prop :=
  match p with
  | OUT node _ => node < length (nodes s)
  | _ => True
  end.

(** C10. An empty rank inside the adder span: when rank [i], at or after
    the first rank [k] of height above 1, is empty, the output at [i] is
    the constant zero itself, both input slots of the adder at bit [i - k]
    stay unattached, no output pin is made on the adder at that bit, and
    (the signals of the ranks being signals that exist) the output
    sequence does not contain that adder output. *)
Theorem finisher_empty_rank_in_chain (s : netlist_t) (ranks : ranks_t) (k i : nat) :
  Forall (Forall (known_pin s)) ranks →
  chain_start ranks k → k ≤ i → ranks !! i = Some [] →
  ∃ out s' nd,
    ranks_to_adder_chain s ranks = Some (out, s') ∧
    out !! i = Some ZERO_PIN ∧
    nodes s' !! length (nodes s) = Some nd ∧
    type nd = ADD ∧
    input_pins nd !! (i - k) = Some None ∧
    input_pins nd !! (length ranks - k + (i - k)) = Some None ∧
    output_pins nd !! (i - k) = Some false ∧
    OUT (length (nodes s)) (i - k) ∉ out.
Proof.
  intros Hknown Hstart Hki Hi.
  destruct (ranks_to_adder_chain_run s ranks) as [[Hno _] | (k' & Hstart' & Hrun)].
  { destruct (chain_start_not_no_chain _ _ Hstart Hno). }
  rewrite <- (chain_start_unique _ _ _ Hstart Hstart') in Hrun. clear k' Hstart'.
  pose proof (lookup_lt_Some _ _ _ Hi) as Hin.
  assert (Hl1 : length (pass_pin <$> take k ranks) = k)
    by (rewrite length_fmap, length_take; lia).
  assert (Hrow : drop k ranks !! (i - k) = Some []).
  { rewrite lookup_drop. by replace (k + (i - k)) with i by lia. }
  eexists _, _, (chain_adder (length ranks - k) (drop k ranks) true).
  split; [exact Hrun|]. split; [|split; [|split; [done|]]].
  - rewrite lookup_app_r by lia. rewrite Hl1.
    rewrite lookup_app_l by (rewrite length_imap, length_drop; lia).
    by rewrite list_lookup_imap, Hrow.
  - simpl. by rewrite lookup_app_here.
  - simpl. split; [|split; [|split]].
    + rewrite lookup_app_l by (rewrite length_fmap, length_drop; lia).
      by rewrite list_lookup_fmap, Hrow.
    + replace (length ranks - k) with (length (first_input <$> drop k ranks))
        by (by rewrite length_fmap, length_drop).
      rewrite lookup_app_plus. by rewrite list_lookup_fmap, Hrow.
    + rewrite lookup_app_l by (rewrite length_fmap, length_drop; lia).
      by rewrite list_lookup_fmap, Hrow.
    + rewrite !elem_of_app. intros [Hin1 | [Hin2 | Hin3]].
      * apply list_elem_of_fmap in Hin1 as (r & Hp & Hr).
        apply list_elem_of_lookup in Hr as (j & Hr).
        apply lookup_take_Some in Hr as [Hr _].
        pose proof (Forall_lookup_1 _ _ _ _ Hknown Hr) as Hkr.
        destruct r as [|p r]; [done|]. simpl in Hp. subst p.
        inversion Hkr as [|? ? Hkp _]. simpl in Hkp. lia.
      * apply elem_of_lookup_imap in Hin2 as (j & r & Hp & Hr).
        destruct r as [|p r]; [done|]. simpl in Hp. injection Hp as Hj.
        rewrite <- Hj in Hr. rewrite Hrow in Hr. done.
      * apply list_elem_of_singleton in Hin3. injection Hin3 as Hw. lia.
Qed.

Lemma finisher_empty_rank_in_chain_witness :
  ∃ out s' nd,
    ranks_to_adder_chain empty_netlist [[PI 0; PI 1]; []] = Some (out, s') ∧
    out !! 1 = Some ZERO_PIN ∧
    nodes s' !! 0 = Some nd ∧
    type nd = ADD ∧
    input_pins nd !! 1 = Some None ∧
    input_pins nd !! 3 = Some None ∧
    output_pins nd !! 1 = Some false ∧
    OUT 0 1 ∉ out.
Proof.
  apply (finisher_empty_rank_in_chain empty_netlist [[PI 0; PI 1]; []] 0 1).
  - repeat constructor.
  - split.
    + exists [PI 0; PI 1]. split; [reflexivity | simpl; lia].
    + intros j r Hj. lia.
  - lia.
  - reflexivity.
Defined.

(** ** Value conservation and the empty rank inside the chain *)

(** C1 (what the code does on a rank structure with an empty rank after
    the start of the chain).  Two signals of weight 1 followed by an empty
    rank of weight 2, both signals at 1: the rank structure is worth 2,
    but with either strategy the output sequence is [adder bit 0; constant
    zero; adder bit 2], which is worth 0 or 4 whatever is read on the two
    adder inputs left unattached; the carry of bit 0 is lost. *)
Theorem value_not_conserved_with_empty_rank_in_chain
    (tree_type : compressor_tree_type_e) (floating : nat → nat → bool) :
  let ranks := [[PI 0; PI 1]; []] in
  let env := λ _ : nat, true in
  ∃ out s',
    implement_compressor_tree tree_type 0 empty_netlist ranks = Some (out, s') ∧
    out = [OUT 0 0; ZERO_PIN; OUT 0 2] ∧
    (∃ v, consistent env floating s' v) ∧
    ∀ v, consistent env floating s' v →
      ranks_value v ranks = 2 ∧ output_value v out ≠ 2.
Proof.
  intros ranks env.
  exists [OUT 0 0; ZERO_PIN; OUT 0 2].
  exists (mk_netlist
            [mk_nnode ADD [2; 2] [Some (PI 0); None; Some (PI 1); None]
               [true; false; true]] [0]).
  split; [by destruct tree_type|]. split; [done|]. split.
  - exists (eval env floating 2
              (mk_netlist
                 [mk_nnode ADD [2; 2] [Some (PI 0); None; Some (PI 1); None]
                    [true; false; true]] [0])).
    by apply eval_consistent.
  - intros v (Hpi & Hzero & Hnode).
    unfold ranks_value, rank_value, output_value, ranks. simpl.
    rewrite !Hpi, Hzero. split; [done|].
    rewrite (Hnode 0 _ 0 eq_refl), (Hnode 0 _ 2 eq_refl).
    unfold node_value, node_inputs. simpl. rewrite !Hpi. unfold env.
    destruct (floating 0 1), (floating 0 3); simpl; lia.
Qed.

(** ** Adders applied to one rank *)

Ltac divmod x k :=
  pose proof (Nat.div_mod_eq x k);
  pose proof (Nat.mod_upper_bound x k ltac:(lia));
  generalize dependent (x / k); generalize dependent (x `mod` k); intros.

Lemma extend_extend s new1 new2 : extend (extend s new1) new2 = extend s (new1 ++ new2).
Proof. unfold extend. simpl. by rewrite app_assoc. Qed.

Lemma extend_nil s : extend s [] = s.
Proof. destruct s. unfold extend. simpl. by rewrite app_nil_r. Qed.

Lemma consistent_extend env floating s new v :
  consistent env floating (extend s new) v → consistent env floating s v.
Proof.
  intros (Hpi & Hz & Hn). split; [done|]. split; [done|].
  intros node nd idx Hl. apply Hn. unfold extend. simpl.
  by apply lookup_app_l_Some.
Qed.

Lemma count_FA_extend s new :
  count_FA (extend s new)
  = count_FA s + length (filter (λ nd, is_adder_sum 3 nd) new).
Proof. unfold count_FA, extend. simpl. by rewrite list.filter_app, length_app. Qed.

Lemma count_HA_extend s new :
  count_HA (extend s new)
  = count_HA s + length (filter (λ nd, is_adder_sum 2 nd) new).
Proof. unfold count_HA, extend. simpl. by rewrite list.filter_app, length_app. Qed.

Lemma rank_value_cons v p r : rank_value v (p :: r) = Nat.b2n (v p) + rank_value v r.
Proof. done. Qed.

Lemma rank_value_app v r1 r2 : rank_value v (r1 ++ r2) = rank_value v r1 + rank_value v r2.
Proof. apply sum_list_with_app. Qed.

(** From [st] to [st'], [f] full adders and [h] half adders were applied to
    rank [i]: the pins they consume left the rank, their sums went to row
    [i] and their carries to row [i + 1], only new nodes were added, and
    whatever a valuation of the new netlist reads, the sums and twice the
    carries are worth what the consumed pins were. *)
Definition reduced (i f h : nat) (st st' : rows_t) : Prop :=
  ∃ r sums carries new t0 t1,
    ranks st !! i = Some r ∧
    3 * f + 2 * h ≤ length r ∧
    temp st !! i = Some t0 ∧
    temp st !! (i + 1) = Some t1 ∧
    ranks st' = <[i := drop (3 * f + 2 * h) r]> (ranks st) ∧
    temp st' = <[i + 1 := carries ++ t1]> (<[i := sums ++ t0]> (temp st)) ∧
    new_ranks_size st' = new_ranks_size st ∧
    netlist st' = extend (netlist st) new ∧
    length sums = f + h ∧
    length carries = f + h ∧
    count_FA (netlist st') = count_FA (netlist st) + f ∧
    count_HA (netlist st') = count_HA (netlist st) + h ∧
    ∀ env floating v, consistent env floating (netlist st') v →
      rank_value v (drop (3 * f + 2 * h) r) + rank_value v sums
        + 2 * rank_value v carries
      = rank_value v r.

Lemma reduced_refl i st r t0 t1 :
  ranks st !! i = Some r → temp st !! i = Some t0 → temp st !! (i + 1) = Some t1 →
  reduced i 0 0 st st.
Proof.
  intros Hr Ht0 Ht1. exists r, [], [], [], t0, t1. simpl.
  rewrite (list_insert_id (temp st) i t0) by done.
  rewrite !list_insert_id by done. rewrite extend_nil.
  repeat split; try done; try lia.
  intros. rewrite drop_0. lia.
Qed.

Lemma reduced_trans i f1 h1 f2 h2 st st1 st2 :
  reduced i f1 h1 st st1 → reduced i f2 h2 st1 st2 →
  reduced i (f1 + f2) (h1 + h2) st st2.
Proof.
  intros (r & sums1 & carries1 & new1 & t0 & t1 & Hr & Hu1 & Ht0 & Ht1 & Hrk1 & Htp1
          & Hn1 & Hnl1 & Hls1 & Hlc1 & Hfa1 & Hha1 & Hv1)
         (r' & sums2 & carries2 & new2 & t0' & t1' & Hr' & Hu2 & Ht0' & Ht1' & Hrk2 & Htp2
          & Hn2 & Hnl2 & Hls2 & Hlc2 & Hfa2 & Hha2 & Hv2).
  pose proof (lookup_lt_Some _ _ _ Hr) as Hi.
  pose proof (lookup_lt_Some _ _ _ Ht0) as Hi0.
  pose proof (lookup_lt_Some _ _ _ Ht1) as Hi1.
  rewrite Hrk1, list_lookup_insert_eq in Hr' by done.
  assert (r' = drop (3 * f1 + 2 * h1) r) as -> by congruence.
  rewrite Htp1, list_lookup_insert_ne, list_lookup_insert_eq in Ht0' by (done || lia).
  assert (t0' = sums1 ++ t0) as -> by congruence.
  rewrite Htp1, list_lookup_insert_eq in Ht1' by (by rewrite length_insert).
  assert (t1' = carries1 ++ t1) as -> by congruence.
  rewrite length_drop in Hu2.
  exists r, (sums2 ++ sums1), (carries2 ++ carries1), (new1 ++ new2), t0, t1.
  assert (Hdrop : drop (3 * f2 + 2 * h2) (drop (3 * f1 + 2 * h1) r)
                  = drop (3 * (f1 + f2) + 2 * (h1 + h2)) r).
  { rewrite drop_drop. f_equal. lia. }
  split; [done|]. split; [lia|]. split; [done|]. split; [done|].
  split. { rewrite Hrk2, Hrk1, list_insert_insert_eq, Hdrop. done. }
  split.
  { rewrite Htp2, Htp1.
    rewrite (list_insert_insert_ne _ (i + 1) i) by lia.
    rewrite list_insert_insert_eq.
    rewrite (list_insert_insert_ne _ i (i + 1)) by lia.
    rewrite list_insert_insert_eq. by rewrite <- !app_assoc. }
  split; [congruence|].
  split. { by rewrite Hnl2, Hnl1, extend_extend. }
  split. { rewrite length_app. lia. }
  split. { rewrite length_app. lia. }
  split; [lia|]. split; [lia|].
  intros env floating v Hc.
  pose proof (Hv2 env floating v Hc) as E2.
  rewrite Hnl2 in Hc. apply consistent_extend in Hc.
  pose proof (Hv1 env floating v Hc) as E1.
  rewrite Hdrop in E2. rewrite !rank_value_app. lia.
Qed.

Lemma reduce_with_FA_reduced i st r t0 t1 :
  ranks st !! i = Some r → 3 ≤ length r →
  temp st !! i = Some t0 → temp st !! (i + 1) = Some t1 →
  ∃ st', reduce_with_FA i st = Some st' ∧ reduced i 1 0 st st'.
Proof.
  intros Hr Hlen Ht0 Ht1.
  destruct r as [|a [|b [|c r]]]; simpl in Hlen; try lia.
  pose proof (lookup_lt_Some _ _ _ Hr) as Hi.
  pose proof (lookup_lt_Some _ _ _ Ht0) as Hi0.
  unfold reduce_with_FA.
  rewrite (pop_pin_cons _ _ _ _ Hr). simpl.
  rewrite (pop_pin_cons _ _ b (c :: r)) by (by apply list_lookup_insert_eq).
  simpl.
  rewrite (pop_pin_cons _ _ c r)
    by (apply list_lookup_insert_eq; by rewrite length_insert).
  simpl. rewrite implement_FA_run. simpl.
  rewrite (push_pin_Some _ _ _ _ Ht0). simpl.
  rewrite (push_pin_Some _ _ _ t1) by (by rewrite list_lookup_insert_ne by lia).
  simpl. eexists. split; [reflexivity|].
  exists (a :: b :: c :: r), [OUT (length (nodes (netlist st))) 0],
    [OUT (length (nodes (netlist st)) + 1) 0],
    (FA_nodes (length (nodes (netlist st))) a b c), t0, t1.
  simpl. rewrite !list_insert_insert_eq.
  split; [done|]. split; [lia|]. split; [done|]. split; [done|].
  split; [done|]. split; [done|]. split; [done|]. split; [done|].
  split; [done|]. split; [done|].
  split. { rewrite count_FA_extend. done. }
  split. { rewrite count_HA_extend. simpl. lia. }
  intros env floating v Hc.
  destruct (FA_value _ _ _ _ _ _ _ Hc) as [Hs Hcy].
  unfold rank_value. simpl. rewrite ?drop_0.
  rewrite Hs, Hcy. destruct (v a), (v b), (v c); simpl; lia.
Qed.

Lemma reduce_with_HA_reduced i st r t0 t1 :
  ranks st !! i = Some r → 2 ≤ length r →
  temp st !! i = Some t0 → temp st !! (i + 1) = Some t1 →
  ∃ st', reduce_with_HA i st = Some st' ∧ reduced i 0 1 st st'.
Proof.
  intros Hr Hlen Ht0 Ht1.
  destruct r as [|a [|b r]]; simpl in Hlen; try lia.
  pose proof (lookup_lt_Some _ _ _ Hr) as Hi.
  pose proof (lookup_lt_Some _ _ _ Ht0) as Hi0.
  unfold reduce_with_HA.
  rewrite (pop_pin_cons _ _ _ _ Hr). simpl.
  rewrite (pop_pin_cons _ _ b r) by (by apply list_lookup_insert_eq).
  simpl. rewrite implement_HA_run. simpl.
  rewrite (push_pin_Some _ _ _ _ Ht0). simpl.
  rewrite (push_pin_Some _ _ _ t1) by (by rewrite list_lookup_insert_ne by lia).
  simpl. eexists. split; [reflexivity|].
  exists (a :: b :: r), [OUT (length (nodes (netlist st))) 0],
    [OUT (length (nodes (netlist st)) + 1) 0], (HA_nodes a b), t0, t1.
  simpl. rewrite !list_insert_insert_eq.
  split; [done|]. split; [lia|]. split; [done|]. split; [done|].
  split; [done|]. split; [done|]. split; [done|]. split; [done|].
  split; [done|]. split; [done|].
  split. { rewrite count_FA_extend. simpl. lia. }
  split. { rewrite count_HA_extend. done. }
  intros env floating v Hc.
  destruct (HA_value _ _ _ _ _ _ Hc) as [Hs Hcy].
  unfold rank_value. simpl. rewrite ?drop_0.
  rewrite Hs, Hcy. destruct (v a), (v b); simpl; lia.
Qed.

(** What [reduced] means for the heights. *)
Lemma reduced_heights i f h st st' :
  reduced i f h st st' →
  ∃ r t0 t1 r' t0' t1',
    ranks st !! i = Some r ∧ temp st !! i = Some t0 ∧ temp st !! (i + 1) = Some t1 ∧
    ranks st' !! i = Some r' ∧ temp st' !! i = Some t0' ∧ temp st' !! (i + 1) = Some t1' ∧
    length r' + (3 * f + 2 * h) = length r ∧
    length t0' = length t0 + (f + h) ∧
    length t1' = length t1 + (f + h) ∧
    length (ranks st') = length (ranks st) ∧
    length (temp st') = length (temp st) ∧
    new_ranks_size st' = new_ranks_size st ∧
    (∀ j, j ≠ i → ranks st' !! j = ranks st !! j) ∧
    (∀ j, j ≠ i → j ≠ i + 1 → temp st' !! j = temp st !! j) ∧
    r' = drop (3 * f + 2 * h) r.
Proof.
  intros (r & sums & carries & new & t0 & t1 & Hr & Hu & Ht0 & Ht1 & Hrk & Htp
          & Hn & Hnl & Hls & Hlc & _).
  pose proof (lookup_lt_Some _ _ _ Hr) as Hi.
  pose proof (lookup_lt_Some _ _ _ Ht0) as Hi0.
  pose proof (lookup_lt_Some _ _ _ Ht1) as Hi1.
  exists r, t0, t1, (drop (3 * f + 2 * h) r), (sums ++ t0), (carries ++ t1).
  rewrite Hrk, Htp.
  split; [done|]. split; [done|]. split; [done|].
  split. { by apply list_lookup_insert_eq. }
  split. { rewrite list_lookup_insert_ne by lia. by apply list_lookup_insert_eq. }
  split. { apply list_lookup_insert_eq. by rewrite length_insert. }
  split. { rewrite length_drop. lia. }
  split. { rewrite length_app. lia. }
  split. { rewrite length_app. lia. }
  split. { by rewrite length_insert. }
  split. { by rewrite !length_insert. }
  split; [done|]. split; [|split; [|done]].
  - intros j Hj. by rewrite list_lookup_insert_ne.
  - intros j Hj Hj'. by rewrite !list_lookup_insert_ne.
Qed.

Lemma reduced_netlist i f h st st' :
  reduced i f h st st' →
  (∃ new, netlist st' = extend (netlist st) new) ∧
  count_FA (netlist st') = count_FA (netlist st) + f ∧
  count_HA (netlist st') = count_HA (netlist st) + h.
Proof.
  intros (r & sums & carries & new & t0 & t1 & Hr & Hu & Ht0 & Ht1 & Hrk & Htp
          & Hn & Hnl & Hls & Hlc & Hfa & Hha & Hv).
  split; [by exists new|]. done.
Qed.

(** ** The value held by the rows of a pass *)

Definition rows_value (v : npin_t → bool) (st : rows_t) : nat :=
  ranks_value v (ranks st) + ranks_value v (temp st).

Lemma ranks_value_app v (l1 l2 : ranks_t) :
  ranks_value v (l1 ++ l2) = ranks_value v l1 + 2 ^ length l1 * ranks_value v l2.
Proof.
  induction l1 as [|r l1 IH]; simpl; [lia|].
  rewrite IH. lia.
Qed.

Lemma ranks_value_insert v (l : ranks_t) i r r' :
  l !! i = Some r →
  ranks_value v (<[i := r']> l) + 2 ^ i * rank_value v r
  = ranks_value v l + 2 ^ i * rank_value v r'.
Proof.
  revert i. induction l as [|x l IH]; intros [|i] Hl; simpl in *; try done.
  - injection Hl as ->. lia.
  - specialize (IH i Hl). lia.
Qed.

Lemma reduced_value i f h st st' env floating v :
  reduced i f h st st' →
  consistent env floating (netlist st') v →
  rows_value v st' = rows_value v st.
Proof.
  intros (r & sums & carries & new & t0 & t1 & Hr & Hu & Ht0 & Ht1 & Hrk & Htp
          & Hn & Hnl & Hls & Hlc & Hfa & Hha & Hv) Hc.
  specialize (Hv env floating v Hc).
  pose proof (lookup_lt_Some _ _ _ Ht0) as Hi0.
  unfold rows_value. rewrite Hrk, Htp.
  pose proof (ranks_value_insert v (ranks st) i r (drop (3 * f + 2 * h) r) Hr) as E1.
  pose proof (ranks_value_insert v (temp st) i t0 (sums ++ t0) Ht0) as E2.
  assert (Ht1' : <[i := sums ++ t0]> (temp st) !! (i + 1) = Some t1)
    by (by rewrite list_lookup_insert_ne by lia).
  pose proof (ranks_value_insert v _ (i + 1) t1 (carries ++ t1) Ht1') as E3.
  rewrite !rank_value_app in *.
  replace (2 ^ (i + 1)) with (2 * 2 ^ i) in E3
    by (rewrite Nat.add_1_r; simpl; lia).
  nia.
Qed.

(** ** One rank of a reduction pass *)

(** The carries waiting at rank [i]: what row [i] holds if it exists. *)
Definition carry_row (i : nat) (st : rows_t) : rank_t := default [] (temp st !! i).

(** What processing rank [i] with [f] full and [h] half adders did to the
    rows; [rowed] tells whether the row of carries [i + 1] was made. *)
Definition rank_step (i f h : nat) (rowed : bool) (st st' : rows_t) : Prop :=
  length (ranks st') = length (ranks st) ∧
  (∀ j, j ≠ i → ranks st' !! j = ranks st !! j) ∧
  (∃ r r', ranks st !! i = Some r ∧ ranks st' !! i = Some r' ∧
           length r' + (3 * f + 2 * h) = length r ∧
           r' = drop (3 * f + 2 * h) r) ∧
  new_ranks_size st' = length (temp st') ∧
  length (temp st') = i + 1 + (if rowed then 1 else 0) ∧
  (∀ j, j < i → temp st' !! j = temp st !! j) ∧
  (∃ t, temp st' !! i = Some t ∧ length t = length (carry_row i st) + (f + h)) ∧
  (rowed = true → ∃ t, temp st' !! (i + 1) = Some t ∧ length t = f + h) ∧
  (∃ new, netlist st' = extend (netlist st) new) ∧
  count_FA (netlist st') = count_FA (netlist st) + f ∧
  count_HA (netlist st') = count_HA (netlist st) + h ∧
  ∀ env floating v, consistent env floating (netlist st') v →
    rows_value v st' = rows_value v st.

(** The shape of the rows when the pass reaches rank [i]. *)
Definition rows_at (i : nat) (st : rows_t) : Prop :=
  length (temp st) = new_ranks_size st ∧
  i ≤ new_ranks_size st ≤ i + 1.

Lemma new_row_first i st :
  rows_at i st →
  let st1 := new_row (i + 1) st in
  ranks st1 = ranks st ∧ netlist st1 = netlist st ∧
  new_ranks_size st1 = i + 1 ∧ length (temp st1) = i + 1 ∧
  temp st1 !! i = Some (carry_row i st) ∧
  (∀ j, j < i → temp st1 !! j = temp st !! j) ∧
  ∀ v, ranks_value v (temp st1) = ranks_value v (temp st).
Proof.
  intros [Hlen Hn]. unfold new_row, carry_row. case_decide as Hd; simpl.
  - assert (new_ranks_size st = i) as Hi by lia.
    rewrite length_app. simpl.
    repeat split; try done; try lia.
    + rewrite (lookup_ge_None_2 (temp st) i) by lia. simpl.
      rewrite <- Hi, <- Hlen. by rewrite lookup_app_here.
    + intros j Hj. apply lookup_app_l. lia.
    + intros v. rewrite ranks_value_app. simpl. lia.
  - repeat split; try done; try lia.
    destruct (lookup_lt_is_Some_2 (temp st) i) as [t Ht]; [lia|].
    by rewrite Ht.
Qed.

Lemma new_row_second i st1 :
  new_ranks_size st1 = i + 1 → length (temp st1) = i + 1 →
  let st2 := new_row (i + 2) st1 in
  ranks st2 = ranks st1 ∧ netlist st2 = netlist st1 ∧
  new_ranks_size st2 = i + 2 ∧ length (temp st2) = i + 2 ∧
  temp st2 !! (i + 1) = Some [] ∧
  (∀ j, j ≤ i → temp st2 !! j = temp st1 !! j) ∧
  ∀ v, ranks_value v (temp st2) = ranks_value v (temp st1).
Proof.
  intros Hn Hlen. unfold new_row. case_decide as Hd; [|lia]. simpl.
  rewrite length_app. simpl.
  repeat split; try done; try lia.
  - rewrite <- Hlen. by rewrite lookup_app_here.
  - intros j Hj. apply lookup_app_l. lia.
  - intros v. rewrite ranks_value_app. simpl. lia.
Qed.

(** A rank that is passed over. *)
Lemma rank_step_skip i st r :
  rows_at i st → ranks st !! i = Some r →
  rank_step i 0 0 false st (new_row (i + 1) st).
Proof.
  intros Hat Hr.
  destruct (new_row_first i st Hat) as (Hrk & Hnl & Hn & Hlen & Hti & Hlt & Hval).
  unfold rank_step. rewrite Hrk, Hnl, Hn, Hlen.
  split; [done|]. split; [done|].
  split. { exists r, r. split; [done|]. split; [done|]. split; [lia|]. done. }
  split; [done|]. split; [lia|]. split; [done|].
  split. { exists (carry_row i st). split; [done|]. lia. }
  split; [done|].
  split. { exists []. by rewrite extend_nil. }
  split; [lia|]. split; [lia|].
  intros env floating v _. unfold rows_value. by rewrite Hrk, Hval.
Qed.

(** A rank that gets the row of its carries, and adders. *)
Lemma rank_step_reduced i f h st st' :
  rows_at i st →
  reduced i f h (new_row (i + 2) (new_row (i + 1) st)) st' →
  rank_step i f h true st st'.
Proof.
  intros Hat Hred.
  destruct (new_row_first i st Hat) as (Hrk1 & Hnl1 & Hn1 & Hlen1 & Hti1 & Hlt1 & Hval1).
  destruct (new_row_second i (new_row (i + 1) st) Hn1 Hlen1)
    as (Hrk2 & Hnl2 & Hn2 & Hlen2 & Hti2 & Hlt2 & Hval2).
  set (st2 := new_row (i + 2) (new_row (i + 1) st)) in *.
  destruct (reduced_heights _ _ _ _ _ Hred)
    as (r & t0 & t1 & r' & t0' & t1' & Hr & Ht0 & Ht1 & Hr' & Ht0' & Ht1'
        & Hlr & Hl0 & Hl1 & Hlrk & Hltp & Hn & Hrko & Htpo & Hdrop).
  rewrite Hlt2, Hti1 in Ht0 by lia. injection Ht0 as <-.
  rewrite Hti2 in Ht1. injection Ht1 as <-.
  rewrite Hrk2, Hrk1 in Hr, Hlrk, Hrko.
  unfold rank_step.
  split; [done|]. split; [done|].
  split. { exists r, r'. done. }
  split; [lia|]. split; [lia|].
  split. { intros j Hj. rewrite Htpo by lia. rewrite Hlt2 by lia. by apply Hlt1. }
  split. { exists t0'. split; [done|]. lia. }
  split. { intros _. exists t1'. split; [done|]. simpl in Hl1. lia. }
  destruct (reduced_netlist _ _ _ _ _ Hred) as ([new Hnl] & Hfa & Hha).
  rewrite Hnl2, Hnl1 in Hnl, Hfa, Hha.
  split; [by exists new|]. split; [done|]. split; [done|].
  intros env floating v Hc.
  rewrite (reduced_value _ _ _ _ _ _ _ _ Hred Hc).
  unfold rows_value. by rewrite Hrk2, Hrk1, Hval2, Hval1.
Qed.

(** ** One rank of the Wallace pass *)

Local Arguments Nat.mul : simpl never.
Local Arguments Nat.div : simpl never.
Local Arguments Nat.modulo : simpl never.

Lemma wallace_FA_loop_run fuel : ∀ i st rank_size cur first r t0 t1,
  ranks st !! i = Some r → length r = rank_size →
  temp st !! i = Some t0 → temp st !! (i + 1) = Some t1 →
  rank_size ≤ fuel →
  ∃ f st',
    wallace_FA_loop fuel i st rank_size cur first
    = Some (st', rank_size - 3 * f, cur + f, if f is 0 then first else false) ∧
    3 * f ≤ rank_size ∧ rank_size - 3 * f < 3 ∧
    reduced i f 0 st st'.
Proof.
  induction fuel as [|fuel IH]; intros i st rank_size cur first r t0 t1 Hr Hlen Ht0 Ht1 Hfuel.
  - exists 0, st. simpl. case_decide; [lia|].
    rewrite Nat.sub_0_r, Nat.add_0_r.
    split; [done|]. split; [lia|]. split; [lia|]. by eapply reduced_refl.
  - simpl. case_decide as Hge.
    + destruct (reduce_with_FA_reduced i st r t0 t1) as (st1 & Hrun & Hred1);
        [done | lia | done | done |].
      rewrite Hrun. simpl.
      destruct (reduced_heights _ _ _ _ _ Hred1)
        as (r0 & t00 & t10 & r' & t0' & t1' & Hr0 & _ & _ & Hr' & Ht0' & Ht1'
            & Hlr & _).
      rewrite Hr in Hr0. injection Hr0 as <-.
      destruct (IH i st1 (rank_size - 3) (S cur) false r' t0' t1')
        as (f & st2 & Hloop & Hf1 & Hf2 & Hred2); try done; try lia.
      exists (S f), st2. rewrite Hloop.
      split.
      { replace (rank_size - 3 - 3 * f) with (rank_size - 3 * S f) by lia.
        replace (S cur + f) with (cur + S f) by lia. by destruct f. }
      split; [lia|]. split; [lia|].
      by apply (reduced_trans i 1 0 f 0 st st1 st2).
    + exists 0, st. rewrite Nat.sub_0_r, Nat.add_0_r.
      split; [done|]. split; [lia|]. split; [lia|]. by eapply reduced_refl.
Qed.

(** How many adders the Wallace pass applies to a rank of height [len],
    given the count [last] of the rank before it, the flag [first] and the
    target of the stage. *)
Definition wallace_decides (target len last : nat) (first : bool) (f h : nat) : Prop :=
  if decide (len < 2) then f = 0 ∧ h = 0
  else
    3 * f ≤ len < 3 * f + 3 ∧
    ((h = 1 ∧ len - 3 * f = 2 ∧ ((first = true ∧ f = 0) ∨ target < f + last + 2))
     ∨ (h = 0 ∧ ¬ (len - 3 * f = 2 ∧ ((first = true ∧ f = 0) ∨ target < f + last + 2)))).

Lemma wallace_rank_run target i w r :
  rows_at i (w_rows w) → ranks (w_rows w) !! i = Some r →
  ∃ w' f h,
    wallace_rank target i w = Some w' ∧
    rank_step i f h (bool_decide (2 ≤ length r)) (w_rows w) (w_rows w') ∧
    wallace_decides target (length r) (last_adder_count w)
      (is_first_reducible_rank w) f h ∧
    last_adder_count w' = f + h ∧
    is_first_reducible_rank w'
    = is_first_reducible_rank w && bool_decide (f + h = 0).
Proof.
  intros Hat Hr. unfold wallace_rank, wallace_decides. rewrite Hr. simpl.
  case_decide as Hskip.
  - eexists _, 0, 0. split; [reflexivity|]. simpl.
    rewrite bool_decide_eq_false_2 by lia.
    split; [by eapply rank_step_skip|]. split; [done|]. split; [done|].
    by rewrite andb_true_r.
  - rewrite bool_decide_eq_true_2 by lia.
    destruct (new_row_first i (w_rows w) Hat)
      as (Hrk1 & Hnl1 & Hn1 & Hlen1 & Hti1 & Hlt1 & Hval1).
    destruct (new_row_second i (new_row (i + 1) (w_rows w)) Hn1 Hlen1)
      as (Hrk2 & Hnl2 & Hn2 & Hlen2 & Hti2 & Hlt2 & Hval2).
    set (st2 := new_row (i + 2) (new_row (i + 1) (w_rows w))) in *.
    assert (Hr2 : ranks st2 !! i = Some r) by (by rewrite Hrk2, Hrk1).
    assert (Ht2 : temp st2 !! i = Some (carry_row i (w_rows w)))
      by (by rewrite Hlt2 by lia).
    destruct (wallace_FA_loop_run (length r) i st2 (length r) 0
                (is_first_reducible_rank w) r _ _ Hr2 eq_refl Ht2 Hti2)
      as (f & st3 & Hloop & Hf1 & Hf2 & Hred); [lia|].
    rewrite Hloop. simpl.
    destruct (bool_decide (length r - 3 * f = 2)
              && ((if f is 0 then is_first_reducible_rank w else false)
                  || bool_decide (target < f + last_adder_count w + (length r - 3 * f))))
      eqn:Hcond.
    + apply andb_prop in Hcond as [Hrem Hwhy].
      apply bool_decide_eq_true_1 in Hrem.
      destruct (reduced_heights _ _ _ _ _ Hred)
        as (r0 & t00 & t10 & r' & t0' & t1' & Hr0 & _ & _ & Hr' & Ht0' & Ht1'
            & Hlr & _).
      rewrite Hr2 in Hr0. injection Hr0 as <-.
      destruct (reduce_with_HA_reduced i st3 r' t0' t1') as (st4 & Hrun & Hred4);
        [done | lia | done | done |].
      rewrite Hrun. simpl.
      eexists _, f, 1. split; [reflexivity|]. simpl.
      split.
      { apply rank_step_reduced; [done|].
        replace f with (f + 0) by lia. replace 1 with (0 + 1) at 2 by done.
        by apply (reduced_trans i f 0 0 1 st2 st3 st4). }
      split.
      { split; [lia|]. left. split; [done|]. split; [done|].
        apply orb_prop in Hwhy as [Hfirst|Htarget].
        - left. destruct f; [done|done].
        - right. apply bool_decide_eq_true_1 in Htarget. lia. }
      split; [lia|].
      rewrite bool_decide_eq_false_2 by lia. by rewrite andb_false_r.
    + eexists _, f, 0. split; [reflexivity|]. simpl.
      split. { by apply rank_step_reduced. }
      split.
      { split; [lia|]. right. split; [done|]. intros [Hrem Hwhy].
        rewrite (bool_decide_eq_true_2 _ Hrem) in Hcond. simpl in Hcond.
        apply orb_false_elim in Hcond as [Hfirst Htarget].
        apply bool_decide_eq_false_1 in Htarget.
        destruct Hwhy as [[Hf ->]|Ht]; [congruence|lia]. }
      split; [lia|].
      destruct f; simpl.
      * by rewrite andb_true_r.
      * by rewrite andb_false_r.
Qed.

(** ** Merging the new rows back *)

Lemma get_max_rank_size_snoc (l : ranks_t) r :
  get_max_rank_size (l ++ [r]) = update_max (get_max_rank_size l) r.
Proof. unfold get_max_rank_size. by rewrite fold_left_app. Qed.

Lemma fold_max_bounds (l : ranks_t) : ∀ m0,
  let m := fold_left (λ m r, if decide (m < length r) then length r else m) l m0 in
  m0 ≤ m ∧ Forall (λ r, length r ≤ m) l ∧
  (m = m0 ∨ ∃ r, r ∈ l ∧ length r = m).
Proof.
  induction l as [|x l IH]; intros m0; simpl.
  - split; [done|]. split; [constructor|]. by left.
  - destruct (IH (if decide (m0 < length x) then length x else m0)) as (H1 & H2 & H3).
    split; [case_decide; lia|]. split.
    + constructor; [case_decide; lia|done].
    + destruct H3 as [H3|(r & Hr & H3)].
      * case_decide; [|by left]. right. exists x. split; [apply list_elem_of_here|done].
      * right. exists r. split; [by apply list_elem_of_further|done].
Qed.

Lemma get_max_rank_size_bound (l : ranks_t) :
  Forall (λ r, length r ≤ get_max_rank_size l) l.
Proof. apply (fold_max_bounds l 0). Qed.

Lemma get_max_rank_size_attained (l : ranks_t) :
  get_max_rank_size l = 0 ∨ ∃ r, r ∈ l ∧ length r = get_max_rank_size l.
Proof. apply (fold_max_bounds l 0). Qed.

Lemma get_max_rank_size_le (l : ranks_t) b :
  Forall (λ r, length r ≤ b) l → get_max_rank_size l ≤ b.
Proof.
  intros H. destruct (get_max_rank_size_attained l) as [->|(r & Hr & <-)]; [lia|].
  apply list_elem_of_lookup in Hr as [j Hj].
  apply (Forall_lookup_1 _ _ _ _ H Hj).
Qed.

(** Row [j] of [temp] appended to rank [j], for the ranks that exist. *)
Definition merged (temp ranks : ranks_t) : ranks_t :=
  zip_with (λ t r, t ++ r) temp ranks.

Lemma merged_snoc (temp ranks : ranks_t) t r :
  length temp = length ranks →
  merged (temp ++ [t]) (ranks ++ [r]) = merged temp ranks ++ [t ++ r].
Proof.
  intros H. unfold merged. by rewrite zip_with_app.
Qed.

Lemma ranks_value_merged v (temp ranks : ranks_t) :
  length temp = length ranks →
  ranks_value v (merged temp ranks) = ranks_value v temp + ranks_value v ranks.
Proof.
  revert ranks. induction temp as [|t temp IH]; intros [|r ranks] H; simpl in *;
    try done.
  rewrite IH by lia. rewrite rank_value_app. lia.
Qed.

(** The first [n] turns of either merge loop. *)
Definition merge_inv (temp ranks : ranks_t) (j : nat) (m : ranks_t * nat) : Prop :=
  m.1 = merged (take j temp) (take j ranks) ++ drop j ranks ∧
  m.2 = get_max_rank_size (take j m.1).

Lemma merge_inv_step (temp ranks : ranks_t) j (m : ranks_t * nat) t r :
  merge_inv temp ranks j m →
  temp !! j = Some t → ranks !! j = Some r →
  m.1 !! j = Some r ∧
  merge_inv temp ranks (S j) (<[j := t ++ r]> m.1, update_max m.2 (t ++ r)).
Proof.
  intros [Hrk Hmx] Ht Hr.
  pose proof (lookup_lt_Some _ _ _ Ht) as Hjt.
  pose proof (lookup_lt_Some _ _ _ Hr) as Hjr.
  assert (Hlm : length (merged (take j temp) (take j ranks)) = j).
  { unfold merged. rewrite length_zip_with, !length_take. lia. }
  assert (Hd : drop j ranks = r :: drop (S j) ranks) by (by apply drop_S).
  split.
  { rewrite Hrk, Hd. by apply list_lookup_middle. }
  assert (Hnew : <[j := t ++ r]> m.1
                 = merged (take (S j) temp) (take (S j) ranks) ++ drop (S j) ranks).
  { rewrite Hrk, Hd. rewrite insert_app_r_alt by lia.
    rewrite Hlm, Nat.sub_diag. simpl.
    rewrite (take_S_r _ _ _ Ht), (take_S_r _ _ _ Hr).
    rewrite merged_snoc by (rewrite !length_take; lia).
    by rewrite <- app_assoc. }
  split; [done|]. simpl.
  rewrite Hnew.
  rewrite (take_S_r _ _ _ Ht), (take_S_r _ _ _ Hr).
  rewrite merged_snoc by (rewrite !length_take; lia).
  rewrite <- app_assoc. simpl.
  assert (Hl' : length (merged (take j temp) (take j ranks)) = j) by done.
  replace (take (S j) (merged (take j temp) (take j ranks) ++ (t ++ r) :: drop (S j) ranks))
    with (merged (take j temp) (take j ranks) ++ [t ++ r]).
  2:{ rewrite take_app, Hl'.
      rewrite (take_ge (merged (take j temp) (take j ranks))) by lia.
      replace (S j - j) with 1 by lia. done. }
  rewrite get_max_rank_size_snoc. f_equal.
  rewrite Hmx, Hrk. rewrite take_app, Hlm, Nat.sub_diag. simpl.
  rewrite (take_ge (merged (take j temp) (take j ranks))) by lia.
  by rewrite take_0, app_nil_r.
Qed.

Lemma merge_prefix (body : nat → ranks_t * nat → option (ranks_t * nat))
    (temp ranks : ranks_t) :
  (∀ j (m : ranks_t * nat) t r,
      j < length ranks → temp !! j = Some t → m.1 !! j = Some r →
      body j m = Some (<[j := t ++ r]> m.1, update_max m.2 (t ++ r))) →
  length ranks ≤ length temp →
  for_loop body 0 (length ranks) (ranks, 0)
  = Some (merged (take (length ranks) temp) ranks,
          get_max_rank_size (merged (take (length ranks) temp) ranks)).
Proof.
  intros Hbody Hlen.
  destruct (for_loop_inv (merge_inv temp ranks) body (length ranks) 0 (ranks, 0))
    as (m & Hrun & Hrk & Hmx).
  { split; [|done]. simpl. by rewrite ?take_0, ?drop_0. }
  { intros j m Hj Hinv.
    destruct (lookup_lt_is_Some_2 temp j) as [t Ht]; [lia|].
    destruct (lookup_lt_is_Some_2 ranks j) as [r Hr]; [lia|].
    destruct (merge_inv_step _ _ _ _ _ _ Hinv Ht Hr) as [Hmr Hinv'].
    eexists. split; [|exact Hinv']. apply Hbody; [lia|done|done]. }
  rewrite Hrun. simpl in *. f_equal.
  rewrite (take_ge ranks), drop_ge, app_nil_r in Hrk by lia.
  rewrite Hrk in Hmx. rewrite take_ge in Hmx.
  - destruct m. simpl in *. by subst.
  - unfold merged. rewrite length_zip_with, length_take. lia.
Qed.

(** The row of carries beyond the last rank, when it holds something. *)
Definition extra_row (temp : ranks_t) (n : nat) : ranks_t :=
  match temp !! n with
  | Some t => if decide (length t ≠ 0) then [t] else []
  | None => []
  end.

Definition merge_result (temp ranks : ranks_t) : ranks_t :=
  merged (take (length ranks) temp) ranks ++ extra_row temp (length ranks).

Lemma length_merged_take (temp ranks : ranks_t) :
  length ranks ≤ length temp →
  length (merged (take (length ranks) temp) ranks) = length ranks.
Proof. intros H. unfold merged. rewrite length_zip_with, length_take. lia. Qed.

Lemma wallace_merge_run (temp ranks : ranks_t) :
  length ranks ≤ length temp ≤ length ranks + 1 →
  for_loop (wallace_merge_row temp (length ranks)) 0 (length temp) (ranks, 0)
  = Some (merge_result temp ranks, get_max_rank_size (merge_result temp ranks)).
Proof.
  intros Hlen.
  assert (Hpre : for_loop (wallace_merge_row temp (length ranks)) 0 (length ranks) (ranks, 0)
            = Some (merged (take (length ranks) temp) ranks,
                    get_max_rank_size (merged (take (length ranks) temp) ranks))).
  { apply merge_prefix; [|lia].
    intros j m t r Hj Ht Hr. unfold wallace_merge_row. rewrite Ht. simpl.
    pose proof (lookup_lt_Some _ _ _ Hr) as Hjm.
    case_decide as Hne.
    - case_decide; [|lia]. rewrite Hr. simpl.
      by rewrite list_lookup_insert_eq by done.
    - case_decide; [lia|]. rewrite Hr. simpl.
      destruct t; [|simpl in Hne; lia]. simpl.
      rewrite list_insert_id by done. by destruct m. }
  unfold merge_result, extra_row.
  destruct (decide (length temp = length ranks)) as [He|Hne].
  - rewrite He, Hpre. rewrite lookup_ge_None_2 by lia. by rewrite app_nil_r.
  - replace (length temp) with (length ranks + 1) by lia.
    rewrite for_loop_split, Hpre. simpl.
    destruct (lookup_lt_is_Some_2 temp (length ranks)) as [t Ht]; [lia|].
    unfold wallace_merge_row. rewrite Ht. simpl.
    case_decide as Hnz.
    + case_decide; [lia|]. simpl.
      rewrite (list_lookup_middle _ [] t (length ranks))
        by (by rewrite length_merged_take by lia).
      simpl. by rewrite get_max_rank_size_snoc.
    + case_decide; [|lia]. by rewrite app_nil_r.
Qed.

Lemma dadda_merge_run (temp ranks : ranks_t) :
  length ranks ≤ length temp ≤ length ranks + 1 →
  (∀ t, temp !! length ranks = Some t → length t ≠ 0) →
  for_loop (dadda_merge_row temp (length ranks)) 0 (length temp) (ranks, 0)
  = Some (merge_result temp ranks, get_max_rank_size (merge_result temp ranks)).
Proof.
  intros Hlen Hsafe.
  assert (Hpre : for_loop (dadda_merge_row temp (length ranks)) 0 (length ranks) (ranks, 0)
            = Some (merged (take (length ranks) temp) ranks,
                    get_max_rank_size (merged (take (length ranks) temp) ranks))).
  { apply merge_prefix; [|lia].
    intros j m t r Hj Ht Hr. unfold dadda_merge_row. rewrite Ht. simpl.
    pose proof (lookup_lt_Some _ _ _ Hr) as Hjm.
    case_decide as Hne.
    - case_decide; [|lia]. rewrite Hr. simpl.
      by rewrite list_lookup_insert_eq by done.
    - simpl. rewrite Hr. simpl.
      destruct t; [|simpl in Hne; lia]. simpl.
      rewrite list_insert_id by done. by destruct m. }
  unfold merge_result, extra_row.
  destruct (decide (length temp = length ranks)) as [He|Hne].
  - rewrite He, Hpre. rewrite lookup_ge_None_2 by lia. by rewrite app_nil_r.
  - replace (length temp) with (length ranks + 1) by lia.
    rewrite for_loop_split, Hpre. simpl.
    destruct (lookup_lt_is_Some_2 temp (length ranks)) as [t Ht]; [lia|].
    unfold dadda_merge_row. rewrite Ht. simpl.
    pose proof (Hsafe t Ht) as Hnz.
    case_decide; [|done]. case_decide; [lia|]. simpl.
    rewrite (list_lookup_middle _ [] t (length ranks))
      by (by rewrite length_merged_take by lia).
    simpl. by rewrite get_max_rank_size_snoc.
Qed.

(** An empty row of carries beyond the last rank makes the Dadda merge read
    outside the rank structure. *)
Lemma dadda_merge_out_of_bounds (temp ranks : ranks_t) :
  length temp = length ranks + 1 →
  temp !! length ranks = Some [] →
  for_loop (dadda_merge_row temp (length ranks)) 0 (length temp) (ranks, 0) = None.
Proof.
  intros Hlen Hrow. rewrite Hlen, for_loop_split.
  rewrite (merge_prefix _ temp ranks).
  - simpl. unfold dadda_merge_row. rewrite Hrow. simpl.
    rewrite lookup_ge_None_2; [done|].
    rewrite length_merged_take; lia.
  - intros j m t r Hj Ht Hr. unfold dadda_merge_row. rewrite Ht. simpl.
    pose proof (lookup_lt_Some _ _ _ Hr) as Hjm.
    case_decide as Hne.
    + case_decide; [|lia]. rewrite Hr. simpl.
      by rewrite list_lookup_insert_eq by done.
    + simpl. rewrite Hr. simpl.
      destruct t; [|simpl in Hne; lia]. simpl.
      rewrite list_insert_id by done. by destruct m.
  - lia.
Qed.

Lemma merge_result_value v (temp ranks : ranks_t) :
  length ranks ≤ length temp ≤ length ranks + 1 →
  ranks_value v (merge_result temp ranks) = ranks_value v ranks + ranks_value v temp.
Proof.
  intros Hlen. unfold merge_result.
  rewrite ranks_value_app, ranks_value_merged by (rewrite length_take; lia).
  rewrite length_merged_take by lia.
  rewrite <- (take_drop (length ranks) temp) at 3.
  rewrite ranks_value_app, length_take.
  replace (length ranks `min` length temp) with (length ranks) by lia.
  assert (ranks_value v (extra_row temp (length ranks))
          = ranks_value v (drop (length ranks) temp)) as ->; [|lia].
  unfold extra_row.
  destruct (temp !! length ranks) as [t|] eqn:Ht.
  - rewrite (drop_S _ _ _ Ht). rewrite drop_ge by lia.
    case_decide; [done|]. destruct t; [done|simpl in *; lia].
  - apply lookup_ge_None_1 in Ht. by rewrite drop_ge by lia.
Qed.

Lemma merge_result_lookup (temp ranks : ranks_t) j r :
  length ranks ≤ length temp ≤ length ranks + 1 →
  merge_result temp ranks !! j = Some r →
  (∃ t r0, temp !! j = Some t ∧ ranks !! j = Some r0 ∧ r = t ++ r0)
  ∨ (j = length ranks ∧ temp !! j = Some r ∧ length r ≠ 0).
Proof.
  intros Hlen. unfold merge_result. intros H.
  apply lookup_app_Some in H as [H|[Hj H]].
  - left. unfold merged in H. apply lookup_zip_with_Some in H as (t & r0 & -> & Ht & Hr).
    apply lookup_take_Some in Ht as [Ht _]. eauto.
  - right. rewrite length_merged_take in * by lia.
    unfold extra_row in H. destruct (temp !! length ranks) as [t|] eqn:Ht; [|done].
    case_decide; [|done].
    destruct (j - length ranks) as [|k] eqn:Hk; [|done].
    injection H as <-. assert (j = length ranks) as -> by lia. done.
Qed.

(** ** A stage of the Wallace reducer *)

Definition wallace_target (max_rank_size : nat) : nat :=
  (max_rank_size / 3) * 2 + max_rank_size `mod` 3.

Lemma wallace_decides_bounds m len last first f h :
  3 ≤ m → len ≤ m → last ≤ m / 3 →
  wallace_decides (wallace_target m) len last first f h →
  f + h ≤ m / 3 ∧
  3 * f + 2 * h ≤ len ∧
  last + (f + h) + (len - (3 * f + 2 * h)) ≤ wallace_target m ∧
  (len < 2 → f + h = 0) ∧
  (2 ≤ len → first = true → 1 ≤ f + h).
Proof.
  unfold wallace_decides, wallace_target. intros Hm Hlen Hlast Hd.
  divmod m 3. case_decide.
  - destruct Hd as [-> ->]. lia.
  - destruct Hd as [Hf [(-> & Hrem & Hwhy) | (-> & Hno)]].
    + destruct Hwhy as [[-> ->]|Ht]; lia.
    + split; [lia|]. split; [lia|]. split; [lia|]. split; [lia|].
      intros H2 ->.
      destruct (decide (f = 0)) as [->|]; [|lia].
      destruct (decide (len = 2)) as [->|]; [|lia].
      exfalso. apply Hno. split; [lia|]. by left.
Qed.

(** The invariant of the Wallace pass before rank [i]. *)
Definition wallace_inv (ranks0 : ranks_t) (s0 : netlist_t) (m i : nat)
    (w : wallace_t) : Prop :=
  rows_at i (w_rows w) ∧
  length (ranks (w_rows w)) = length ranks0 ∧
  (∀ j, i ≤ j → ranks (w_rows w) !! j = ranks0 !! j) ∧
  length (carry_row i (w_rows w)) = last_adder_count w ∧
  last_adder_count w ≤ m / 3 ∧
  (∀ j r t, j < i → ranks (w_rows w) !! j = Some r → temp (w_rows w) !! j = Some t →
     length t + length r ≤ wallace_target m) ∧
  (is_first_reducible_rank w = true ↔
   ∀ j r, j < i → ranks0 !! j = Some r → length r < 2) ∧
  (∃ new, netlist (w_rows w) = extend s0 new) ∧
  ∀ env floating v, consistent env floating (netlist (w_rows w)) v →
    rows_value v (w_rows w) = ranks_value v ranks0.

Lemma carry_row_next i (rowed : bool) (st' : rows_t) n :
  length (temp st') = i + 1 + (if rowed then 1 else 0) →
  (rowed = true → ∃ t, temp st' !! (i + 1) = Some t ∧ length t = n) →
  (rowed = false → n = 0) →
  length (carry_row (S i) st') = n.
Proof.
  intros Hlen Ht Hf. unfold carry_row. destruct rowed.
  - destruct (Ht eq_refl) as (t & Hl & <-).
    replace (S i) with (i + 1) by lia. by rewrite Hl.
  - rewrite lookup_ge_None_2 by (simpl in Hlen; lia). simpl. by rewrite Hf.
Qed.

Lemma wallace_inv_step ranks0 s0 m i w :
  3 ≤ m → Forall (λ r, length r ≤ m) ranks0 →
  i < length ranks0 →
  wallace_inv ranks0 s0 m i w →
  ∃ w', wallace_rank (wallace_target m) i w = Some w' ∧
        wallace_inv ranks0 s0 m (S i) w'.
Proof.
  intros Hm Hall Hi (Hat & Hlen & Hsame & Hcarry & Hlast & Hdone & Hfirst & [new Hnl] & Hval).
  destruct (lookup_lt_is_Some_2 ranks0 i Hi) as [r Hr0].
  assert (Hr : ranks (w_rows w) !! i = Some r) by (by rewrite Hsame).
  pose proof (Forall_lookup_1 _ _ _ _ Hall Hr0) as Hrm. simpl in Hrm.
  destruct (wallace_rank_run (wallace_target m) i w r Hat Hr)
    as (w' & f & h & Hrun & Hstep & Hdec & Hlast' & Hfirst').
  exists w'. split; [done|].
  destruct (wallace_decides_bounds _ _ _ _ _ _ Hm Hrm Hlast Hdec)
    as (Hb1 & Hb2 & Hb3 & Hb4 & Hb5).
  destruct Hstep as (Hl' & Hothers & (r1 & r' & Hr1 & Hr' & Hlr & _) & Hn' & Hlt' & Hkeep
                     & (t' & Ht' & Hlt0) & Hrowed & [new' Hnl'] & _ & _ & Hval').
  rewrite Hr in Hr1. injection Hr1 as <-.
  split. { split; [done|]. rewrite Hn', Hlt'. destruct (bool_decide _); lia. }
  split; [lia|].
  split. { intros j Hj. rewrite Hothers by lia. apply Hsame. lia. }
  split.
  { rewrite Hlast'. apply (carry_row_next i (bool_decide (2 ≤ length r))); [done|done|].
    intros Hb. apply bool_decide_eq_false_1 in Hb. apply Hb4. lia. }
  split; [lia|].
  split.
  { intros j rj tj Hj Hrj Htj. destruct (decide (j = i)) as [->|Hne].
    - rewrite Hr' in Hrj. rewrite Ht' in Htj.
      injection Hrj as <-. injection Htj as <-. lia.
    - rewrite Hothers in Hrj by done. rewrite Hkeep in Htj by lia.
      apply (Hdone j); [lia|done|done]. }
  split.
  { rewrite Hfirst'. rewrite andb_true_iff, Hfirst, bool_decide_eq_true.
    split.
    - intros [Hprev Hzero] j rj Hj Hrj.
      destruct (decide (j = i)) as [->|Hne].
      + rewrite Hr0 in Hrj. injection Hrj as <-.
        destruct (decide (length r < 2)); [done|].
        assert (is_first_reducible_rank w = true) as Hf by (by apply Hfirst).
        specialize (Hb5 ltac:(lia) Hf). lia.
      + apply (Hprev j); [lia|done].
    - intros Hall'. split.
      + intros j rj Hj. apply Hall'. lia.
      + apply Hb4. apply (Hall' i r); [lia|done]. }
  split. { exists (new ++ new'). by rewrite Hnl', Hnl, extend_extend. }
  intros env floating v Hc. rewrite (Hval' env floating v Hc).
  apply (Hval env floating). rewrite Hnl' in Hc. by apply consistent_extend in Hc.
Qed.

(** The loop variables agree with the rank structure. *)
Definition tree_ok (t : tree_t) : Prop :=
  cur_ranks_size t = length (t_ranks t) ∧
  max_rank_size t = get_max_rank_size (t_ranks t).

Lemma init_tree_ok s ranks : tree_ok (init_tree s ranks).
Proof. done. Qed.

Lemma wallace_pass_run (t : tree_t) :
  tree_ok t → 2 < max_rank_size t →
  ∃ w, wallace_pass t = Some w ∧
       wallace_inv (t_ranks t) (t_netlist t) (max_rank_size t) (length (t_ranks t)) w.
Proof.
  intros [Hn Hmax] Hm. unfold wallace_pass. rewrite Hn.
  apply (for_loop_inv (wallace_inv (t_ranks t) (t_netlist t) (max_rank_size t))).
  - split. { split; simpl; [done|lia]. }
    simpl. split; [done|]. split; [done|]. split; [done|]. split; [lia|].
    split. { intros j r t' Hj. lia. }
    split. { split; [|done]. intros _ j r Hj. lia. }
    split. { exists []. by rewrite extend_nil. }
    intros env floating v _. unfold rows_value. simpl. lia.
  - intros j w Hj Hinv. apply wallace_inv_step; [lia| |lia|done].
    rewrite Hmax. apply get_max_rank_size_bound.
Qed.

(** ** Reasoning about the [while] loops *)

Section While.
Context {St : Type} (cond : St → bool) (body : St → option St).

Lemma reaches_front s0 s1 k s :
  cond s0 = true → body s0 = Some s1 →
  reaches cond body s1 k s → reaches cond body s0 (S k) s.
Proof.
  intros Hc Hb Hr. induction Hr as [|k s s' Hr IH Hcs Hbs].
  - eapply reaches_S; [apply reaches_0|done|done].
  - eapply reaches_S; [exact IH|done|done].
Qed.

Lemma reaches_invariant (Inv : St → Prop) s0 k s :
  (∀ s s', Inv s → cond s = true → body s = Some s' → Inv s') →
  Inv s0 → reaches cond body s0 k s → Inv s.
Proof.
  intros Hstep H0 Hr. induction Hr as [|k s s' Hr IH Hcs Hbs]; [done|].
  by eapply Hstep.
Qed.

(** A loop whose body keeps an invariant and decreases a measure ends,
    after a number of turns that the fuel only has to cover. *)
Lemma while_loop_total (Inv : St → Prop) (measure : St → nat) :
  (∀ s, Inv s → cond s = true →
     ∃ s', body s = Some s' ∧ Inv s' ∧ measure s' < measure s) →
  ∀ s0, Inv s0 →
    ∃ k s, reaches cond body s0 k s ∧ cond s = false ∧ Inv s ∧
           k ≤ measure s0 ∧
           (∀ fuel, k ≤ fuel → while_loop cond body fuel s0 = Some s) ∧
           (∀ fuel, fuel < k → while_loop cond body fuel s0 = None).
Proof.
  intros Hstep s0. remember (measure s0) as n eqn:Hn.
  revert s0 Hn. induction n as [n IH] using lt_wf_ind. intros s0 Hn H0.
  destruct (cond s0) eqn:Hc.
  - destruct (Hstep s0 H0 Hc) as (s1 & Hb & H1 & Hlt).
    destruct (IH (measure s1) ltac:(lia) s1 eq_refl H1)
      as (k & s & Hr & Hcs & Hs & Hk & Hfuel & Hshort).
    exists (S k), s. split; [by eapply reaches_front|].
    split; [done|]. split; [done|]. split; [lia|]. split.
    + intros [|fuel] Hf; [lia|]. simpl. rewrite Hc, Hb. simpl.
      apply Hfuel. lia.
    + intros [|fuel] Hf; simpl; rewrite Hc; [done|]. rewrite Hb. simpl.
      apply Hshort. lia.
  - exists 0, s0. split; [apply reaches_0|]. split; [done|]. split; [done|].
    split; [lia|]. split.
    + intros fuel _. destruct fuel; simpl; by rewrite Hc.
    + intros fuel Hf. lia.
Qed.

Lemma reaches_deterministic s0 k s s' :
  reaches cond body s0 k s → reaches cond body s0 k s' → s = s'.
Proof.
  intros Hr. revert s'. induction Hr as [|k s1 s2 Hr IH Hcs Hbs]; intros s' Hr'.
  - by inversion Hr'.
  - inversion Hr' as [|k' s1' s2' Hr1 Hc1 Hb1]; subst.
    rewrite <- (IH _ Hr1) in Hb1. congruence.
Qed.
End While.

Lemma wallace_target_lt m : 3 ≤ m → wallace_target m < m.
Proof. intros H. unfold wallace_target. divmod m 3. lia. Qed.

(** One stage of the Wallace reducer: it returns, leaves every rank at or
    below the target height, only adds nodes, and keeps the weighted value
    of the rank structure under every valuation of the new netlist. *)
Lemma wallace_stage_run (t : tree_t) :
  tree_ok t → 2 < max_rank_size t →
  ∃ t', wallace_stage t = Some t' ∧ tree_ok t' ∧
        max_rank_size t' ≤ wallace_target (max_rank_size t) ∧
        (∃ new, t_netlist t' = extend (t_netlist t) new) ∧
        ∀ env floating v, consistent env floating (t_netlist t') v →
          ranks_value v (t_ranks t') = ranks_value v (t_ranks t).
Proof.
  intros Hok Hm.
  destruct (wallace_pass_run t Hok Hm)
    as (w & Hpass & (Hlen & Hn) & Hlr & Hsame & Hcarry & Hlast & Hdone & Hfirst & Hnl & Hval).
  destruct Hok as [Hcur Hmax].
  unfold wallace_stage. rewrite Hpass. simpl.
  rewrite Hcur, <- Hlr, <- Hlen.
  rewrite wallace_merge_run by lia. simpl.
  eexists. split; [reflexivity|]. split; [done|]. simpl.
  split.
  { apply get_max_rank_size_le. apply Forall_lookup_2. intros j r Hr.
    assert (Hshape : length (ranks (w_rows w)) ≤ length (temp (w_rows w))
                     ≤ length (ranks (w_rows w)) + 1) by lia.
    destruct (merge_result_lookup _ _ _ _ Hshape Hr)
      as [(t0 & r0 & Ht0 & Hr0 & ->)|(-> & Hr' & Hnz)].
    - rewrite length_app. apply (Hdone j r0 t0); [|done|done].
      apply lookup_lt_Some in Hr0. lia.
    - rewrite Hlr in Hr'. unfold carry_row in Hcarry. rewrite Hr' in Hcarry.
      simpl in Hcarry. unfold wallace_target.
      divmod (max_rank_size t) 3. lia. }
  split; [done|].
  intros env floating v Hc. rewrite merge_result_value by lia.
  by apply (Hval env floating).
Qed.

(** ** One rank of the Dadda pass *)

Lemma dadda_FA_loop_run fuel : ∀ d lcc i st rank_size cur r t0 t1,
  ranks st !! i = Some r → length r = rank_size →
  temp st !! i = Some t0 → temp st !! (i + 1) = Some t1 →
  rank_size ≤ fuel →
  ∃ f st',
    dadda_FA_loop fuel d lcc i st rank_size cur
    = Some (st', rank_size - 3 * f, cur + f) ∧
    3 * f ≤ rank_size ∧
    ¬ (d + 1 < rank_size - 3 * f + lcc + (cur + f) ∧ 3 ≤ rank_size - 3 * f) ∧
    (f ≠ 0 → d + 1 < rank_size - 3 * (f - 1) + lcc + (cur + (f - 1))) ∧
    reduced i f 0 st st'.
Proof.
  induction fuel as [|fuel IH];
    intros d lcc i st rank_size cur r t0 t1 Hr Hlen Ht0 Ht1 Hfuel.
  - exists 0, st. simpl.
    rewrite (bool_decide_eq_false_2 (3 ≤ rank_size)) by lia.
    rewrite andb_false_r, Nat.sub_0_r, Nat.add_0_r.
    split; [done|]. split; [lia|]. split; [lia|]. split; [done|].
    by eapply reduced_refl.
  - simpl.
    destruct (bool_decide (d + 1 < rank_size + lcc + cur) && bool_decide (3 ≤ rank_size))
      eqn:Hcond.
    + apply andb_prop in Hcond as [Hq H3].
      apply bool_decide_eq_true_1 in Hq. apply bool_decide_eq_true_1 in H3.
      destruct (reduce_with_FA_reduced i st r t0 t1) as (st1 & Hrun & Hred1);
        [done | lia | done | done |].
      rewrite Hrun. simpl.
      destruct (reduced_heights _ _ _ _ _ Hred1)
        as (r0 & t00 & t10 & r' & t0' & t1' & Hr0 & _ & _ & Hr' & Ht0' & Ht1'
            & Hlr & _).
      rewrite Hr in Hr0. injection Hr0 as <-.
      destruct (IH d lcc i st1 (rank_size - 3) (S cur) r' t0' t1')
        as (f & st2 & Hloop & Hf1 & Hexit & Hlast & Hred2); try done; try lia.
      exists (S f), st2. rewrite Hloop.
      split.
      { replace (rank_size - 3 - 3 * f) with (rank_size - 3 * S f) by lia.
        by replace (S cur + f) with (cur + S f) by lia. }
      split; [lia|].
      split.
      { replace (rank_size - 3 * S f) with (rank_size - 3 - 3 * f) by lia.
        by replace (cur + S f) with (S cur + f) by lia. }
      split.
      { intros _. destruct (decide (f = 0)) as [->|Hf0].
        - simpl. rewrite Nat.mul_0_r, Nat.sub_0_r, Nat.add_0_r. done.
        - specialize (Hlast Hf0).
          replace (S f - 1) with (S (f - 1)) by lia. lia. }
      by apply (reduced_trans i 1 0 f 0 st st1 st2).
    + exists 0, st. rewrite Nat.mul_0_r, Nat.sub_0_r, Nat.add_0_r.
      split; [done|]. split; [lia|].
      split.
      { intros [Hq H3]. rewrite andb_false_iff in Hcond.
        destruct Hcond as [Hc|Hc]; apply bool_decide_eq_false_1 in Hc; lia. }
      split; [done|]. by eapply reduced_refl.
Qed.

(** How many adders the Dadda pass applies to a rank of height [len] when
    it counts [lcc] carries coming in, at threshold [d]. *)
Definition dadda_decides (d len lcc f h : nat) : Prop :=
  if decide (len + lcc ≤ d) then f = 0 ∧ h = 0
  else
    3 * f ≤ len ∧
    ¬ (d + 1 < len - 3 * f + lcc + f ∧ 3 ≤ len - 3 * f) ∧
    (f ≠ 0 → d + 1 < len - 3 * (f - 1) + lcc + (f - 1)) ∧
    ((h = 1 ∧ len - 3 * f + lcc + f = d + 1 ∧ 2 ≤ len - 3 * f)
     ∨ (h = 0 ∧ ¬ (len - 3 * f + lcc + f = d + 1 ∧ 2 ≤ len - 3 * f))).

Lemma dadda_decides_bounds d len lcc f h :
  2 ≤ d → len ≤ d * 3 / 2 → lcc ≤ d / 2 →
  dadda_decides d len lcc f h →
  (len + lcc ≤ d → f + h = 0) ∧
  (d < len + lcc →
   1 ≤ f + h ∧ f + h ≤ d / 2 ∧ 3 * f + 2 * h ≤ len ∧
   (len - (3 * f + 2 * h)) + (f + h) + lcc = d).
Proof.
  unfold dadda_decides. intros Hd Hlen Hlcc Hdec.
  divmod (d * 3) 2. divmod d 2.
  case_decide.
  - destruct Hdec as [-> ->]. lia.
  - destruct Hdec as (Hf & Hexit & Hlast & Hha).
    split; [lia|]. intros _.
    destruct (decide (f = 0)) as [->|Hf0].
    + destruct Hha as [(-> & Hq & Hrem)|(-> & Hno)]; [lia|].
      exfalso. lia.
    + specialize (Hlast Hf0).
      destruct Hha as [(-> & Hq & Hrem)|(-> & Hno)]; [lia|].
      lia.
Qed.

Lemma dadda_rank_run d i w r :
  rows_at i (d_rows w) → ranks (d_rows w) !! i = Some r →
  ∃ w' f h,
    dadda_rank d i w = Some w' ∧
    rank_step i f h (bool_decide (d < length r + last_carry_count w))
      (d_rows w) (d_rows w') ∧
    dadda_decides d (length r) (last_carry_count w) f h ∧
    last_carry_count w'
    = if decide (length r + last_carry_count w ≤ d) then last_carry_count w
      else f + h.
Proof.
  intros Hat Hr. unfold dadda_rank, dadda_decides. rewrite Hr. simpl.
  case_decide as Hskip.
  - eexists _, 0, 0. split; [reflexivity|]. simpl.
    rewrite bool_decide_eq_false_2 by lia.
    split; [by eapply rank_step_skip|]. done.
  - rewrite bool_decide_eq_true_2 by lia.
    destruct (new_row_first i (d_rows w) Hat)
      as (Hrk1 & Hnl1 & Hn1 & Hlen1 & Hti1 & Hlt1 & Hval1).
    destruct (new_row_second i (new_row (i + 1) (d_rows w)) Hn1 Hlen1)
      as (Hrk2 & Hnl2 & Hn2 & Hlen2 & Hti2 & Hlt2 & Hval2).
    set (st2 := new_row (i + 2) (new_row (i + 1) (d_rows w))) in *.
    assert (Hr2 : ranks st2 !! i = Some r) by (by rewrite Hrk2, Hrk1).
    assert (Ht2 : temp st2 !! i = Some (carry_row i (d_rows w)))
      by (by rewrite Hlt2 by lia).
    destruct (dadda_FA_loop_run (length r) d (last_carry_count w) i st2 (length r) 0
                r _ _ Hr2 eq_refl Ht2 Hti2)
      as (f & st3 & Hloop & Hf1 & Hexit & Hlast & Hred); [lia|].
    rewrite Hloop. simpl. simpl in Hexit, Hlast.
    destruct (bool_decide (length r - 3 * f + last_carry_count w + f = d + 1)
              && bool_decide (2 ≤ length r - 3 * f)) eqn:Hcond.
    + apply andb_prop in Hcond as [Hq Hrem].
      apply bool_decide_eq_true_1 in Hq. apply bool_decide_eq_true_1 in Hrem.
      destruct (reduced_heights _ _ _ _ _ Hred)
        as (r0 & t00 & t10 & r' & t0' & t1' & Hr0 & _ & _ & Hr' & Ht0' & Ht1'
            & Hlr & _).
      rewrite Hr2 in Hr0. injection Hr0 as <-.
      destruct (reduce_with_HA_reduced i st3 r' t0' t1') as (st4 & Hrun & Hred4);
        [done | lia | done | done |].
      rewrite Hrun. simpl.
      eexists _, f, 1. split; [reflexivity|]. simpl.
      split.
      { apply rank_step_reduced; [done|].
        replace f with (f + 0) by lia. replace 1 with (0 + 1) at 2 by done.
        by apply (reduced_trans i f 0 0 1 st2 st3 st4). }
      split; [|lia].
      split; [lia|]. split; [done|]. split; [done|]. left. done.
    + eexists _, f, 0. split; [reflexivity|]. simpl.
      split. { by apply rank_step_reduced. }
      split; [|lia].
      split; [lia|]. split; [done|]. split; [done|]. right. split; [done|].
      intros [Hq Hrem]. rewrite andb_false_iff in Hcond.
      destruct Hcond as [Hc|Hc]; apply bool_decide_eq_false_1 in Hc; lia.
Qed.

(** ** A stage of the Dadda reducer *)

(** The invariant of the Dadda pass before rank [i], at threshold [d]. *)
Definition dadda_inv (ranks0 : ranks_t) (s0 : netlist_t) (d i : nat)
    (w : dadda_t) : Prop :=
  rows_at i (d_rows w) ∧
  length (ranks (d_rows w)) = length ranks0 ∧
  (∀ j, i ≤ j → ranks (d_rows w) !! j = ranks0 !! j) ∧
  length (carry_row i (d_rows w)) ≤ last_carry_count w ∧
  last_carry_count w ≤ d / 2 ∧
  (∀ j r t, j < i → ranks (d_rows w) !! j = Some r → temp (d_rows w) !! j = Some t →
     length t + length r ≤ d) ∧
  ((∃ j r t, j < i ∧ ranks (d_rows w) !! j = Some r ∧ temp (d_rows w) !! j = Some t ∧
             length t + length r = d)
   ∨ (last_carry_count w = 0 ∧ ∀ j r, j < i → ranks0 !! j = Some r → length r ≤ d)) ∧
  (new_ranks_size (d_rows w) = i + 1 → length (carry_row i (d_rows w)) ≠ 0) ∧
  (∃ new, netlist (d_rows w) = extend s0 new) ∧
  ∀ env floating v, consistent env floating (netlist (d_rows w)) v →
    rows_value v (d_rows w) = ranks_value v ranks0.

Lemma dadda_inv_step ranks0 s0 d i w :
  2 ≤ d → Forall (λ r, length r ≤ d * 3 / 2) ranks0 →
  i < length ranks0 →
  dadda_inv ranks0 s0 d i w →
  ∃ w', dadda_rank d i w = Some w' ∧ dadda_inv ranks0 s0 d (S i) w'.
Proof.
  intros Hd Hall Hi
    (Hat & Hlen & Hsame & Hcarry & Hlast & Hdone & Hexact & Hsafe & [new Hnl] & Hval).
  destruct (lookup_lt_is_Some_2 ranks0 i Hi) as [r Hr0].
  assert (Hr : ranks (d_rows w) !! i = Some r) by (by rewrite Hsame).
  pose proof (Forall_lookup_1 _ _ _ _ Hall Hr0) as Hrm. simpl in Hrm.
  destruct (dadda_rank_run d i w r Hat Hr) as (w' & f & h & Hrun & Hstep & Hdec & Hlast').
  exists w'. split; [done|].
  destruct (dadda_decides_bounds _ _ _ _ _ Hd Hrm Hlast Hdec) as (Hb1 & Hb2).
  destruct Hstep as (Hl' & Hothers & (r1 & r' & Hr1 & Hr' & Hlr & _) & Hn' & Hlt' & Hkeep
                     & (t' & Ht' & Hlt0) & Hrowed & [new' Hnl'] & _ & _ & Hval').
  rewrite Hr in Hr1. injection Hr1 as <-.
  assert (Hnew : ∃ new, netlist (d_rows w') = extend s0 new).
  { exists (new ++ new'). by rewrite Hnl', Hnl, extend_extend. }
  assert (Hvalue : ∀ env floating v, consistent env floating (netlist (d_rows w')) v →
                     rows_value v (d_rows w') = ranks_value v ranks0).
  { intros env floating v Hc. rewrite (Hval' env floating v Hc).
    apply (Hval env floating). rewrite Hnl' in Hc. by apply consistent_extend in Hc. }
  assert (Hsame' : ∀ j, S i ≤ j → ranks (d_rows w') !! j = ranks0 !! j).
  { intros j Hj. rewrite Hothers by lia. apply Hsame. lia. }
  assert (Hold : ∀ j rj tj, j < i → ranks (d_rows w') !! j = Some rj →
                   temp (d_rows w') !! j = Some tj →
                   ranks (d_rows w) !! j = Some rj ∧ temp (d_rows w) !! j = Some tj).
  { intros j rj tj Hj Hrj Htj. rewrite Hothers in Hrj by lia.
    rewrite Hkeep in Htj by lia. done. }
  destruct (le_lt_dec (length r + last_carry_count w) d) as [Hskip|Hred].
  - (* the rank is passed over *)
    rewrite decide_True in Hlast' by done.
    rewrite bool_decide_eq_false_2 in Hlt', Hrowed by lia.
    specialize (Hb1 Hskip).
    assert (Hcarry' : length (carry_row (S i) (d_rows w')) = 0).
    { by apply (carry_row_next i false). }
    split. { split; [done|]. rewrite Hn', Hlt'. lia. }
    split; [lia|]. split; [done|].
    split; [lia|]. split; [lia|].
    split.
    { intros j rj tj Hj Hrj Htj. destruct (decide (j = i)) as [->|Hne].
      - rewrite Hr' in Hrj. rewrite Ht' in Htj.
        injection Hrj as <-. injection Htj as <-. lia.
      - destruct (Hold j rj tj) as [Hrj' Htj']; [lia|done|done|].
        apply (Hdone j rj tj); [lia|done|done]. }
    split.
    { destruct Hexact as [(j & rj & tj & Hj & Hrj & Htj & Hex)|[Hzero Hlow]].
      - left. exists j, rj, tj. split; [lia|].
        rewrite Hothers by lia. rewrite Hkeep by lia. done.
      - right. split; [lia|].
        intros j rj Hj Hrj. destruct (decide (j = i)) as [->|Hne].
        + rewrite Hr0 in Hrj. injection Hrj as <-. lia.
        + apply (Hlow j); [lia|done]. }
    split. { rewrite Hn', Hlt'. lia. }
    done.
  - (* the rank is reduced *)
    rewrite decide_False in Hlast' by lia.
    rewrite bool_decide_eq_true_2 in Hlt', Hrowed by lia.
    specialize (Hb2 Hred).
    assert (Hcarry' : length (carry_row (S i) (d_rows w')) = f + h).
    { apply (carry_row_next i true); [done|done|done]. }
    split. { split; [done|]. rewrite Hn', Hlt'. lia. }
    split; [lia|]. split; [done|].
    split; [lia|]. split; [lia|].
    split.
    { intros j rj tj Hj Hrj Htj. destruct (decide (j = i)) as [->|Hne].
      - rewrite Hr' in Hrj. rewrite Ht' in Htj.
        injection Hrj as <-. injection Htj as <-. lia.
      - destruct (Hold j rj tj) as [Hrj' Htj']; [lia|done|done|].
        apply (Hdone j rj tj); [lia|done|done]. }
    split.
    { destruct Hexact as [(j & rj & tj & Hj & Hrj & Htj & Hex)|[Hzero Hlow]].
      - left. exists j, rj, tj. split; [lia|].
        rewrite Hothers by lia. rewrite Hkeep by lia. done.
      - left. exists i, r', t'. split; [lia|]. split; [done|]. split; [done|]. lia. }
    split. { intros _. lia. }
    done.
Qed.

Lemma dadda_pass_run (t : dadda_tree_t) :
  tree_ok (d_tree t) → 2 ≤ d t →
  max_rank_size (d_tree t) ≤ d t * 3 / 2 →
  ∃ w, dadda_pass t = Some w ∧
       dadda_inv (t_ranks (d_tree t)) (t_netlist (d_tree t)) (d t)
         (length (t_ranks (d_tree t))) w.
Proof.
  intros [Hn Hmax] Hd Hm. unfold dadda_pass. rewrite Hn.
  apply (for_loop_inv (dadda_inv (t_ranks (d_tree t)) (t_netlist (d_tree t)) (d t))).
  - split. { split; simpl; [done|lia]. }
    simpl. split; [done|]. split; [done|]. split; [done|]. split; [lia|].
    split. { intros j r t' Hj. lia. }
    split. { right. split; [done|]. intros j r Hj. lia. }
    split. { intros Hf. lia. }
    split. { exists []. by rewrite extend_nil. }
    intros env floating v _. unfold rows_value. simpl. lia.
  - intros j w Hj Hinv. apply dadda_inv_step; [lia| |lia|done].
    apply Forall_lookup_2. intros k r Hr.
    pose proof (Forall_lookup_1 _ _ _ _ (get_max_rank_size_bound _) Hr) as Hb.
    simpl in Hb. rewrite <- Hmax in Hb. lia.
Qed.

(** The d-factors left on the stack under [d]: each one is what the next
    lower one gives by [d * 3 / 2], down to 2. *)
Fixpoint is_schedule (d : nat) (d_factors : list nat) : Prop :=
  match d_factors with
  | [] => d = 2
  | d' :: rest => d' * 3 / 2 = d ∧ is_schedule d' rest
  end.

Lemma is_schedule_ge d d_factors : is_schedule d d_factors → 2 ≤ d.
Proof.
  revert d. induction d_factors as [|d' rest IH]; intros d; simpl.
  - lia.
  - intros [<- H]. specialize (IH _ H). divmod (d' * 3) 2. lia.
Qed.

(** What the loop of the Dadda reducer keeps true of its variables. *)
Definition dadda_ok (t : dadda_tree_t) : Prop :=
  tree_ok (d_tree t) ∧
  is_schedule (d t) (d_factors t) ∧
  (2 < max_rank_size (d_tree t) →
   d t < max_rank_size (d_tree t) ∧ max_rank_size (d_tree t) ≤ d t * 3 / 2).

Lemma merge_result_lookup_lt (temp ranks : ranks_t) j t r :
  temp !! j = Some t → ranks !! j = Some r →
  merge_result temp ranks !! j = Some (t ++ r).
Proof.
  intros Ht Hr. unfold merge_result.
  pose proof (lookup_lt_Some _ _ _ Hr) as Hj.
  apply lookup_app_l_Some. unfold merged.
  apply lookup_zip_with_Some. exists t, r.
  split; [done|]. split; [|done]. by rewrite lookup_take_lt.
Qed.

(** One stage of the Dadda reducer at threshold [d]: it returns (the merge
    never reads outside the rank structure), leaves every rank at or below
    [d] and some rank exactly at [d], moves to the next d-factor of the
    stack, only adds nodes and keeps the weighted value. *)
Lemma dadda_stage_run (t : dadda_tree_t) :
  dadda_ok t → 2 < max_rank_size (d_tree t) →
  ∃ w t',
    dadda_pass t = Some w ∧
    length (t_ranks (d_tree t)) ≤ length (temp (d_rows w))
      ≤ length (t_ranks (d_tree t)) + 1 ∧
    (∀ row, temp (d_rows w) !! length (t_ranks (d_tree t)) = Some row → length row ≠ 0) ∧
    dadda_stage t = Some t' ∧ dadda_ok t' ∧
    max_rank_size (d_tree t') = d t ∧
    Forall (λ r, length r ≤ d t) (t_ranks (d_tree t')) ∧
    (d t', d_factors t') = roll_back (d t) (d_factors t) ∧
    (∃ new, t_netlist (d_tree t') = extend (t_netlist (d_tree t)) new) ∧
    ∀ env floating v, consistent env floating (t_netlist (d_tree t')) v →
      ranks_value v (t_ranks (d_tree t')) = ranks_value v (t_ranks (d_tree t)).
Proof.
  intros (Hok & Hsched & Hd) Hm. destruct (Hd Hm) as [Hdlt Hdmax].
  pose proof (is_schedule_ge _ _ Hsched) as Hd2.
  destruct (dadda_pass_run t Hok Hd2 Hdmax)
    as (w & Hpass & (Hlen & Hn) & Hlr & Hsame & Hcarry & Hlast & Hdone & Hexact
        & Hsafe & Hnl & Hval).
  destruct Hok as [Hcur Hmax].
  assert (Hshape : length (ranks (d_rows w)) ≤ length (temp (d_rows w))
                   ≤ length (ranks (d_rows w)) + 1) by lia.
  assert (Hrow : ∀ row, temp (d_rows w) !! length (ranks (d_rows w)) = Some row →
                        length row ≠ 0).
  { intros row Hrow. pose proof (lookup_lt_Some _ _ _ Hrow) as Hlt.
    rewrite Hlr in Hrow. unfold carry_row in Hsafe. rewrite Hrow in Hsafe.
    apply Hsafe. lia. }
  assert (Hall : Forall (λ r, length r ≤ d t)
                   (merge_result (temp (d_rows w)) (ranks (d_rows w)))).
  { apply Forall_lookup_2. intros j r Hr.
    destruct (merge_result_lookup _ _ _ _ Hshape Hr)
      as [(t0 & r0 & Ht0 & Hr0 & ->)|(-> & Hr' & Hnz)].
    - rewrite length_app. apply (Hdone j r0 t0); [|done|done].
      apply lookup_lt_Some in Hr0. lia.
    - rewrite Hlr in Hr'. unfold carry_row in Hcarry. rewrite Hr' in Hcarry.
      simpl in Hcarry. divmod (d t) 2. lia. }
  assert (Hmax' : get_max_rank_size (merge_result (temp (d_rows w)) (ranks (d_rows w)))
                  = d t).
  { apply Nat.le_antisymm; [by apply get_max_rank_size_le|].
    destruct Hexact as [(j & rj & tj & Hj & Hrj & Htj & Hex)|[Hzero Hlow]].
    - pose proof (merge_result_lookup_lt _ _ _ _ _ Htj Hrj) as Hl.
      pose proof (Forall_lookup_1 _ _ _ _ (get_max_rank_size_bound _) Hl) as Hb.
      simpl in Hb. rewrite length_app in Hb. lia.
    - exfalso.
      destruct (get_max_rank_size_attained (t_ranks (d_tree t))) as [H0|(r & Hr & Hlr')];
        [lia|].
      apply list_elem_of_lookup in Hr as [j Hj].
      pose proof (Hlow j r (lookup_lt_Some _ _ _ Hj) Hj). lia. }
  exists w,
    (mk_dadda_tree
       (mk_tree (merge_result (temp (d_rows w)) (ranks (d_rows w))) (netlist (d_rows w))
          (d t) (length (merge_result (temp (d_rows w)) (ranks (d_rows w)))))
       (roll_back (d t) (d_factors t)).1 (roll_back (d t) (d_factors t)).2).
  split; [done|].
  split; [lia|]. split. { rewrite <- Hlr. exact Hrow. }
  unfold dadda_stage. rewrite Hpass. simpl.
  rewrite Hcur, <- Hlr, <- Hlen.
  rewrite dadda_merge_run by done. simpl. rewrite Hmax'.
  assert (Hnext : reduce_d (d t) (d t) (d_factors t) = roll_back (d t) (d_factors t)).
  { destruct (d_factors t) as [|d' rest]; [done|]. simpl in *.
    destruct Hsched as [Hd' Hrest]. pose proof (is_schedule_ge _ _ Hrest).
    case_decide; [done|]. divmod (d' * 3) 2. lia. }
  rewrite Hnext.
  destruct (roll_back (d t) (d_factors t)) as [d' rest] eqn:Hroll.
  split; [reflexivity|]. simpl.
  split.
  { split; [by split|]. simpl.
    destruct (d_factors t) as [|d1 rest1]; simpl in *.
    - injection Hroll as <- <-. split; [done|]. lia.
    - injection Hroll as <- <-. destruct Hsched as [Hd1 Hrest]. split; [done|].
      intros _. pose proof (is_schedule_ge _ _ Hrest).
      divmod (d1 * 3) 2. lia. }
  split; [done|]. split; [done|]. split; [done|]. split; [done|].
  intros env floating v Hc. rewrite merge_result_value by done.
  by apply (Hval env floating).
Qed.

Lemma get_d_factors_run fuel : ∀ m d d_factors,
  is_schedule d d_factors → Forall (λ x, x < m) d_factors →
  m ≤ fuel + d →
  ∃ d' d_factors',
    get_d_factors fuel m d d_factors = Some (d', d_factors') ∧
    is_schedule d' d_factors' ∧ Forall (λ x, x < m) d_factors' ∧ m ≤ d'.
Proof.
  induction fuel as [|fuel IH]; intros m d0 dfs Hs Hall Hfuel; simpl.
  - case_decide; [lia|]. exists d0, dfs. split; [done|]. split; [done|].
    split; [done|lia].
  - case_decide as Hlt.
    + apply IH.
      * done.
      * by constructor.
      * pose proof (is_schedule_ge _ _ Hs). divmod (d0 * 3) 2. lia.
    + exists d0, dfs. split; [done|]. split; [done|]. split; [done|lia].
Qed.

(** The d-factors collected for a rank structure of maximum height [m],
    the largest first. *)
Definition collected_d_factors (m : nat) : list nat :=
  match get_d_factors m m 2 [] with
  | Some (_, d_factors) => d_factors
  | None => []
  end.

Lemma init_dadda_run s ranks :
  ∃ t0, init_dadda s ranks = Some t0 ∧ dadda_ok t0 ∧
        d_tree t0 = init_tree s ranks ∧
        (if decide (2 < get_max_rank_size ranks)
         then d t0 :: d_factors t0
         else []) = collected_d_factors (get_max_rank_size ranks).
Proof.
  unfold init_dadda, collected_d_factors. simpl.
  destruct (get_d_factors_run (get_max_rank_size ranks) (get_max_rank_size ranks) 2 [])
    as (d' & dfs & Hrun & Hs & Hall & Hm); [done|constructor|lia|].
  rewrite Hrun. simpl.
  destruct dfs as [|d1 rest]; simpl.
  - eexists. split; [reflexivity|]. simpl in Hs. subst d'.
    split. { split; [done|]. split; [done|]. simpl. lia. }
    split; [done|]. case_decide; [lia|done].
  - eexists. split; [reflexivity|]. destruct Hs as [Hd1 Hrest].
    inversion Hall as [|? ? Hlt Hall']; subst.
    split. { split; [done|]. split; [done|]. simpl. lia. }
    split; [done|]. simpl. case_decide; [done|].
    pose proof (is_schedule_ge _ _ Hrest). lia.
Qed.

(** ** The loops of the two reducers *)

Definition wallace_cond (t : tree_t) : bool := bool_decide (2 < max_rank_size t).
Definition dadda_cond (t : dadda_tree_t) : bool :=
  bool_decide (2 < max_rank_size (d_tree t)).

(** The d-factor sequence: [d_factor j] is 2 after [j] turns of
    [d = d * 3 / 2]. *)
Definition d_factor (j : nat) : nat := Nat.iter j (λ d, d * 3 / 2) 2.

Lemma d_factor_S j : d_factor (S j) = d_factor j * 3 / 2.
Proof. done. Qed.

Global Arguments d_factor : simpl never.

Lemma d_factor_ge j : 2 ≤ d_factor j.
Proof.
  induction j as [|j IH]; [done|]. rewrite d_factor_S.
  divmod (d_factor j * 3) 2. lia.
Qed.

Lemma d_factor_lt j : d_factor j < d_factor (S j).
Proof.
  rewrite d_factor_S. pose proof (d_factor_ge j).
  divmod (d_factor j * 3) 2. lia.
Qed.

Lemma d_factor_mono i j : i ≤ j → d_factor i ≤ d_factor j.
Proof.
  induction 1 as [|j Hj IH]; [done|]. pose proof (d_factor_lt j). lia.
Qed.

Lemma d_factor_growth j : 3 ^ j ≤ 2 ^ j * (d_factor j - 1).
Proof.
  induction j as [|j IH]; [simpl; lia|].
  rewrite d_factor_S. pose proof (d_factor_ge j).
  rewrite !Nat.pow_succ_r'.
  assert (3 * (d_factor j - 1) ≤ 2 * (d_factor j * 3 / 2 - 1))
    by (divmod (d_factor j * 3) 2; lia).
  nia.
Qed.

Lemma is_schedule_d_factor d0 l :
  is_schedule d0 l →
  d0 = d_factor (length l) ∧
  ∀ j x, reverse l !! j = Some x → x = d_factor j.
Proof.
  revert d0. induction l as [|d1 rest IH]; intros d0; simpl.
  - intros ->. split; [done|]. intros j x. by rewrite reverse_nil.
  - intros [<- Hrest]. destruct (IH _ Hrest) as [Hd1 Hlook].
    split; [by rewrite d_factor_S, <- Hd1|].
    intros j x. rewrite reverse_cons. intros Hj.
    apply lookup_app_Some in Hj as [Hj|[Hlen Hj]]; [by apply Hlook|].
    rewrite length_reverse in *.
    destruct (j - length rest) as [|n] eqn:Hn; [|done].
    simpl in Hj. injection Hj as <-.
    replace j with (length rest) by lia. done.
Qed.

Lemma is_schedule_decreasing d0 l i x y :
  is_schedule d0 l → l !! i = Some x → l !! S i = Some y → y < x ∧ x < d0.
Proof.
  revert d0 i. induction l as [|d1 rest IH]; intros d0 i Hs Hx Hy; [done|].
  destruct Hs as [<- Hrest]. destruct i as [|i]; simpl in *.
  - injection Hx as Hx. subst d1. destruct rest as [|d2 rest]; [done|].
    simpl in Hy. injection Hy as Hy. subst d2. destruct Hrest as [Hxy Hrest'].
    pose proof (is_schedule_ge _ _ Hrest').
    divmod (x * 3) 2. divmod (y * 3) 2. lia.
  - destruct (IH _ _ Hrest Hx Hy) as [H1 H2]. split; [done|].
    divmod (d1 * 3) 2. lia.
Qed.

(** The number of stages is logarithmic in the first maximum height. *)
Lemma pow_3_2 j e : 2 ^ j * 2 ^ (2 * j + e) ≤ 3 ^ (2 * j + e).
Proof.
  rewrite !Nat.pow_add_r, !Nat.pow_mul_r.
  change (2 ^ 2) with 4. change (3 ^ 2) with 9.
  assert (2 ^ j * 4 ^ j = 8 ^ j) as H8.
  { rewrite <- Nat.pow_mul_l. done. }
  assert (8 ^ j ≤ 9 ^ j) by (apply Nat.pow_le_mono_l; lia).
  assert (2 ^ e ≤ 3 ^ e) by (apply Nat.pow_le_mono_l; lia).
  rewrite Nat.mul_assoc, H8. by apply Nat.mul_le_mono.
Qed.

Lemma stages_log_bound k m0 :
  (k ≠ 0 → 3 ^ (k - 1) ≤ 2 ^ (k - 1) * (m0 - 2)) →
  k ≤ 2 * Nat.log2 m0 + 2.
Proof.
  intros H. destruct (le_lt_dec k (2 * Nat.log2 m0 + 2)) as [|Hk]; [done|].
  exfalso. specialize (H ltac:(lia)).
  destruct (decide (m0 = 0)) as [->|Hm].
  { simpl in H. rewrite Nat.mul_0_r in H.
    pose proof (Nat.pow_nonzero 3 (k - 1) ltac:(lia)). lia. }
  destruct (Nat.log2_spec m0 ltac:(lia)) as [_ Hlog].
  set (j := S (Nat.log2 m0)) in *.
  pose proof (pow_3_2 j (k - 1 - 2 * j)) as Hp.
  replace (2 * j + (k - 1 - 2 * j)) with (k - 1) in Hp by lia.
  assert (0 < 2 ^ (k - 1)) by (apply Nat.neq_0_lt_0, Nat.pow_nonzero; lia).
  nia.
Qed.

(** *** The Wallace loop *)

Lemma wallace_stage_decreases (t : tree_t) :
  tree_ok t → wallace_cond t = true →
  ∃ t', wallace_stage t = Some t' ∧ tree_ok t' ∧ max_rank_size t' < max_rank_size t.
Proof.
  intros Hok Hc. apply bool_decide_eq_true_1 in Hc.
  destruct (wallace_stage_run t Hok Hc) as (t' & Hrun & Hok' & Hmax & _).
  exists t'. split; [done|]. split; [done|].
  pose proof (wallace_target_lt (max_rank_size t) ltac:(lia)). lia.
Qed.

Lemma wallace_reaches_inv s ranks k t :
  reaches wallace_cond wallace_stage (init_tree s ranks) k t →
  tree_ok t ∧
  3 ^ k * (max_rank_size t - 2) ≤ 2 ^ k * (get_max_rank_size ranks - 2) ∧
  (∃ new, t_netlist t = extend s new) ∧
  ∀ env floating v, consistent env floating (t_netlist t) v →
    ranks_value v (t_ranks t) = ranks_value v ranks.
Proof.
  induction 1 as [|k t t' Hr (Hok & Hpow & [new Hnl] & Hval) Hc Hst].
  - split; [done|]. split; [simpl; lia|].
    split. { exists []. by rewrite extend_nil. }
    done.
  - apply bool_decide_eq_true_1 in Hc.
    destruct (wallace_stage_run t Hok Hc) as (t'' & Hrun & Hok' & Hmax & [new' Hnl'] & Hval').
    rewrite Hst in Hrun. injection Hrun as <-.
    split; [done|]. split.
    { rewrite !Nat.pow_succ_r'.
      assert (3 * (max_rank_size t' - 2) ≤ 2 * (max_rank_size t - 2)).
      { unfold wallace_target in Hmax. divmod (max_rank_size t) 3. lia. }
      nia. }
    split. { exists (new ++ new'). by rewrite Hnl', Hnl, extend_extend. }
    intros env floating v Hcons. rewrite (Hval' env floating v Hcons).
    apply (Hval env floating). rewrite Hnl' in Hcons. by apply consistent_extend in Hcons.
Qed.

Lemma wallace_loop_run s ranks :
  ∃ k t,
    reaches wallace_cond wallace_stage (init_tree s ranks) k t ∧
    max_rank_size t ≤ 2 ∧ tree_ok t ∧
    (∀ fuel, k ≤ fuel → wallace_reduce fuel (init_tree s ranks) = Some t) ∧
    (∀ fuel, fuel < k → wallace_reduce fuel (init_tree s ranks) = None) ∧
    k ≤ 2 * Nat.log2 (get_max_rank_size ranks) + 2.
Proof.
  destruct (while_loop_total wallace_cond wallace_stage tree_ok max_rank_size
              wallace_stage_decreases (init_tree s ranks) (init_tree_ok s ranks))
    as (k & t & Hr & Hc & Hok & _ & Hfuel & Hshort).
  exists k, t. apply bool_decide_eq_false_1 in Hc.
  split; [done|]. split; [lia|]. split; [done|]. split; [done|]. split; [done|].
  apply stages_log_bound. intros Hk.
  destruct k as [|k]; [done|]. replace (S k - 1) with k by lia.
  inversion Hr as [|k' tk t' Hrk Hck Hstk]; subst.
  destruct (wallace_reaches_inv _ _ _ _ Hrk) as (_ & Hpow & _).
  apply bool_decide_eq_true_1 in Hck.
  assert (3 ^ k ≤ 3 ^ k * (max_rank_size tk - 2)) by nia. lia.
Qed.

(** *** The Dadda loop *)

(** The d-factors still to be used by a loop state: its threshold and the
    stack under it, none once every rank is at height 2 or below. *)
Definition remaining_d_factors (t : dadda_tree_t) : list nat :=
  if decide (2 < max_rank_size (d_tree t)) then d t :: d_factors t else [].

Lemma dadda_stage_decreases (t : dadda_tree_t) :
  dadda_ok t → dadda_cond t = true →
  ∃ t', dadda_stage t = Some t' ∧ dadda_ok t' ∧
        max_rank_size (d_tree t') < max_rank_size (d_tree t).
Proof.
  intros Hok Hc. apply bool_decide_eq_true_1 in Hc.
  destruct (dadda_stage_run t Hok Hc) as (w & t' & _ & _ & _ & Hrun & Hok' & Hmax & _).
  exists t'. split; [done|]. split; [done|].
  destruct Hok as (_ & _ & Hd). destruct (Hd Hc). lia.
Qed.

Lemma dadda_reaches_inv s ranks t0 k t :
  init_dadda s ranks = Some t0 →
  reaches dadda_cond dadda_stage t0 k t →
  dadda_ok t ∧
  remaining_d_factors t = drop k (collected_d_factors (get_max_rank_size ranks)) ∧
  (2 < max_rank_size (d_tree t) →
   3 ^ k * (d t - 1) ≤ 2 ^ k * (get_max_rank_size ranks - 2)) ∧
  (∃ new, t_netlist (d_tree t) = extend s new) ∧
  ∀ env floating v, consistent env floating (t_netlist (d_tree t)) v →
    ranks_value v (t_ranks (d_tree t)) = ranks_value v ranks.
Proof.
  intros Hinit.
  destruct (init_dadda_run s ranks) as (t0' & Hinit' & Hok0 & Htree0 & Hrem0).
  rewrite Hinit in Hinit'. injection Hinit' as <-.
  induction 1 as [|k t t' Hr (Hok & Hrem & Hpow & [new Hnl] & Hval) Hc Hst].
  - split; [done|]. split.
    { unfold remaining_d_factors. rewrite Htree0. simpl. by rewrite drop_0. }
    split.
    { intros Hm. rewrite Htree0 in Hm. simpl in Hm.
      destruct Hok0 as (_ & _ & Hd). rewrite Htree0 in Hd. simpl in Hd.
      destruct (Hd Hm). simpl. lia. }
    rewrite Htree0. simpl.
    split. { exists []. by rewrite extend_nil. }
    done.
  - apply bool_decide_eq_true_1 in Hc.
    destruct (dadda_stage_run t Hok Hc)
      as (w & t'' & _ & _ & _ & Hrun & Hok' & Hmax & _ & Hroll & [new' Hnl'] & Hval').
    rewrite Hst in Hrun. injection Hrun as <-.
    pose proof Hok as (_ & Hsched & _).
    split; [done|]. split.
    { replace (S k) with (k + 1) by lia. rewrite <- drop_drop, <- Hrem.
      assert (remaining_d_factors t = d t :: d_factors t) as ->
        by (unfold remaining_d_factors; by rewrite decide_True).
      simpl. rewrite drop_0.
      unfold remaining_d_factors. rewrite Hmax.
      destruct (d_factors t) as [|d1 rest]; simpl in *.
      - rewrite Hsched. by rewrite decide_False by lia.
      - injection Hroll as -> ->. destruct Hsched as [Hd1 Hrest].
        pose proof (is_schedule_ge _ _ Hrest).
        rewrite decide_True; [done|]. divmod (d1 * 3) 2. lia. }
    split.
    { intros Hm'. specialize (Hpow Hc). rewrite Hmax in Hm'.
      destruct (d_factors t) as [|d1 rest]; simpl in *; [lia|].
      injection Hroll as Hd1' _. rewrite Hd1'. destruct Hsched as [Hd1 Hrest].
      pose proof (is_schedule_ge _ _ Hrest).
      rewrite ?Nat.pow_succ_r'.
      assert (3 * (d1 - 1) ≤ 2 * (d t - 1)) by (divmod (d1 * 3) 2; lia).
      nia. }
    split. { exists (new ++ new'). by rewrite Hnl', Hnl, extend_extend. }
    intros env floating v Hcons. rewrite (Hval' env floating v Hcons).
    apply (Hval env floating). rewrite Hnl' in Hcons. by apply consistent_extend in Hcons.
Qed.

Lemma dadda_loop_run s ranks :
  ∃ t0 k t,
    init_dadda s ranks = Some t0 ∧
    reaches dadda_cond dadda_stage t0 k t ∧
    max_rank_size (d_tree t) ≤ 2 ∧ dadda_ok t ∧
    (∀ fuel, k ≤ fuel → dadda_reduce fuel t0 = Some t) ∧
    (∀ fuel, fuel < k → dadda_reduce fuel t0 = None) ∧
    k = length (collected_d_factors (get_max_rank_size ranks)) ∧
    k ≤ 2 * Nat.log2 (get_max_rank_size ranks) + 2.
Proof.
  destruct (init_dadda_run s ranks) as (t0 & Hinit & Hok0 & Htree0 & Hrem0).
  destruct (while_loop_total dadda_cond dadda_stage dadda_ok
              (λ t, max_rank_size (d_tree t)) dadda_stage_decreases t0 Hok0)
    as (k & t & Hr & Hc & Hok & _ & Hfuel & Hshort).
  exists t0, k, t. apply bool_decide_eq_false_1 in Hc.
  split; [done|]. split; [done|]. split; [lia|]. split; [done|].
  split; [done|]. split; [done|].
  destruct (dadda_reaches_inv _ _ _ _ _ Hinit Hr) as (_ & Hrem & _).
  unfold remaining_d_factors in Hrem. rewrite decide_False in Hrem by done.
  assert (Hge : length (collected_d_factors (get_max_rank_size ranks)) ≤ k).
  { apply (f_equal length) in Hrem. rewrite length_drop in Hrem. simpl in Hrem. lia. }
  destruct k as [|k].
  { split; lia. }
  inversion Hr as [|k' tk t' Hrk Hck Hstk]; subst.
  destruct (dadda_reaches_inv _ _ _ _ _ Hinit Hrk) as (Hokk & Hremk & Hpow & _).
  apply bool_decide_eq_true_1 in Hck.
  unfold remaining_d_factors in Hremk. rewrite decide_True in Hremk by done.
  apply (f_equal length) in Hremk. rewrite length_drop in Hremk. simpl in Hremk.
  split; [lia|].
  apply stages_log_bound. intros _. replace (S k - 1) with k by lia.
  specialize (Hpow Hck).
  destruct Hokk as (_ & Hsched & _). pose proof (is_schedule_ge _ _ Hsched).
  assert (3 ^ k ≤ 3 ^ k * (d tk - 1)) by nia. lia.
Qed.

Lemma heights_below_max (ranks : ranks_t) b :
  get_max_rank_size ranks ≤ b → Forall (λ r, length r ≤ b) ranks.
Proof.
  intros H. apply Forall_lookup_2. intros j r Hr.
  pose proof (Forall_lookup_1 _ _ _ _ (get_max_rank_size_bound ranks) Hr) as Hb.
  simpl in Hb. lia.
Qed.

(** C7. Height convergence and termination, for both strategies and every
    rank structure: the loop [while (max_rank_size > 2)] ends after a
    number [k] of stages with [k <= 2 * log2 (first maximum height) + 2]
    (any fuel from [k] on gives its result), it ends with every rank at
    height 2 or below, and every stage it runs returns and leaves the
    maximum rank height strictly smaller than it found it. *)
Theorem reduction_terminates (s : netlist_t) (ranks : ranks_t) :
  (∃ k t,
      (∀ fuel, k ≤ fuel → wallace_reduce fuel (init_tree s ranks) = Some t) ∧
      reaches wallace_cond wallace_stage (init_tree s ranks) k t ∧
      Forall (λ r, length r ≤ 2) (t_ranks t) ∧
      k ≤ 2 * Nat.log2 (get_max_rank_size ranks) + 2 ∧
      ∀ j tj, reaches wallace_cond wallace_stage (init_tree s ranks) j tj →
        2 < get_max_rank_size (t_ranks tj) →
        ∃ tj', wallace_stage tj = Some tj' ∧
               get_max_rank_size (t_ranks tj') < get_max_rank_size (t_ranks tj)) ∧
  (∃ t0 k t,
      init_dadda s ranks = Some t0 ∧
      (∀ fuel, k ≤ fuel → dadda_reduce fuel t0 = Some t) ∧
      reaches dadda_cond dadda_stage t0 k t ∧
      Forall (λ r, length r ≤ 2) (t_ranks (d_tree t)) ∧
      k ≤ 2 * Nat.log2 (get_max_rank_size ranks) + 2 ∧
      ∀ j tj, reaches dadda_cond dadda_stage t0 j tj →
        2 < get_max_rank_size (t_ranks (d_tree tj)) →
        ∃ tj', dadda_stage tj = Some tj' ∧
               get_max_rank_size (t_ranks (d_tree tj'))
               < get_max_rank_size (t_ranks (d_tree tj))).
Proof.
  split.
  - destruct (wallace_loop_run s ranks) as (k & t & Hr & Hmax & [_ Hok] & Hfuel & _ & Hk).
    exists k, t. split; [done|]. split; [done|].
    split. { apply heights_below_max. by rewrite <- Hok. }
    split; [done|].
    intros j tj Hrj Hm.
    destruct (wallace_reaches_inv _ _ _ _ Hrj) as ([Hcur Hmaxj] & _).
    destruct (wallace_stage_decreases tj) as (tj' & Hst & [_ Hok'] & Hlt).
    { done. }
    { apply bool_decide_eq_true_2. by rewrite Hmaxj. }
    exists tj'. split; [done|]. by rewrite <- Hok', <- Hmaxj.
  - destruct (dadda_loop_run s ranks)
      as (t0 & k & t & Hinit & Hr & Hmax & ([_ Hok] & _) & Hfuel & _ & _ & Hk).
    exists t0, k, t. split; [done|]. split; [done|]. split; [done|].
    split. { apply heights_below_max. by rewrite <- Hok. }
    split; [done|].
    intros j tj Hrj Hm.
    destruct (dadda_reaches_inv _ _ _ _ _ Hinit Hrj) as (Hokj & _).
    pose proof Hokj as ([_ Hmaxj] & _).
    destruct (dadda_stage_decreases tj) as (tj' & Hst & ([_ Hok'] & _) & Hlt).
    { done. }
    { apply bool_decide_eq_true_2. by rewrite Hmaxj. }
    exists tj'. split; [done|]. by rewrite <- Hok', <- Hmaxj.
Qed.

(** C4. The Dadda threshold schedule.  The collected d-factors are exactly
    the values 2, 3, 4, 6, 9, ... ([d_factor j], i.e. 2 after [j] turns of
    [d * 3 / 2]) that lie below the first maximum height, they are used
    from the largest backward, one per stage and strictly decreasing: the
    stage run after [k] earlier stages has the [k]-th of them (counted
    from the largest) as its threshold [d] and the rest on its stack, the
    loop ends after as many stages as there are d-factors, and every stage
    leaves every rank at height [d] or below. *)
Theorem dadda_threshold_schedule (s : netlist_t) (ranks : ranks_t) :
  let schedule := collected_d_factors (get_max_rank_size ranks) in
  (∀ j x, reverse schedule !! j = Some x ↔
          x = d_factor j ∧ x < get_max_rank_size ranks) ∧
  (∀ i x y, schedule !! i = Some x → schedule !! S i = Some y → y < x) ∧
  ∃ t0,
    init_dadda s ranks = Some t0 ∧
    (∀ k t, reaches dadda_cond dadda_stage t0 k t →
       2 < max_rank_size (d_tree t) →
       d t :: d_factors t = drop k schedule ∧
       ∃ t', dadda_stage t = Some t' ∧
             Forall (λ r, length r ≤ d t) (t_ranks (d_tree t'))) ∧
    ∃ t, reaches dadda_cond dadda_stage t0 (length schedule) t ∧
         max_rank_size (d_tree t) ≤ 2.
Proof.
  intros schedule.
  destruct (get_d_factors_run (get_max_rank_size ranks) (get_max_rank_size ranks) 2 [])
    as (d' & dfs & Hrun & Hs & Hall & Hm); [done|constructor|lia|].
  assert (Hsched : schedule = dfs).
  { unfold schedule, collected_d_factors. by rewrite Hrun. }
  destruct (is_schedule_d_factor _ _ Hs) as [Hd' Hlook].
  split.
  { intros j x. rewrite Hsched. split.
    - intros Hj. split; [by apply Hlook|].
      apply list_elem_of_lookup_2 in Hj. rewrite elem_of_reverse in Hj.
      apply list_elem_of_lookup in Hj as [i Hi].
      apply (Forall_lookup_1 _ _ _ _ Hall Hi).
    - intros [-> Hlt].
      destruct (le_lt_dec (length dfs) j) as [Hge|Hj].
      + pose proof (d_factor_mono _ _ Hge). lia.
      + destruct (lookup_lt_is_Some_2 (reverse dfs) j) as [y Hy];
          [by rewrite length_reverse|].
        by rewrite Hy, (Hlook _ _ Hy). }
  split.
  { intros i x y Hx Hy. rewrite Hsched in Hx, Hy.
    by destruct (is_schedule_decreasing _ _ _ _ _ Hs Hx Hy). }
  destruct (dadda_loop_run s ranks)
    as (t0 & k & t & Hinit & Hr & Hmax & Hok & _ & _ & Hk & _).
  exists t0. split; [done|]. split.
  - intros j tj Hrj Hmj.
    destruct (dadda_reaches_inv _ _ _ _ _ Hinit Hrj) as (Hokj & Hrem & _).
    unfold remaining_d_factors in Hrem. rewrite decide_True in Hrem by done.
    split; [done|].
    destruct (dadda_stage_run tj Hokj Hmj)
      as (w & t' & _ & _ & _ & Hst & _ & _ & Hbound & _).
    by exists t'.
  - exists t. fold schedule in Hk. by rewrite <- Hk.
Qed.

(** C9. Dadda merge index safety: in every stage the Dadda loop runs, from
    whatever rank structure it started, the reduction pass returns at most
    one row beyond the last rank, that row (the carries of the last rank)
    is never empty, and so every [ranks[i]] read by the merge loop exists:
    the merge loop returns, where an empty row there would make it read
    outside the rank structure. *)
Theorem dadda_merge_in_bounds (s : netlist_t) (ranks0 : ranks_t) :
  ∃ t0,
    init_dadda s ranks0 = Some t0 ∧
    ∀ k t, reaches dadda_cond dadda_stage t0 k t →
      2 < max_rank_size (d_tree t) →
      ∃ w m,
        dadda_pass t = Some w ∧
        new_ranks_size (d_rows w) = length (temp (d_rows w)) ∧
        cur_ranks_size (d_tree t) = length (ranks (d_rows w)) ∧
        length (temp (d_rows w)) ≤ length (ranks (d_rows w)) + 1 ∧
        (∀ row, temp (d_rows w) !! length (ranks (d_rows w)) = Some row → row ≠ []) ∧
        for_loop (dadda_merge_row (temp (d_rows w)) (cur_ranks_size (d_tree t)))
          0 (new_ranks_size (d_rows w)) (ranks (d_rows w), 0) = Some m ∧
        (∀ i, i < new_ranks_size (d_rows w) → i < length m.1).
Proof.
  destruct (init_dadda_run s ranks0) as (t0 & Hinit & _).
  exists t0. split; [done|]. intros k t Hr Hm.
  destruct (dadda_reaches_inv _ _ _ _ _ Hinit Hr) as (Hok & _).
  pose proof Hok as ([Hcur Hmax] & Hsched & Hd).
  destruct (Hd Hm) as [_ Hdmax]. pose proof (is_schedule_ge _ _ Hsched) as Hd2.
  destruct (dadda_pass_run t (conj Hcur Hmax) Hd2 Hdmax)
    as (w & Hpass & (Hlen & Hn) & Hlr & Hsame & Hcarry & Hlast & Hdone & Hexact
        & Hsafe & Hnl & Hval).
  assert (Hrow : ∀ row, temp (d_rows w) !! length (ranks (d_rows w)) = Some row →
                        length row ≠ 0).
  { intros row Hrow. pose proof (lookup_lt_Some _ _ _ Hrow) as Hlt.
    rewrite Hlr in Hrow. unfold carry_row in Hsafe. rewrite Hrow in Hsafe.
    apply Hsafe. lia. }
  exists w. eexists. split; [done|]. split; [done|]. split; [lia|].
  split; [lia|].
  split. { intros row Hl ->. by apply (Hrow [] Hl). }
  rewrite Hcur, <- Hlr, <- Hlen.
  rewrite dadda_merge_run by (done || lia).
  split; [reflexivity|]. simpl.
  intros i Hi. unfold merge_result. rewrite length_app, length_merged_take by lia.
  unfold extra_row.
  destruct (decide (i < length (ranks (d_rows w)))) as [|Hge]; [lia|].
  destruct (lookup_lt_is_Some_2 (temp (d_rows w)) (length (ranks (d_rows w))))
    as [row Hrow']; [lia|].
  rewrite Hrow'. rewrite decide_True by (by apply Hrow). simpl. lia.
Qed.

(** ** Inside a stage: the state of the pass before a given rank *)

Lemma for_loop_snoc {St : Type} (body : nat → St → option St) (i : nat) (s : St) :
  for_loop body 0 (S i) s = s' ← for_loop body 0 i s; body i s'.
Proof.
  replace (S i) with (i + 1) by lia. rewrite for_loop_split. simpl.
  destruct (for_loop body 0 i s) as [s'|]; simpl; [|done].
  by destruct (body i s').
Qed.

(** The Wallace pass of the stage that starts in [t], stopped before rank
    [i]. *)
Definition wallace_before (t : tree_t) (i : nat) : option wallace_t :=
  for_loop (wallace_rank (wallace_target (max_rank_size t))) 0 i
    (mk_wallace (mk_rows (t_ranks t) [] 0 (t_netlist t)) true 0).

(** Adders, and half adders, the Wallace pass applies to rank [i]: the
    nodes that appear in the netlist while rank [i] is processed. *)
Definition adders_at (t : tree_t) (i : nat) : nat :=
  match wallace_before t i, wallace_before t (S i) with
  | Some w, Some w' =>
      count_adders (netlist (w_rows w')) - count_adders (netlist (w_rows w))
  | _, _ => 0
  end.

Definition half_adders_at (t : tree_t) (i : nat) : nat :=
  match wallace_before t i, wallace_before t (S i) with
  | Some w, Some w' => count_HA (netlist (w_rows w')) - count_HA (netlist (w_rows w))
  | _, _ => 0
  end.

(** The adder count of the rank before rank [i] (none before rank 0). *)
Definition adders_before (t : tree_t) (i : nat) : nat :=
  match i with
  | 0 => 0
  | S i' => adders_at t i'
  end.

Lemma wallace_before_run (t : tree_t) i :
  tree_ok t → 2 < max_rank_size t → i ≤ length (t_ranks t) →
  ∃ w, wallace_before t i = Some w ∧
       wallace_inv (t_ranks t) (t_netlist t) (max_rank_size t) i w.
Proof.
  intros [Hn Hmax] Hm Hi. unfold wallace_before.
  apply (for_loop_inv (wallace_inv (t_ranks t) (t_netlist t) (max_rank_size t))).
  - split. { split; simpl; [done|lia]. }
    simpl. split; [done|]. split; [done|]. split; [done|]. split; [lia|].
    split. { intros j r t' Hj. lia. }
    split. { split; [|done]. intros _ j r Hj. lia. }
    split. { exists []. by rewrite extend_nil. }
    intros env floating v _. unfold rows_value. simpl. lia.
  - intros j w Hj Hinv. apply wallace_inv_step; [lia| |lia|done].
    rewrite Hmax. apply get_max_rank_size_bound.
Qed.

(** What the pass does at rank [i], in terms of the stage it belongs to. *)
Lemma wallace_at_rank (t : tree_t) i r :
  tree_ok t → 2 < max_rank_size t → t_ranks t !! i = Some r →
  ∃ w w' f h,
    wallace_before t i = Some w ∧ wallace_before t (S i) = Some w' ∧
    wallace_inv (t_ranks t) (t_netlist t) (max_rank_size t) i w ∧
    wallace_decides (wallace_target (max_rank_size t)) (length r)
      (last_adder_count w) (is_first_reducible_rank w) f h ∧
    last_adder_count w' = f + h ∧
    count_FA (netlist (w_rows w')) = count_FA (netlist (w_rows w)) + f ∧
    count_HA (netlist (w_rows w')) = count_HA (netlist (w_rows w)) + h ∧
    ranks (w_rows w') !! i = Some (drop (3 * f + 2 * h) r).
Proof.
  intros Hok Hm Hr. pose proof (lookup_lt_Some _ _ _ Hr) as Hi.
  destruct (wallace_before_run t i Hok Hm ltac:(lia)) as (w & Hw & Hinv).
  pose proof Hinv as (Hat & Hlen & Hsame & _).
  assert (Hr' : ranks (w_rows w) !! i = Some r) by (by rewrite Hsame).
  destruct (wallace_rank_run (wallace_target (max_rank_size t)) i w r Hat Hr')
    as (w' & f & h & Hrun & Hstep & Hdec & Hlast' & Hfirst').
  exists w, w', f, h. split; [done|].
  split. { unfold wallace_before in *. by rewrite for_loop_snoc, Hw. }
  split; [done|]. split; [done|]. split; [done|].
  destruct Hstep as (_ & _ & (r1 & r2 & Hr1 & Hr2 & _ & Hdrop) & _ & _ & _ & _ & _ & _
                     & Hfa & Hha & _).
  rewrite Hr' in Hr1. injection Hr1 as <-. subst r2. done.
Qed.

Lemma adders_before_last (t : tree_t) i w :
  tree_ok t → 2 < max_rank_size t → i ≤ length (t_ranks t) →
  wallace_before t i = Some w →
  last_adder_count w = adders_before t i.
Proof.
  intros Hok Hm Hi Hw. destruct i as [|i]; simpl.
  - unfold wallace_before in Hw. simpl in Hw. by injection Hw as <-.
  - destruct (lookup_lt_is_Some_2 (t_ranks t) i ltac:(lia)) as [r Hr].
    destruct (wallace_at_rank t i r Hok Hm Hr)
      as (w0 & w1 & f & h & Hw0 & Hw1 & _ & _ & Hlast & Hfa & Hha & _).
    rewrite Hw in Hw1. injection Hw1 as <-.
    unfold adders_at. rewrite Hw0, Hw. unfold count_adders. lia.
Qed.

(** C2 (amended). The Wallace half-adder rule.  In a Wallace stage, take a
    rank whose height leaves exactly 2 pins after the full adders (height
    2, 5, 8, ...).  It gets exactly one half adder, which empties it, if
    and only if (a) no adder was made yet in this stage when the half
    adder is decided, that is every earlier rank has height below 2 and
    the rank itself has height exactly 2, or (b) its full-adder count plus
    the adder count of the rank before plus 2 exceeds the target;
    otherwise it gets none and keeps its last two pins. *)
Theorem wallace_half_adder_rule (t : tree_t) (i : nat) (r : rank_t) :
  tree_ok t → 2 < max_rank_size t →
  t_ranks t !! i = Some r → length r `mod` 3 = 2 →
  ∃ w w' r',
    wallace_before t i = Some w ∧ wallace_before t (S i) = Some w' ∧
    count_FA (netlist (w_rows w')) = count_FA (netlist (w_rows w)) + length r / 3 ∧
    ranks (w_rows w') !! i = Some r' ∧
    ((half_adders_at t i = 1 ∧ r' = [])
     ∨ (half_adders_at t i = 0 ∧ r' = drop (length r - 2) r ∧ length r' = 2)) ∧
    (half_adders_at t i = 1 ↔
     (length r = 2 ∧ ∀ j rj, j < i → t_ranks t !! j = Some rj → length rj < 2)
     ∨ (max_rank_size t / 3) * 2 + max_rank_size t `mod` 3
       < length r / 3 + adders_before t i + 2).
Proof.
  intros Hok Hm Hr Hmod. pose proof (lookup_lt_Some _ _ _ Hr) as Hi.
  destruct (wallace_at_rank t i r Hok Hm Hr)
    as (w & w' & f & h & Hw & Hw' & Hinv & Hdec & Hlast' & Hfa & Hha & Hrk).
  pose proof (adders_before_last t i w Hok Hm ltac:(lia) Hw) as Hprev.
  destruct Hinv as (_ & _ & _ & _ & _ & _ & Hfirst & _).
  assert (Hhalf : half_adders_at t i = h).
  { unfold half_adders_at. rewrite Hw, Hw'. lia. }
  fold (wallace_target (max_rank_size t)).
  unfold wallace_decides in Hdec.
  assert (Hlen : length r = 3 * (length r / 3) + 2) by (divmod (length r) 3; lia).
  rewrite decide_False in Hdec by lia.
  destruct Hdec as [Hf Hh].
  assert (f = length r / 3) as Hfdiv by lia.
  exists w, w', (drop (3 * f + 2 * h) r).
  split; [done|]. split; [done|]. split; [lia|]. split; [done|].
  rewrite Hhalf, <- Hprev, <- Hfdiv.
  destruct Hh as [(-> & Hrem & Hwhy)|(-> & Hno)].
  - split.
    { left. split; [done|]. apply drop_ge. lia. }
    split; [intros _|done].
    destruct Hwhy as [[Hfl ->]|Ht]; [|by right].
    left. split; [lia|]. by apply Hfirst.
  - split.
    { right. split; [done|].
      replace (3 * f + 2 * 0) with (length r - 2) by lia.
      split; [done|]. rewrite length_drop. lia. }
    split; [done|]. intros Hwhy. exfalso. apply Hno. split; [lia|].
    destruct Hwhy as [[Hl2 Hprevs]|Ht]; [|by right].
    left. split; [by apply Hfirst|lia].
Qed.

Lemma wallace_half_adder_rule_witness :
  let t := init_tree empty_netlist [[PI 0; PI 1; PI 2; PI 3; PI 4]] in
  let r := [PI 0; PI 1; PI 2; PI 3; PI 4] in
  ∃ w w' r',
    wallace_before t 0 = Some w ∧ wallace_before t 1 = Some w' ∧
    count_FA (netlist (w_rows w')) = count_FA (netlist (w_rows w)) + length r / 3 ∧
    ranks (w_rows w') !! 0 = Some r' ∧
    ((half_adders_at t 0 = 1 ∧ r' = [])
     ∨ (half_adders_at t 0 = 0 ∧ r' = drop (length r - 2) r ∧ length r' = 2)) ∧
    (half_adders_at t 0 = 1 ↔
     (length r = 2 ∧ ∀ j rj, j < 0 → t_ranks t !! j = Some rj → length rj < 2)
     ∨ (max_rank_size t / 3) * 2 + max_rank_size t `mod` 3
       < length r / 3 + adders_before t 0 + 2).
Proof.
  intros t r.
  apply (wallace_half_adder_rule t 0 r).
  - split; reflexivity.
  - vm_compute. lia.
  - reflexivity.
  - reflexivity.
Defined.

(** The rule as the design document words it: condition (a) is "the first
    rank in the current stage that had height at least 2". *)
Definition half_adder_rule_as_claimed (t : tree_t) (i : nat) : Prop :=
  ∀ r, t_ranks t !! i = Some r → length r `mod` 3 = 2 →
    (half_adders_at t i = 1 ↔
     (2 ≤ length r ∧ ∀ j rj, j < i → t_ranks t !! j = Some rj → length rj < 2)
     ∨ (max_rank_size t / 3) * 2 + max_rank_size t `mod` 3
       < length r / 3 + adders_before t i + 2).

(** C2 as stated fails on a single rank of 5 signals: it is the first rank
    of height at least 2, yet after its full adder the two pins left get no
    half adder (target 4, and 1 + 0 + 2 does not exceed it). *)
Lemma half_adder_rule_counterexample :
  ¬ half_adder_rule_as_claimed
      (init_tree empty_netlist [[PI 0; PI 1; PI 2; PI 3; PI 4]]) 0.
Proof.
  intros H. specialize (H _ eq_refl eq_refl). destruct H as [_ H].
  assert (Hone : half_adders_at
                   (init_tree empty_netlist [[PI 0; PI 1; PI 2; PI 3; PI 4]]) 0 = 1).
  { apply H. left. split; [simpl; lia|]. intros j rj Hj. lia. }
  vm_compute in Hone. discriminate.
Qed.

(** ** The carry count of the Dadda pass *)

(** The Dadda pass of the stage that starts in [t], stopped before rank
    [i]. *)
Definition dadda_before (t : dadda_tree_t) (i : nat) : option dadda_t :=
  for_loop (dadda_rank (d t)) 0 i
    (mk_dadda (mk_rows (t_ranks (d_tree t)) [] 0 (t_netlist (d_tree t))) 0).

(** C3 (what the code does).  Ranks of heights 4, 1 and 3: the first stage
    has threshold 3.  Rank 0 gets one half adder; rank 1 is passed over
    (1 + 1 <= 3) and gets no adder; yet the carry count used to decide
    rank 2 is still 1, the count of rank 0, because a rank that is passed
    over leaves [last_carry_count] as it was; so rank 2, of height 3 with
    no carry coming in, gets a half adder it does not need. *)
Theorem dadda_carry_count_is_stale :
  ∃ t0 w1 w2 w3,
    init_dadda empty_netlist
      [[PI 0; PI 1; PI 2; PI 3]; [PI 4]; [PI 5; PI 6; PI 7]] = Some t0 ∧
    d t0 = 3 ∧
    dadda_before t0 1 = Some w1 ∧
    dadda_before t0 2 = Some w2 ∧
    dadda_before t0 3 = Some w3 ∧
    count_adders (netlist (d_rows w1)) = 1 ∧
    count_adders (netlist (d_rows w2)) = count_adders (netlist (d_rows w1)) ∧
    carry_row 2 (d_rows w2) = [] ∧
    last_carry_count w2 = 1 ∧
    count_adders (netlist (d_rows w3)) = count_adders (netlist (d_rows w2)) + 1.
Proof.
  eexists _, _, _, _.
  split; [vm_compute; reflexivity|].
  split; [reflexivity|].
  split; [vm_compute; reflexivity|].
  split; [vm_compute; reflexivity|].
  split; [vm_compute; reflexivity|].
  repeat split.
Qed.

(** ** The value of the finisher's output *)

Lemma bits_value_app (l1 l2 : list bool) :
  bits_value (l1 ++ l2) = bits_value l1 + 2 ^ length l1 * bits_value l2.
Proof.
  induction l1 as [|b l1 IH]; simpl; [lia|]. rewrite IH. lia.
Qed.

Lemma bits_value_lt (l : list bool) : bits_value l < 2 ^ length l.
Proof.
  induction l as [|b l IH]; simpl; [lia|]. destruct b; simpl; lia.
Qed.

(** The bits of a number, read back. *)
Lemma bits_value_testbit n : ∀ N,
  bits_value (Nat.testbit N <$> seq 0 n) = N `mod` 2 ^ n.
Proof.
  induction n as [|n IH]; intros N.
  - simpl. by rewrite Nat.mod_1_r.
  - cbn [seq fmap list_fmap bits_value]. rewrite <- fmap_S_seq.
    rewrite <- list_fmap_compose.
    rewrite (list_fmap_ext (Nat.testbit N ∘ S) (Nat.testbit (N / 2))).
    2:{ intros i x _. simpl. by rewrite Nat.div2_bits. }
    rewrite IH, Nat.bit0_mod, Nat.pow_succ_r', Nat.Div0.mod_mul_r. done.
Qed.

(** The second operand a rank of the chain gives the adder. *)
Definition second_pin (r : rank_t) : npin_t :=
  match r with
  | _ :: q :: _ => q
  | _ => ZERO_PIN
  end.

Lemma low_ranks_value v (ranks : ranks_t) :
  v ZERO_PIN = false →
  Forall (λ r, length r ≤ 1) ranks →
  bits_value (v <$> (pass_pin <$> ranks)) = ranks_value v ranks.
Proof.
  intros Hz. induction 1 as [|r ranks Hr _ IH]; [done|].
  cbn [fmap list_fmap bits_value ranks_value]. fold (fmap (M := list) pass_pin ranks).
  fold (fmap (M := list) v (pass_pin <$> ranks)). rewrite IH. f_equal.
  destruct r as [|p [|q r]]; simpl in *; [by rewrite Hz| unfold rank_value; simpl; lia | lia].
Qed.

Lemma chain_ranks_value v (rows : ranks_t) :
  v ZERO_PIN = false →
  Forall (λ r, r ≠ [] ∧ length r ≤ 2) rows →
  bits_value (v <$> (pass_pin <$> rows)) + bits_value (v <$> (second_pin <$> rows))
  = ranks_value v rows.
Proof.
  intros Hz. induction 1 as [|r rows [Hne Hr] _ IH]; [done|].
  cbn [fmap list_fmap bits_value ranks_value].
  fold (fmap (M := list) pass_pin rows). fold (fmap (M := list) second_pin rows).
  fold (fmap (M := list) v (pass_pin <$> rows)).
  fold (fmap (M := list) v (second_pin <$> rows)).
  rewrite <- IH.
  destruct r as [|p [|q [|x r]]]; simpl in *; try done; try lia.
  rewrite Hz. simpl. lia.
Qed.

(** What a valuation reads on the outputs of the finished chain adder. *)
Lemma chain_adder_value env floating s' v a (rows : ranks_t) j :
  consistent env floating s' v →
  nodes s' !! a = Some (chain_adder (length rows) rows true) →
  Forall (λ r, r ≠ [] ∧ length r ≤ 2) rows →
  v (OUT a j)
  = Nat.testbit (bits_value (v <$> (pass_pin <$> rows))
                 + bits_value (v <$> (second_pin <$> rows))) j.
Proof.
  intros Hc Hnode Hrows.
  rewrite (consistent_node _ _ _ _ _ _ _ Hc Hnode).
  assert (Hins : node_inputs floating v a (chain_adder (length rows) rows true)
                 = (v <$> (pass_pin <$> rows)) ++ (v <$> (second_pin <$> rows))).
  { unfold node_inputs, chain_adder. cbn [input_pins].
    rewrite <- fmap_app. apply list_eq. intros i.
    rewrite list_lookup_imap, list_lookup_fmap.
    rewrite !lookup_app, !length_fmap.
    rewrite !list_lookup_fmap.
    destruct (rows !! i) as [r|] eqn:Hr; simpl.
    - pose proof (Forall_lookup_1 _ _ _ _ Hrows Hr) as [Hne _].
      destruct r; [done|]. done.
    - destruct (rows !! (i - length rows)) as [r|] eqn:Hr'; simpl; [|done].
      pose proof (Forall_lookup_1 _ _ _ _ Hrows Hr') as [Hne Hlen].
      destruct r as [|p [|q r]]; done. }
  rewrite Hins. unfold node_value. simpl.
  rewrite take_app_length' by (by rewrite !length_fmap).
  rewrite drop_app_length' by (by rewrite !length_fmap).
  done.
Qed.

(** Where it meets no empty rank from the start of the chain on, the
    finisher keeps the value: the output sequence is worth what the rank
    structure of heights at most 2 was. *)
Lemma ranks_to_adder_chain_value env floating s (ranks : ranks_t) out s' v :
  Forall (λ r, length r ≤ 2) ranks →
  (∀ k i, chain_start ranks k → k ≤ i → ranks !! i ≠ Some []) →
  ranks_to_adder_chain s ranks = Some (out, s') →
  consistent env floating s' v →
  output_value v out = ranks_value v ranks.
Proof.
  intros Hall Hfull Hrun Hc. pose proof Hc as (_ & Hz & _).
  destruct (ranks_to_adder_chain_run s ranks) as [[Hno Hrun'] | (k & Hstart & Hrun')];
    rewrite Hrun in Hrun'; injection Hrun' as -> ->.
  - unfold output_value. apply low_ranks_value; [done|].
    apply Forall_lookup_2. intros j r Hr. by apply (Hno j).
  - assert (Hk : k < length ranks).
    { destruct Hstart as [(r & Hr & _) _]. by apply lookup_lt_Some in Hr. }
    set (rows := drop k ranks).
    assert (Hrows : Forall (λ r, r ≠ [] ∧ length r ≤ 2) rows).
    { apply Forall_lookup_2. intros j r Hr. unfold rows in Hr. rewrite lookup_drop in Hr.
      split.
      - intros ->. apply (Hfull k (k + j) Hstart ltac:(lia) Hr).
      - apply (Forall_lookup_1 _ _ _ _ Hall Hr). }
    assert (Hlen : length rows = length ranks - k) by apply length_drop.
    assert (Hnode : nodes (chain_netlist s (length ranks - k) rows true)
                      !! length (nodes s)
                    = Some (chain_adder (length rows) rows true)).
    { unfold chain_netlist. simpl. rewrite lookup_app_here. simpl. by rewrite Hlen. }
    assert (Hsplit : ranks_value v ranks
                     = ranks_value v (take k ranks) + 2 ^ k * ranks_value v rows).
    { rewrite <- (take_drop k ranks) at 1. rewrite ranks_value_app, length_take.
      by replace (k `min` length ranks) with k by lia. }
    rewrite Hsplit.
    unfold output_value. rewrite fmap_app, bits_value_app, !length_fmap, length_take.
    replace (k `min` length ranks) with k by lia.
    f_equal.
    { apply low_ranks_value; [done|].
      apply Forall_lookup_2. intros j r Hr. apply lookup_take_Some in Hr as [Hr Hj].
      destruct Hstart as [_ Hlow]. by apply (Hlow j). }
    f_equal.
    rewrite <- (chain_ranks_value v rows Hz Hrows).
    set (N := bits_value (v <$> (pass_pin <$> rows))
              + bits_value (v <$> (second_pin <$> rows))).
    assert (Hout : v <$> (imap (chain_pin (length (nodes s))) rows
                          ++ [OUT (length (nodes s)) (length ranks - k)])
                   = Nat.testbit N <$> seq 0 (S (length rows))).
    { rewrite seq_S, !fmap_app. simpl. f_equal.
      - apply list_eq. intros j.
        rewrite !list_lookup_fmap, list_lookup_imap.
        destruct (rows !! j) as [r|] eqn:Hr; simpl.
        + pose proof (lookup_lt_Some _ _ _ Hr) as Hj.
          rewrite lookup_seq_lt by done. simpl.
          pose proof (Forall_lookup_1 _ _ _ _ Hrows Hr) as [Hne _].
          destruct r; [done|]. simpl.
          f_equal. by apply (chain_adder_value env floating _ v _ rows j Hc Hnode).
        + apply lookup_ge_None_1 in Hr. by rewrite lookup_seq_ge by done.
      - rewrite <- Hlen. f_equal.
        by apply (chain_adder_value env floating _ v _ rows _ Hc Hnode). }
    rewrite Hout, bits_value_testbit. apply Nat.mod_small.
    pose proof (bits_value_lt (v <$> (pass_pin <$> rows))).
    pose proof (bits_value_lt (v <$> (second_pin <$> rows))).
    rewrite !length_fmap in *. rewrite Nat.pow_succ_r'. unfold N. lia.
Qed.

(** ** The two strategies compared *)

Lemma consistent_prefix env floating s s' v :
  (∃ new, nodes s' = nodes s ++ new) →
  consistent env floating s' v → consistent env floating s v.
Proof.
  intros [new Hn] (Hpi & Hz & Hnode). split; [done|]. split; [done|].
  intros node nd idx Hl. apply Hnode. rewrite Hn. by apply lookup_app_l_Some.
Qed.

Lemma ranks_to_adder_chain_extends s ranks out s' :
  ranks_to_adder_chain s ranks = Some (out, s') →
  ∃ new, nodes s' = nodes s ++ new.
Proof.
  intros Hrun.
  destruct (ranks_to_adder_chain_run s ranks) as [[_ Hrun'] | (k & _ & Hrun')];
    rewrite Hrun in Hrun'; injection Hrun' as -> ->.
  - exists []. by rewrite app_nil_r.
  - by eexists.
Qed.

Lemma rank_value_ext v v' (r : rank_t) :
  (∀ p, p ∈ r → v p = v' p) → rank_value v r = rank_value v' r.
Proof.
  induction r as [|p r IH]; intros H; [done|]. rewrite !rank_value_cons.
  rewrite (H p) by apply list_elem_of_here.
  rewrite IH; [done|]. intros q Hq. apply H. by apply list_elem_of_further.
Qed.

Lemma ranks_value_ext v v' (ranks : ranks_t) :
  (∀ r p, r ∈ ranks → p ∈ r → v p = v' p) →
  ranks_value v ranks = ranks_value v' ranks.
Proof.
  induction ranks as [|r ranks IH]; intros H; [done|]. simpl.
  rewrite (rank_value_ext v v' r).
  - rewrite IH; [done|]. intros r' p Hr'. apply H. by apply list_elem_of_further.
  - intros p. apply H. apply list_elem_of_here.
Qed.

(** No rank from the start of the chain on is empty. *)
Definition chain_is_full (ranks : ranks_t) : Prop :=
  ∀ k i, chain_start ranks k → k ≤ i → ranks !! i ≠ Some [].

(** Adders a strategy inserts: those of the netlist it returns that the
    netlist it was given did not have. *)
Definition adders_inserted (tree_type : compressor_tree_type_e) (fuel : nat)
    (s : netlist_t) (ranks : ranks_t) : option nat :=
  '(_, s') ← implement_compressor_tree tree_type fuel s ranks;
  Some (count_adders s' - count_adders s).

(** The gate-count bound as the design document words it. *)
Definition gate_count_bound_as_claimed (fuel : nat) (s : netlist_t)
    (ranks : ranks_t) : Prop :=
  ∀ nw nd,
    adders_inserted WALLACE fuel s ranks = Some nw →
    adders_inserted DADDA fuel s ranks = Some nd →
    nd ≤ nw.

(** C8 as stated fails on a single rank of 4 signals: Wallace reduces it
    with one full adder, Dadda (thresholds 3, then 2) with two half adders. *)
Lemma gate_count_bound_counterexample :
  ¬ gate_count_bound_as_claimed 4 empty_netlist [[PI 0; PI 1; PI 2; PI 3]].
Proof.
  intros H. specialize (H 1 2 eq_refl eq_refl). lia.
Qed.

(** C8 (amended).  The adder counts of the two strategies are not ordered
    (a single rank of 4 signals costs Dadda 2 adders and Wallace 1; ranks
    of heights 2 and 3 cost Wallace 2 and Dadda 1).  What both do, on every
    rank structure and with fuel [2 * log2 (maximum height) + 2]: they
    return, their reduced rank structures are worth what the input is under
    every valuation of the netlist they built, and, where neither reduced
    structure has an empty rank from the start of its chain on, the two
    output sequences are worth the input's value, hence the same, under
    valuations that agree on the input signals. *)
Theorem reducers_agree_on_value (s : netlist_t) (ranks : ranks_t) :
  let fuel := 2 * Nat.log2 (get_max_rank_size ranks) + 2 in
  adders_inserted WALLACE 4 empty_netlist [[PI 0; PI 1; PI 2; PI 3]] = Some 1 ∧
  adders_inserted DADDA 4 empty_netlist [[PI 0; PI 1; PI 2; PI 3]] = Some 2 ∧
  adders_inserted WALLACE 4 empty_netlist [[PI 0; PI 1]; [PI 2; PI 3; PI 4]] = Some 2 ∧
  adders_inserted DADDA 4 empty_netlist [[PI 0; PI 1]; [PI 2; PI 3; PI 4]] = Some 1 ∧
  ∃ tw t0 td ow sw od sd,
    wallace_reduce fuel (init_tree s ranks) = Some tw ∧
    init_dadda s ranks = Some t0 ∧ dadda_reduce fuel t0 = Some td ∧
    implement_compressor_tree WALLACE fuel s ranks = Some (ow, sw) ∧
    implement_compressor_tree DADDA fuel s ranks = Some (od, sd) ∧
    (∀ env floating v, consistent env floating (t_netlist tw) v →
       ranks_value v (t_ranks tw) = ranks_value v ranks) ∧
    (∀ env floating v, consistent env floating (t_netlist (d_tree td)) v →
       ranks_value v (t_ranks (d_tree td)) = ranks_value v ranks) ∧
    ∀ env floating vw vd,
      chain_is_full (t_ranks tw) → chain_is_full (t_ranks (d_tree td)) →
      consistent env floating sw vw → consistent env floating sd vd →
      (∀ r p, r ∈ ranks → p ∈ r → vw p = vd p) →
      output_value vw ow = ranks_value vw ranks ∧
      output_value vd od = ranks_value vd ranks ∧
      output_value vw ow = output_value vd od.
Proof.
  intros fuel.
  split; [reflexivity|]. split; [reflexivity|].
  split; [reflexivity|]. split; [reflexivity|].
  destruct (wallace_loop_run s ranks) as (kw & tw & Hrw & Hmw & [_ Hokw] & Hfw & _ & Hkw).
  destruct (dadda_loop_run s ranks)
    as (t0 & kd & td & Hinit & Hrd & Hmd & ([_ Hokd] & _) & Hfd & _ & _ & Hkd).
  destruct (wallace_reaches_inv _ _ _ _ Hrw) as (_ & _ & _ & Hvw).
  destruct (dadda_reaches_inv _ _ _ _ _ Hinit Hrd) as (_ & _ & _ & _ & Hvd).
  specialize (Hfw fuel Hkw). specialize (Hfd fuel Hkd).
  assert (Hhw : Forall (λ r, length r ≤ 2) (t_ranks tw)).
  { apply heights_below_max. by rewrite <- Hokw. }
  assert (Hhd : Forall (λ r, length r ≤ 2) (t_ranks (d_tree td))).
  { apply heights_below_max. by rewrite <- Hokd. }
  assert (∃ ow sw, ranks_to_adder_chain (t_netlist tw) (t_ranks tw) = Some (ow, sw))
    as (ow & sw & Hcw).
  { destruct (ranks_to_adder_chain_run (t_netlist tw) (t_ranks tw)) as [[_ H]|(k & _ & H)];
      eauto. }
  assert (∃ od sd, ranks_to_adder_chain (t_netlist (d_tree td)) (t_ranks (d_tree td))
                   = Some (od, sd)) as (od & sd & Hcd).
  { destruct (ranks_to_adder_chain_run (t_netlist (d_tree td)) (t_ranks (d_tree td)))
      as [[_ H]|(k & _ & H)]; eauto. }
  exists tw, t0, td, ow, sw, od, sd.
  split; [done|]. split; [done|]. split; [done|].
  split. { unfold implement_compressor_tree, implement_compressor_tree_wallace.
           rewrite Hfw. done. }
  split. { unfold implement_compressor_tree, implement_compressor_tree_dadda.
           rewrite Hinit. simpl. rewrite Hfd. done. }
  split; [done|]. split; [done|].
  intros env floating vw vd Hfullw Hfulld Hcsw Hcsd Hagree.
  assert (Hw : output_value vw ow = ranks_value vw ranks).
  { rewrite (ranks_to_adder_chain_value env floating _ _ _ _ vw Hhw Hfullw Hcw Hcsw).
    apply (Hvw env floating).
    eapply consistent_prefix; [|exact Hcsw]. by eapply ranks_to_adder_chain_extends. }
  assert (Hd : output_value vd od = ranks_value vd ranks).
  { rewrite (ranks_to_adder_chain_value env floating _ _ _ _ vd Hhd Hfulld Hcd Hcsd).
    apply (Hvd env floating).
    eapply consistent_prefix; [|exact Hcsd]. by eapply ranks_to_adder_chain_extends. }
  split; [done|]. split; [done|].
  rewrite Hw, Hd. by apply ranks_value_ext.
Qed.

Lemma reducers_agree_on_value_witness :
  let ranks := [[PI 0; PI 1; PI 2; PI 3]] in
  let env := λ _ : nat, true in
  let floating := λ _ _ : nat, false in
  ∃ ow sw od sd,
    implement_compressor_tree WALLACE 6 empty_netlist ranks = Some (ow, sw) ∧
    implement_compressor_tree DADDA 6 empty_netlist ranks = Some (od, sd) ∧
    count_adders sw = 1 ∧ count_adders sd = 2 ∧
    output_value (eval env floating 8 sw) ow = 4 ∧
    output_value (eval env floating 8 sd) od = 4.
Proof.
  intros ranks env floating.
  destruct (reducers_agree_on_value empty_netlist ranks)
    as (_ & _ & _ & _ & tw & t0 & td & ow & sw & od & sd
        & Hw & Hi & Hd & Hiw & Hid & _ & _ & Hout).
  exists ow, sw, od, sd.
  vm_compute in Hw. injection Hw as <-.
  vm_compute in Hi. injection Hi as <-.
  vm_compute in Hd. injection Hd as <-.
  assert (Hiw' := Hiw). assert (Hid' := Hid).
  vm_compute in Hiw'. injection Hiw' as Eow Esw.
  vm_compute in Hid'. injection Hid' as Eod Esd.
  split; [exact Hiw|]. split; [exact Hid|].
  split; [by rewrite <- Esw|]. split; [by rewrite <- Esd|].
  destruct (Hout env floating
              (eval env floating 8 sw) (eval env floating 8 sd)) as (H1 & H2 & _).
  - intros k i _ _ Hl. by destruct i as [|[|i]].
  - intros k i _ _ Hl. by destruct i as [|[|i]].
  - apply eval_consistent. rewrite <- Esw. vm_compute. reflexivity.
  - apply eval_consistent. rewrite <- Esd. vm_compute. reflexivity.
  - intros r p Hr Hp. apply list_elem_of_singleton in Hr. subst r.
    rewrite !elem_of_cons in Hp.
    destruct Hp as [Hp|[Hp|[Hp|[Hp|Hp]]]];
      [subst p; simpl; reflexivity ..|apply elem_of_nil in Hp; destruct Hp].
  - split; [exact H1 | exact H2].
Defined.

(** * Further properties of the reducers and of the finisher *)

(** ** Induction over the ranks of a reduction pass *)

(** A property of the state of the Wallace pass that holds before rank 0
    and is carried over every rank holds when the pass ends. *)
Lemma wallace_pass_ind (t : tree_t) (J : nat → wallace_t → Prop) :
  tree_ok t → 2 < max_rank_size t →
  J 0 (mk_wallace (mk_rows (t_ranks t) [] 0 (t_netlist t)) true 0) →
  (∀ i w w' r f h,
     t_ranks t !! i = Some r → ranks (w_rows w) !! i = Some r →
     rows_at i (w_rows w) → J i w →
     wallace_rank (wallace_target (max_rank_size t)) i w = Some w' →
     rank_step i f h (bool_decide (2 ≤ length r)) (w_rows w) (w_rows w') →
     wallace_decides (wallace_target (max_rank_size t)) (length r)
       (last_adder_count w) (is_first_reducible_rank w) f h →
     J (S i) w') →
  ∃ w, wallace_pass t = Some w ∧
       wallace_inv (t_ranks t) (t_netlist t) (max_rank_size t) (length (t_ranks t)) w ∧
       J (length (t_ranks t)) w.
Proof.
  intros Hok Hm H0 Hstep.
  assert (Hall : ∀ i, i ≤ length (t_ranks t) →
                      ∃ w, wallace_before t i = Some w ∧ J i w).
  { induction i as [|i IH]; intros Hi.
    - eexists. split; [reflexivity|done].
    - destruct IH as (w & Hw & HJ); [lia|].
      destruct (wallace_before_run t i Hok Hm ltac:(lia)) as (w0 & Hw0 & Hinv).
      rewrite Hw in Hw0. injection Hw0 as <-.
      destruct Hinv as (Hat & _ & Hsame & _).
      destruct (lookup_lt_is_Some_2 (t_ranks t) i ltac:(lia)) as [r Hr0].
      assert (Hr : ranks (w_rows w) !! i = Some r) by (by rewrite Hsame).
      destruct (wallace_rank_run (wallace_target (max_rank_size t)) i w r Hat Hr)
        as (w' & f & h & Hrun & Hrs & Hdec & _).
      exists w'. split.
      + unfold wallace_before in *. by rewrite for_loop_snoc, Hw.
      + by apply (Hstep i w w' r f h). }
  destruct (wallace_pass_run t Hok Hm) as (w & Hpass & Hinv).
  destruct (Hall (length (t_ranks t)) ltac:(lia)) as (w1 & Hw1 & HJ).
  exists w. split; [done|]. split; [done|].
  destruct Hok as [Hn _]. unfold wallace_pass in Hpass. unfold wallace_before in Hw1.
  rewrite Hn in Hpass. unfold wallace_target in Hw1. rewrite Hpass in Hw1.
  by injection Hw1 as <-.
Qed.

Lemma dadda_before_run (t : dadda_tree_t) i :
  tree_ok (d_tree t) → 2 ≤ d t → max_rank_size (d_tree t) ≤ d t * 3 / 2 →
  i ≤ length (t_ranks (d_tree t)) →
  ∃ w, dadda_before t i = Some w ∧
       dadda_inv (t_ranks (d_tree t)) (t_netlist (d_tree t)) (d t) i w.
Proof.
  intros [Hn Hmax] Hd Hm Hi. unfold dadda_before.
  apply (for_loop_inv (dadda_inv (t_ranks (d_tree t)) (t_netlist (d_tree t)) (d t))).
  - split. { split; simpl; [done|lia]. }
    simpl. split; [done|]. split; [done|]. split; [done|]. split; [lia|].
    split. { intros j r t' Hj. lia. }
    split. { right. split; [done|]. intros j r Hj. lia. }
    split. { intros Hf. lia. }
    split. { exists []. by rewrite extend_nil. }
    intros env floating v _. unfold rows_value. simpl. lia.
  - intros j w Hj Hinv. apply dadda_inv_step; [lia| |lia|done].
    apply Forall_lookup_2. intros k r Hr.
    pose proof (Forall_lookup_1 _ _ _ _ (get_max_rank_size_bound _) Hr) as Hb.
    simpl in Hb. rewrite <- Hmax in Hb. lia.
Qed.

(** The same for the Dadda pass. *)
Lemma dadda_pass_ind (t : dadda_tree_t) (J : nat → dadda_t → Prop) :
  dadda_ok t → 2 < max_rank_size (d_tree t) →
  J 0 (mk_dadda (mk_rows (t_ranks (d_tree t)) [] 0 (t_netlist (d_tree t))) 0) →
  (∀ i w w' r f h,
     t_ranks (d_tree t) !! i = Some r → ranks (d_rows w) !! i = Some r →
     rows_at i (d_rows w) → J i w →
     dadda_rank (d t) i w = Some w' →
     rank_step i f h (bool_decide (d t < length r + last_carry_count w))
       (d_rows w) (d_rows w') →
     dadda_decides (d t) (length r) (last_carry_count w) f h →
     last_carry_count w'
     = (if decide (length r + last_carry_count w ≤ d t) then last_carry_count w
        else f + h) →
     J (S i) w') →
  ∃ w, dadda_pass t = Some w ∧
       dadda_inv (t_ranks (d_tree t)) (t_netlist (d_tree t)) (d t)
         (length (t_ranks (d_tree t))) w ∧
       J (length (t_ranks (d_tree t))) w.
Proof.
  intros (Hok & Hsched & Hd) Hm H0 Hstep. destruct (Hd Hm) as [_ Hdmax].
  pose proof (is_schedule_ge _ _ Hsched) as Hd2.
  assert (Hall : ∀ i, i ≤ length (t_ranks (d_tree t)) →
                      ∃ w, dadda_before t i = Some w ∧ J i w).
  { induction i as [|i IH]; intros Hi.
    - eexists. split; [reflexivity|done].
    - destruct IH as (w & Hw & HJ); [lia|].
      destruct (dadda_before_run t i Hok Hd2 Hdmax ltac:(lia)) as (w0 & Hw0 & Hinv).
      rewrite Hw in Hw0. injection Hw0 as <-.
      destruct Hinv as (Hat & _ & Hsame & _).
      destruct (lookup_lt_is_Some_2 (t_ranks (d_tree t)) i ltac:(lia)) as [r Hr0].
      assert (Hr : ranks (d_rows w) !! i = Some r) by (by rewrite Hsame).
      destruct (dadda_rank_run (d t) i w r Hat Hr)
        as (w' & f & h & Hrun & Hrs & Hdec & Hlcc).
      exists w'. split.
      + unfold dadda_before in *. by rewrite for_loop_snoc, Hw.
      + by apply (Hstep i w w' r f h). }
  destruct (dadda_pass_run t Hok Hd2 Hdmax) as (w & Hpass & Hinv).
  destruct (Hall (length (t_ranks (d_tree t))) ltac:(lia)) as (w1 & Hw1 & HJ).
  exists w. split; [done|]. split; [done|].
  destruct Hok as [Hn _]. unfold dadda_pass in Hpass. unfold dadda_before in Hw1.
  rewrite Hn in Hpass. rewrite Hpass in Hw1.
  by injection Hw1 as <-.
Qed.

(** ** What a stage returns *)

Lemma wallace_stage_shape (t : tree_t) (w : wallace_t) :
  tree_ok t →
  wallace_pass t = Some w →
  wallace_inv (t_ranks t) (t_netlist t) (max_rank_size t) (length (t_ranks t)) w →
  ∃ t', wallace_stage t = Some t' ∧
        t_ranks t' = merge_result (temp (w_rows w)) (ranks (w_rows w)) ∧
        t_netlist t' = netlist (w_rows w) ∧
        length (ranks (w_rows w)) = length (t_ranks t) ∧
        length (ranks (w_rows w)) ≤ length (temp (w_rows w))
          ≤ length (ranks (w_rows w)) + 1.
Proof.
  intros [Hcur Hmax] Hpass ((Hlen & Hn) & Hlr & _).
  unfold wallace_stage. rewrite Hpass. simpl.
  rewrite Hcur, <- Hlr, <- Hlen.
  rewrite wallace_merge_run by lia. simpl.
  eexists. split; [reflexivity|]. simpl. repeat split; lia.
Qed.

Lemma dadda_stage_shape (t : dadda_tree_t) (w : dadda_t) :
  dadda_ok t → 2 < max_rank_size (d_tree t) →
  dadda_pass t = Some w →
  dadda_inv (t_ranks (d_tree t)) (t_netlist (d_tree t)) (d t)
    (length (t_ranks (d_tree t))) w →
  ∃ t', dadda_stage t = Some t' ∧
        t_ranks (d_tree t') = merge_result (temp (d_rows w)) (ranks (d_rows w)) ∧
        t_netlist (d_tree t') = netlist (d_rows w) ∧
        length (ranks (d_rows w)) = length (t_ranks (d_tree t)) ∧
        length (ranks (d_rows w)) ≤ length (temp (d_rows w))
          ≤ length (ranks (d_rows w)) + 1.
Proof.
  intros Hok Hm Hpass ((Hlen & Hn) & Hlr & _).
  destruct (dadda_stage_run t Hok Hm)
    as (w0 & t' & Hpass0 & Hshape & Hrow & Hstage & _).
  rewrite Hpass in Hpass0. injection Hpass0 as <-.
  exists t'. split; [done|].
  destruct Hok as ([Hcur _] & _).
  unfold dadda_stage in Hstage. rewrite Hpass in Hstage. simpl in Hstage.
  rewrite Hcur, <- Hlr, <- Hlen in Hstage.
  rewrite dadda_merge_run in Hstage.
  - simpl in Hstage. destruct (reduce_d _ _ _) as [d' rest].
    injection Hstage as <-. simpl. repeat split; lia.
  - lia.
  - intros row Hrow'. apply Hrow. by rewrite <- Hlr.
Qed.

(** ** Ranks a stage leaves alone, and ranks it cannot empty *)

(** Every rank below [k] holds at most one signal. *)
Definition settled_below (k : nat) (ranks : ranks_t) : Prop :=
  ∀ j r, j < k → ranks !! j = Some r → length r ≤ 1.

(** [ranks'] has the ranks below [k] of [ranks] as they were, and no
    empty rank where [ranks] had none. *)
Definition kept_ranks (k : nat) (ranks ranks' : ranks_t) : Prop :=
  (∀ j, j < k → ranks' !! j = ranks !! j) ∧
  (∀ j, ranks' !! j = Some [] → ranks !! j = Some []).

(** The same during a pass, before rank [i]: a rank that was not empty
    has a signal left or was given one, and nothing has happened yet below
    [k]. *)
Definition kept (k : nat) (ranks0 : ranks_t) (i : nat) (st : rows_t) : Prop :=
  (∀ j r0, j < i → ranks0 !! j = Some r0 → r0 ≠ [] →
     ∃ r t, ranks st !! j = Some r ∧ temp st !! j = Some t ∧ (r ≠ [] ∨ t ≠ [])) ∧
  (∀ j, j < i → j < k → ranks st !! j = ranks0 !! j ∧ temp st !! j = Some []) ∧
  (i ≤ k → carry_row i st = []).

Lemma kept_step k ranks0 i f h (rowed : bool) st st' r0 :
  ranks st !! i = Some r0 → ranks0 !! i = Some r0 →
  rank_step i f h rowed st st' →
  (i < k → f + h = 0 ∧ rowed = false) →
  kept k ranks0 i st → kept k ranks0 (S i) st'.
Proof.
  intros Hr Hr0 Hstep Hlow (Hne & Hsame & Hcarry).
  destruct Hstep as (Hl' & Hothers & (r1 & r' & Hr1 & Hr' & Hlr & Hdrop) & Hn' & Hlt'
                     & Hkeep & (t' & Ht' & Hlt0) & Hrowed & _).
  rewrite Hr in Hr1. injection Hr1 as <-.
  split; [|split].
  - intros j rj Hj Hrj Hnz. destruct (decide (j = i)) as [->|Hji].
    + rewrite Hr0 in Hrj. injection Hrj as <-.
      exists r', t'. split; [done|]. split; [done|].
      destruct (decide (f + h = 0)) as [Hz|Hz].
      * left. subst r'. replace (3 * f + 2 * h) with 0 by lia. by rewrite drop_0.
      * right. intros ->. simpl in Hlt0. lia.
    + destruct (Hne j rj) as (r & t & H1 & H2 & H3); [lia|done|done|].
      exists r, t. rewrite Hothers by done. rewrite Hkeep by lia. done.
  - intros j Hj Hjk. destruct (decide (j = i)) as [->|Hji].
    + destruct (Hlow Hjk) as [Hz _].
      split.
      * rewrite Hr', Hr0. subst r'. replace (3 * f + 2 * h) with 0 by lia.
        by rewrite drop_0.
      * rewrite Ht'. f_equal. rewrite Hcarry in Hlt0 by lia. simpl in Hlt0.
        apply nil_length_inv. lia.
    + rewrite Hothers by done. rewrite Hkeep by lia. apply Hsame; lia.
  - intros Hk. destruct (Hlow ltac:(lia)) as [_ ->].
    unfold carry_row. rewrite lookup_ge_None_2; [done|]. lia.
Qed.

Lemma kept_merge k ranks0 (st : rows_t) :
  length (ranks st) = length ranks0 →
  length (ranks st) ≤ length (temp st) ≤ length (ranks st) + 1 →
  kept k ranks0 (length ranks0) st →
  kept_ranks k ranks0 (merge_result (temp st) (ranks st)).
Proof.
  intros Hlen Hshape (Hne & Hsame & Hcarry). split.
  - intros j Hj. destruct (decide (j < length ranks0)) as [Hlt|Hge].
    + destruct (Hsame j Hlt Hj) as [H1 H2].
      destruct (lookup_lt_is_Some_2 ranks0 j Hlt) as [r Hr].
      rewrite Hr in H1. rewrite (merge_result_lookup_lt _ _ _ _ _ H2 H1). by rewrite Hr.
    + rewrite (lookup_ge_None_2 ranks0) by lia.
      destruct (merge_result (temp st) (ranks st) !! j) as [r|] eqn:E; [|done].
      exfalso.
      destruct (merge_result_lookup _ _ _ _ Hshape E)
        as [(t0 & r0 & _ & Hr0 & _)|(-> & Hr' & Hnz)].
      * apply lookup_lt_Some in Hr0. lia.
      * specialize (Hcarry ltac:(lia)). unfold carry_row in Hcarry.
        rewrite <- Hlen, Hr' in Hcarry. simpl in Hcarry. by subst r.
  - intros j Hj.
    destruct (merge_result_lookup _ _ _ _ Hshape Hj)
      as [(t0 & r0 & Ht0 & Hr0 & Happ)|(-> & Hr' & Hnz)]; [|done].
    symmetry in Happ. apply app_eq_nil in Happ as [-> ->].
    pose proof (lookup_lt_Some _ _ _ Hr0) as Hlt. rewrite Hlen in Hlt.
    destruct (lookup_lt_is_Some_2 ranks0 j Hlt) as [r Hr].
    destruct r as [|p r]; [done|]. exfalso.
    destruct (Hne j (p :: r) Hlt Hr) as (r1 & t1 & H1 & H2 & H3); [done|].
    rewrite Hr0 in H1. rewrite Ht0 in H2.
    injection H1 as <-. injection H2 as <-. by destruct H3.
Qed.

Lemma kept_init k ranks0 nl : kept k ranks0 0 (mk_rows ranks0 [] 0 nl).
Proof. split; [|split]; [intros; lia|intros; lia|done]. Qed.

Lemma kept_ranks_refl k ranks : kept_ranks k ranks ranks.
Proof. by split. Qed.

Lemma kept_ranks_trans k r1 r2 r3 :
  kept_ranks k r1 r2 → kept_ranks k r2 r3 → kept_ranks k r1 r3.
Proof.
  intros [H1 H2] [H3 H4]. split.
  - intros j Hj. rewrite H3 by done. by apply H1.
  - intros j Hj. by apply H2, H4.
Qed.

Lemma kept_ranks_settled k r1 r2 :
  kept_ranks k r1 r2 → settled_below k r1 → settled_below k r2.
Proof. intros [H1 _] Hs j r Hj Hr. rewrite H1 in Hr by done. by apply (Hs j). Qed.

(** One Wallace stage. *)
Lemma wallace_stage_kept k (t : tree_t) :
  tree_ok t → 2 < max_rank_size t → settled_below k (t_ranks t) →
  ∃ t', wallace_stage t = Some t' ∧ kept_ranks k (t_ranks t) (t_ranks t').
Proof.
  intros Hok Hm Hlow.
  destruct (wallace_pass_ind t (λ i w, kept k (t_ranks t) i (w_rows w)) Hok Hm)
    as (w & Hpass & Hinv & Hkept).
  { apply kept_init. }
  { intros i w w' r f h Hr0 Hr Hat HJ Hrun Hstep Hdec.
    apply (kept_step k _ i f h _ _ _ r Hr Hr0 Hstep); [|done].
    intros Hik. pose proof (Hlow i r Hik Hr0) as Hlr.
    unfold wallace_decides in Hdec. rewrite decide_True in Hdec by lia.
    split; [lia|]. apply bool_decide_eq_false_2. lia. }
  destruct (wallace_stage_shape t w Hok Hpass Hinv) as (t' & Hst & Heq & _ & Hlen & Hshape).
  exists t'. split; [done|]. rewrite Heq. by apply kept_merge.
Qed.

(** One Dadda stage. *)
Lemma dadda_stage_kept k (t : dadda_tree_t) :
  dadda_ok t → 2 < max_rank_size (d_tree t) → settled_below k (t_ranks (d_tree t)) →
  ∃ t', dadda_stage t = Some t' ∧
        kept_ranks k (t_ranks (d_tree t)) (t_ranks (d_tree t')).
Proof.
  intros Hok Hm Hlow.
  pose proof Hok as (_ & Hsched & _). pose proof (is_schedule_ge _ _ Hsched) as Hd2.
  destruct (dadda_pass_ind t
              (λ i w, kept k (t_ranks (d_tree t)) i (d_rows w)
                      ∧ (i ≤ k → last_carry_count w = 0)) Hok Hm)
    as (w & Hpass & Hinv & Hkept & _).
  { split; [apply kept_init|done]. }
  { intros i w w' r f h Hr0 Hr Hat [HJ Hz] Hrun Hstep Hdec Hlcc.
    assert (Hlow' : i < k → f + h = 0 ∧ last_carry_count w' = 0
                            ∧ bool_decide (d t < length r + last_carry_count w) = false).
    { intros Hik. pose proof (Hlow i r Hik Hr0) as Hlr.
      rewrite Hz in * by lia.
      unfold dadda_decides in Hdec. rewrite decide_True in Hdec by lia.
      rewrite decide_True in Hlcc by lia.
      split; [lia|]. split; [done|]. apply bool_decide_eq_false_2. lia. }
    split.
    - apply (kept_step k _ i f h _ _ _ r Hr Hr0 Hstep); [|done].
      intros Hik. destruct (Hlow' Hik) as (? & _ & ?). done.
    - intros Hik. by destruct (Hlow' ltac:(lia)) as (_ & ? & _). }
  destruct (dadda_stage_shape t w Hok Hm Hpass Hinv)
    as (t' & Hst & Heq & _ & Hlen & Hshape).
  exists t'. split; [done|]. rewrite Heq. by apply kept_merge.
Qed.

(** All the stages of a reduction. *)
Lemma wallace_reaches_kept k s ranks n t :
  settled_below k ranks →
  reaches wallace_cond wallace_stage (init_tree s ranks) n t →
  kept_ranks k ranks (t_ranks t).
Proof.
  intros Hlow Hr. induction Hr as [|n t t' Hr IH Hc Hst].
  - apply kept_ranks_refl.
  - destruct (wallace_reaches_inv _ _ _ _ Hr) as (Hok & _).
    apply bool_decide_eq_true_1 in Hc.
    destruct (wallace_stage_kept k t Hok Hc) as (t1 & Hst1 & Hk).
    { by apply (kept_ranks_settled k ranks). }
    rewrite Hst in Hst1. injection Hst1 as <-.
    by apply (kept_ranks_trans k _ (t_ranks t)).
Qed.

Lemma dadda_reaches_kept k s ranks t0 n t :
  settled_below k ranks →
  init_dadda s ranks = Some t0 →
  reaches dadda_cond dadda_stage t0 n t →
  kept_ranks k ranks (t_ranks (d_tree t)).
Proof.
  intros Hlow Hinit Hr. induction Hr as [|n t t' Hr IH Hc Hst].
  - destruct (init_dadda_run s ranks) as (t1 & Hinit1 & _ & Htree & _).
    rewrite Hinit in Hinit1. injection Hinit1 as <-. rewrite Htree.
    apply kept_ranks_refl.
  - destruct (dadda_reaches_inv _ _ _ _ _ Hinit Hr) as (Hok & _).
    apply bool_decide_eq_true_1 in Hc.
    destruct (dadda_stage_kept k t Hok Hc) as (t1 & Hst1 & Hk).
    { by apply (kept_ranks_settled k ranks). }
    rewrite Hst in Hst1. injection Hst1 as <-.
    by apply (kept_ranks_trans k _ (t_ranks (d_tree t))).
Qed.

(** ** The whole function, for either strategy *)

(** Enough turns for the loop [while (max_rank_size > 2)] of either
    reducer on [ranks]. *)
Definition enough_fuel (ranks : ranks_t) : nat :=
  2 * Nat.log2 (get_max_rank_size ranks) + 2.

(** The rank structure and the netlist a reducer hands to the finisher. *)
Definition reduce_ranks (tree_type : compressor_tree_type_e) (fuel : nat)
    (s : netlist_t) (ranks : ranks_t) : option (ranks_t * netlist_t) :=
  match tree_type with
  | WALLACE =>
      t ← wallace_reduce fuel (init_tree s ranks);
      Some (t_ranks t, t_netlist t)
  | DADDA =>
      t ← init_dadda s ranks;
      t ← dadda_reduce fuel t;
      Some (t_ranks (d_tree t), t_netlist (d_tree t))
  end.

Lemma implement_compressor_tree_reduce tree_type fuel s ranks :
  implement_compressor_tree tree_type fuel s ranks
  = '(rk, nl) ← reduce_ranks tree_type fuel s ranks; ranks_to_adder_chain nl rk.
Proof.
  destruct tree_type; simpl.
  - unfold implement_compressor_tree_wallace.
    by destruct (wallace_reduce fuel (init_tree s ranks)).
  - unfold implement_compressor_tree_dadda.
    destruct (init_dadda s ranks) as [t0|]; simpl; [|done].
    by destruct (dadda_reduce fuel t0).
Qed.

(** With enough turns the reducer of either strategy returns: a rank
    structure of height 2 at most that is worth what the input is, in a
    netlist that has grown, with the low ranks of at most one signal as
    they were and no empty rank that was not there. *)
Lemma reduce_ranks_run (tree_type : compressor_tree_type_e) s (ranks : ranks_t) fuel :
  enough_fuel ranks ≤ fuel →
  ∃ rk nl,
    reduce_ranks tree_type fuel s ranks = Some (rk, nl) ∧
    Forall (λ r, length r ≤ 2) rk ∧
    (∃ new, nl = extend s new) ∧
    (∀ env floating v, consistent env floating nl v →
       ranks_value v rk = ranks_value v ranks) ∧
    (∀ k, settled_below k ranks → kept_ranks k ranks rk).
Proof.
  intros Hfuel. unfold enough_fuel in Hfuel. destruct tree_type.
  - destruct (wallace_loop_run s ranks) as (n & t & Hr & Hmax & [_ Hok] & Hrun & _ & Hn).
    destruct (wallace_reaches_inv _ _ _ _ Hr) as (_ & _ & Hnl & Hval).
    exists (t_ranks t), (t_netlist t).
    split. { simpl. by rewrite Hrun by lia. }
    split. { apply heights_below_max. by rewrite <- Hok. }
    split; [done|]. split; [done|].
    intros k Hk. by apply (wallace_reaches_kept k s ranks n).
  - destruct (dadda_loop_run s ranks)
      as (t0 & n & t & Hinit & Hr & Hmax & ([_ Hok] & _) & Hrun & _ & _ & Hn).
    destruct (dadda_reaches_inv _ _ _ _ _ Hinit Hr) as (_ & _ & _ & Hnl & Hval).
    exists (t_ranks (d_tree t)), (t_netlist (d_tree t)).
    split. { simpl. rewrite Hinit. simpl. by rewrite Hrun by lia. }
    split. { apply heights_below_max. by rewrite <- Hok. }
    split; [done|]. split; [done|].
    intros k Hk. by apply (dadda_reaches_kept k s ranks t0 n).
Qed.

Lemma chain_start_or_none (ranks : ranks_t) :
  no_chain ranks ∨ ∃ k, chain_start ranks k.
Proof.
  destruct (ranks_to_adder_chain_run empty_netlist ranks) as [[H _]|(k & H & _)]; eauto.
Qed.

(** A structure without empty rank from its first pair on reduces to one
    without empty rank from its first pair on. *)
Lemma chain_is_full_kept (ranks rk : ranks_t) :
  chain_is_full ranks →
  (∀ k, settled_below k ranks → kept_ranks k ranks rk) →
  chain_is_full rk.
Proof.
  intros Hfull Hkept k' i Hstart' Hki Hi.
  assert (∃ k, settled_below k ranks ∧ ∀ j, k ≤ j → ranks !! j ≠ Some [])
    as (k & Hlow & Hfrom).
  { destruct (chain_start_or_none ranks) as [Hno|(k & Hk)].
    - exists (length ranks). split.
      + intros j r _ Hr. by apply (Hno j).
      + intros j Hj. by rewrite lookup_ge_None_2.
    - exists k. split; [by destruct Hk|]. intros j Hj. by apply (Hfull k). }
  destruct (Hkept k Hlow) as [Hsame Hempty].
  destruct Hstart' as [(r & Hr & Hlr) _].
  destruct (decide (k' < k)) as [Hlt|Hge].
  - rewrite Hsame in Hr by done. pose proof (Hlow k' r Hlt Hr). lia.
  - apply (Hfrom i); [lia|]. by apply Hempty.
Qed.

(** X1. End to end: on an input rank structure that has no empty rank from
    its first rank of two signals or more on, either strategy returns (with
    enough turns for its loop) an output sequence that is worth the input's
    weighted sum, under every valuation that agrees with the netlist
    returned. *)
Theorem compressor_tree_conserves_value (tree_type : compressor_tree_type_e)
    (s : netlist_t) (ranks : ranks_t) (fuel : nat) :
  chain_is_full ranks → enough_fuel ranks ≤ fuel →
  ∃ out s',
    implement_compressor_tree tree_type fuel s ranks = Some (out, s') ∧
    ∀ env floating v, consistent env floating s' v →
      output_value v out = ranks_value v ranks.
Proof.
  intros Hfull Hfuel.
  destruct (reduce_ranks_run tree_type s ranks fuel Hfuel)
    as (rk & nl & Hrun & Hh & Hnl & Hval & Hkept).
  pose proof (chain_is_full_kept ranks rk Hfull Hkept) as Hfull'.
  assert (∃ out s', ranks_to_adder_chain nl rk = Some (out, s')) as (out & s' & Hfin).
  { destruct (ranks_to_adder_chain_run nl rk) as [[_ H]|(k & _ & H)]; eauto. }
  exists out, s'. split; [by rewrite implement_compressor_tree_reduce, Hrun|].
  intros env floating v Hc.
  rewrite (ranks_to_adder_chain_value env floating nl rk out s' v Hh Hfull' Hfin Hc).
  apply (Hval env floating).
  eapply consistent_prefix; [|exact Hc]. by eapply ranks_to_adder_chain_extends.
Qed.

Lemma compressor_tree_conserves_value_witness :
  ∃ out s',
    implement_compressor_tree DADDA 6 empty_netlist
      [[PI 0]; [PI 1; PI 2; PI 3; PI 4]; [PI 5]] = Some (out, s') ∧
    ∀ env floating v, consistent env floating s' v →
      output_value v out
      = ranks_value v [[PI 0]; [PI 1; PI 2; PI 3; PI 4]; [PI 5]].
Proof.
  apply (compressor_tree_conserves_value DADDA empty_netlist
           [[PI 0]; [PI 1; PI 2; PI 3; PI 4]; [PI 5]] 6).
  - intros k i _ _ Hl. by destruct i as [|[|[|i]]].
  - vm_compute. lia.
Defined.

(** X2. The ranks below the first rank of two signals or more go to the
    output as they are, the single signal of the rank itself or the
    constant zero for an empty rank, whatever the strategy. *)
Theorem low_ranks_pass_through (tree_type : compressor_tree_type_e)
    (s : netlist_t) (ranks : ranks_t) (fuel k : nat) :
  settled_below k ranks → enough_fuel ranks ≤ fuel →
  ∃ out s',
    implement_compressor_tree tree_type fuel s ranks = Some (out, s') ∧
    ∀ j r, j < k → ranks !! j = Some r → out !! j = Some (pass_pin r).
Proof.
  intros Hlow Hfuel.
  destruct (reduce_ranks_run tree_type s ranks fuel Hfuel)
    as (rk & nl & Hrun & _ & _ & _ & Hkept).
  destruct (Hkept k Hlow) as [Hsame _].
  destruct (ranks_to_adder_chain_run nl rk) as [[_ Hfin]|(k' & Hstart & Hfin)].
  - eexists _, _. split; [by rewrite implement_compressor_tree_reduce, Hrun|].
    intros j r Hj Hr. by rewrite list_lookup_fmap, Hsame, Hr.
  - eexists _, _. split; [by rewrite implement_compressor_tree_reduce, Hrun|].
    intros j r Hj Hr.
    destruct Hstart as [(r' & Hr' & Hlr') _].
    assert (k ≤ k').
    { destruct (decide (k ≤ k')); [done|]. rewrite Hsame in Hr' by lia.
      pose proof (Hlow k' r' ltac:(lia) Hr'). lia. }
    pose proof (lookup_lt_Some _ _ _ Hr') as Hk'.
    rewrite lookup_app_l by (rewrite length_fmap, length_take; lia).
    rewrite list_lookup_fmap, lookup_take_lt by lia. by rewrite Hsame, Hr.
Qed.

Lemma low_ranks_pass_through_witness :
  ∃ out s',
    implement_compressor_tree WALLACE 6 empty_netlist
      [[PI 0]; []; [PI 1; PI 2; PI 3; PI 4]] = Some (out, s') ∧
    ∀ j r, j < 2 → [[PI 0]; []; [PI 1; PI 2; PI 3; PI 4]] !! j = Some r →
           out !! j = Some (pass_pin r).
Proof.
  apply (low_ranks_pass_through WALLACE empty_netlist
           [[PI 0]; []; [PI 1; PI 2; PI 3; PI 4]] 6 2).
  - intros j r Hj Hr. destruct j as [|[|j]]; [| |lia].
    + injection Hr as <-. simpl. lia.
    + injection Hr as <-. simpl. lia.
  - vm_compute. lia.
Defined.

(** X3. Neither reducer makes an empty rank: a rank that is empty when the
    loop [while (max_rank_size > 2)] ends was an empty rank of the input,
    at the same weight. *)
Theorem reduction_makes_no_empty_rank (s : netlist_t) (ranks : ranks_t) :
  (∃ t, wallace_reduce (enough_fuel ranks) (init_tree s ranks) = Some t ∧
        ∀ j, t_ranks t !! j = Some [] → ranks !! j = Some []) ∧
  (∃ t0 t, init_dadda s ranks = Some t0 ∧
           dadda_reduce (enough_fuel ranks) t0 = Some t ∧
           ∀ j, t_ranks (d_tree t) !! j = Some [] → ranks !! j = Some []).
Proof.
  assert (Hlow : settled_below 0 ranks) by (intros j r Hj; lia).
  split.
  - destruct (wallace_loop_run s ranks) as (n & t & Hr & _ & _ & Hrun & _ & Hn).
    exists t. split; [by apply Hrun|].
    by destruct (wallace_reaches_kept 0 s ranks n t Hlow Hr).
  - destruct (dadda_loop_run s ranks)
      as (t0 & n & t & Hinit & Hr & _ & _ & Hrun & _ & _ & Hn).
    exists t0, t. split; [done|]. split; [by apply Hrun|].
    by destruct (dadda_reaches_kept 0 s ranks t0 n t Hlow Hinit Hr).
Qed.

(** ** The finisher alone *)

(** X4. On a rank structure of height 2 at most with no empty rank from its
    first pair on, the output sequence of the finisher is worth the rank
    structure, under every valuation that agrees with the netlist
    returned. *)
Theorem finisher_conserves_value (s : netlist_t) (ranks : ranks_t) :
  Forall (λ r, length r ≤ 2) ranks → chain_is_full ranks →
  ∃ out s',
    ranks_to_adder_chain s ranks = Some (out, s') ∧
    ∀ env floating v, consistent env floating s' v →
      output_value v out = ranks_value v ranks.
Proof.
  intros Hh Hfull.
  assert (∃ out s', ranks_to_adder_chain s ranks = Some (out, s')) as (out & s' & Hfin).
  { destruct (ranks_to_adder_chain_run s ranks) as [[_ H]|(k & _ & H)]; eauto. }
  exists out, s'. split; [done|]. intros env floating v Hc.
  by apply (ranks_to_adder_chain_value env floating s ranks out s' v).
Qed.

Lemma finisher_conserves_value_witness :
  ∃ out s',
    ranks_to_adder_chain empty_netlist [[PI 0]; []; [PI 1; PI 2]; [PI 3]]
    = Some (out, s') ∧
    ∀ env floating v, consistent env floating s' v →
      output_value v out = ranks_value v [[PI 0]; []; [PI 1; PI 2]; [PI 3]].
Proof.
  apply (finisher_conserves_value empty_netlist [[PI 0]; []; [PI 1; PI 2]; [PI 3]]).
  - repeat constructor.
  - intros k i [(r & Hr & Hlr) _] Hki Hi.
    destruct i as [|[|[|[|i]]]]; try discriminate Hi.
    destruct k as [|[|k]]; [| |lia].
    + injection Hr as <-. simpl in Hlr. lia.
    + injection Hr as <-. simpl in Hlr. lia.
Defined.

(** ** Heights after a stage *)

(** X5. Every Wallace stage reaches its target: after it no rank is higher
    than [(max / 3) * 2 + max % 3], for [max] the maximum height it started
    from. *)
Theorem wallace_stage_meets_target (s : netlist_t) (ranks : ranks_t) (n : nat)
    (t : tree_t) :
  reaches wallace_cond wallace_stage (init_tree s ranks) n t →
  2 < get_max_rank_size (t_ranks t) →
  ∃ t', wallace_stage t = Some t' ∧
        Forall (λ r, length r ≤ (get_max_rank_size (t_ranks t) / 3) * 2
                                + get_max_rank_size (t_ranks t) `mod` 3)
               (t_ranks t').
Proof.
  intros Hr Hm.
  destruct (wallace_reaches_inv _ _ _ _ Hr) as (Hok & _).
  pose proof Hok as [_ Hmax]. rewrite <- Hmax in *.
  destruct (wallace_stage_run t Hok Hm) as (t' & Hst & [_ Hmax'] & Hle & _).
  exists t'. split; [done|]. apply heights_below_max. by rewrite <- Hmax'.
Qed.

Lemma wallace_stage_meets_target_witness :
  ∃ t', wallace_stage (init_tree empty_netlist [[PI 0; PI 1; PI 2; PI 3; PI 4]; [PI 5]])
        = Some t' ∧
        Forall (λ r, length r ≤ 4) (t_ranks t').
Proof.
  apply (wallace_stage_meets_target empty_netlist
           [[PI 0; PI 1; PI 2; PI 3; PI 4]; [PI 5]] 0).
  - constructor.
  - vm_compute. lia.
Defined.

(** X6. Every Dadda stage ends with the maximum height exactly at its
    threshold [d]: no rank is left higher, and the stage reduces no
    further than the threshold asks. *)
Theorem dadda_stage_reaches_threshold (s : netlist_t) (ranks : ranks_t)
    (t0 t : dadda_tree_t) (n : nat) :
  init_dadda s ranks = Some t0 →
  reaches dadda_cond dadda_stage t0 n t →
  2 < get_max_rank_size (t_ranks (d_tree t)) →
  ∃ t', dadda_stage t = Some t' ∧
        get_max_rank_size (t_ranks (d_tree t')) = d t.
Proof.
  intros Hinit Hr Hm.
  destruct (dadda_reaches_inv _ _ _ _ _ Hinit Hr) as (Hok & _).
  pose proof Hok as ([_ Hmax] & _). rewrite <- Hmax in Hm.
  destruct (dadda_stage_run t Hok Hm)
    as (w & t' & _ & _ & _ & Hst & ([_ Hmax'] & _) & Heq & _).
  exists t'. split; [done|]. by rewrite <- Hmax'.
Qed.

Lemma dadda_stage_reaches_threshold_witness :
  ∃ t', dadda_stage
          (mk_dadda_tree
             (init_tree empty_netlist [[PI 0; PI 1; PI 2; PI 3; PI 4]; [PI 5]]) 4 [3; 2])
        = Some t' ∧
        get_max_rank_size (t_ranks (d_tree t')) = 4.
Proof.
  apply (dadda_stage_reaches_threshold empty_netlist
           [[PI 0; PI 1; PI 2; PI 3; PI 4]; [PI 5]]
           (mk_dadda_tree
              (init_tree empty_netlist [[PI 0; PI 1; PI 2; PI 3; PI 4]; [PI 5]]) 4 [3; 2])
           (mk_dadda_tree
              (init_tree empty_netlist [[PI 0; PI 1; PI 2; PI 3; PI 4]; [PI 5]]) 4 [3; 2])
           0).
  - reflexivity.
  - constructor.
  - vm_compute. lia.
Defined.

(** ** Rank structures that need no reduction *)

(** X7. When no rank is higher than 2 the loop of either reducer is not
    entered, whatever the number of turns allowed: both strategies are the
    finisher on the input as it is, and so agree. *)
Theorem low_structure_goes_to_finisher (tree_type : compressor_tree_type_e)
    (fuel : nat) (s : netlist_t) (ranks : ranks_t) :
  get_max_rank_size ranks ≤ 2 →
  implement_compressor_tree tree_type fuel s ranks = ranks_to_adder_chain s ranks.
Proof.
  intros Hm. destruct tree_type; simpl.
  - unfold implement_compressor_tree_wallace, wallace_reduce.
    assert (while_loop (λ t, bool_decide (2 < max_rank_size t)) wallace_stage fuel
              (init_tree s ranks) = Some (init_tree s ranks)) as ->; [|done].
    destruct fuel; simpl; by rewrite bool_decide_eq_false_2 by lia.
  - unfold implement_compressor_tree_dadda, init_dadda.
    assert (get_d_factors (max_rank_size (init_tree s ranks))
              (max_rank_size (init_tree s ranks)) 2 [] = Some (2, [])) as ->.
    { simpl. destruct (get_max_rank_size ranks) as [|[|[|m]]]; [done..|lia]. }
    simpl. unfold dadda_reduce.
    destruct fuel; simpl; by rewrite bool_decide_eq_false_2 by lia.
Qed.

Lemma low_structure_goes_to_finisher_witness :
  implement_compressor_tree DADDA 0 empty_netlist [[PI 0; PI 1]; [PI 2]]
  = ranks_to_adder_chain empty_netlist [[PI 0; PI 1]; [PI 2]].
Proof.
  apply (low_structure_goes_to_finisher DADDA 0 empty_netlist [[PI 0; PI 1]; [PI 2]]).
  vm_compute. lia.
Defined.

(** ** What one adder does to the rows *)

(** The rows after a full adder on the last three signals of rank [i]. *)
Definition rows_after_FA (i : nat) (a b c : npin_t) (r t0 t1 : rank_t) (st : rows_t)
    : rows_t :=
  let n := length (nodes (netlist st)) in
  mk_rows (<[i := r]> (ranks st))
    (<[i + 1 := OUT (n + 1) 0 :: t1]> (<[i := OUT n 0 :: t0]> (temp st)))
    (new_ranks_size st)
    (extend (netlist st) (FA_nodes n a b c)).

(** The rows after a half adder on the last two signals of rank [i]. *)
Definition rows_after_HA (i : nat) (a b : npin_t) (r t0 t1 : rank_t) (st : rows_t)
    : rows_t :=
  let n := length (nodes (netlist st)) in
  mk_rows (<[i := r]> (ranks st))
    (<[i + 1 := OUT (n + 1) 0 :: t1]> (<[i := OUT n 0 :: t0]> (temp st)))
    (new_ranks_size st)
    (extend (netlist st) (HA_nodes a b)).

Lemma reduce_with_FA_inv i st st' :
  reduce_with_FA i st = Some st' →
  ∃ a b c r t0 t1,
    ranks st !! i = Some (a :: b :: c :: r) ∧
    temp st !! i = Some t0 ∧ temp st !! (i + 1) = Some t1 ∧
    st' = rows_after_FA i a b c r t0 t1 st.
Proof.
  intros Hrun.
  destruct (ranks st !! i) as [r|] eqn:Hr;
    [|by unfold reduce_with_FA, pop_pin in Hrun; rewrite Hr in Hrun].
  pose proof (lookup_lt_Some _ _ _ Hr) as Hi.
  destruct r as [|a [|b [|c r]]].
  - unfold reduce_with_FA, pop_pin in Hrun. by rewrite Hr in Hrun.
  - unfold reduce_with_FA in Hrun. rewrite (pop_pin_cons _ _ _ _ Hr) in Hrun.
    simpl in Hrun. unfold pop_pin in Hrun.
    by rewrite list_lookup_insert_eq in Hrun by done.
  - unfold reduce_with_FA in Hrun. rewrite (pop_pin_cons _ _ _ _ Hr) in Hrun.
    simpl in Hrun.
    rewrite (pop_pin_cons _ _ b []) in Hrun by (by apply list_lookup_insert_eq).
    simpl in Hrun. unfold pop_pin in Hrun.
    by rewrite list_lookup_insert_eq in Hrun by (by rewrite length_insert).
  - unfold reduce_with_FA in Hrun. rewrite (pop_pin_cons _ _ _ _ Hr) in Hrun.
    simpl in Hrun.
    rewrite (pop_pin_cons _ _ b (c :: r)) in Hrun by (by apply list_lookup_insert_eq).
    simpl in Hrun.
    rewrite (pop_pin_cons _ _ c r) in Hrun
      by (apply list_lookup_insert_eq; by rewrite length_insert).
    simpl in Hrun. rewrite implement_FA_run in Hrun. simpl in Hrun.
    destruct (temp st !! i) as [t0|] eqn:Ht0;
      [|by unfold push_pin in Hrun; rewrite Ht0 in Hrun].
    rewrite (push_pin_Some _ _ _ _ Ht0) in Hrun. simpl in Hrun.
    destruct (temp st !! (i + 1)) as [t1|] eqn:Ht1.
    + rewrite (push_pin_Some _ _ _ t1) in Hrun
        by (by rewrite list_lookup_insert_ne by lia).
      simpl in Hrun. injection Hrun as <-.
      exists a, b, c, r, t0, t1. unfold rows_after_FA.
      by rewrite !list_insert_insert_eq.
    + unfold push_pin in Hrun.
      rewrite list_lookup_insert_ne in Hrun by lia. by rewrite Ht1 in Hrun.
Qed.

Lemma reduce_with_HA_inv i st st' :
  reduce_with_HA i st = Some st' →
  ∃ a b r t0 t1,
    ranks st !! i = Some (a :: b :: r) ∧
    temp st !! i = Some t0 ∧ temp st !! (i + 1) = Some t1 ∧
    st' = rows_after_HA i a b r t0 t1 st.
Proof.
  intros Hrun.
  destruct (ranks st !! i) as [r|] eqn:Hr;
    [|by unfold reduce_with_HA, pop_pin in Hrun; rewrite Hr in Hrun].
  pose proof (lookup_lt_Some _ _ _ Hr) as Hi.
  destruct r as [|a [|b r]].
  - unfold reduce_with_HA, pop_pin in Hrun. by rewrite Hr in Hrun.
  - unfold reduce_with_HA in Hrun. rewrite (pop_pin_cons _ _ _ _ Hr) in Hrun.
    simpl in Hrun. unfold pop_pin in Hrun.
    by rewrite list_lookup_insert_eq in Hrun by done.
  - unfold reduce_with_HA in Hrun. rewrite (pop_pin_cons _ _ _ _ Hr) in Hrun.
    simpl in Hrun.
    rewrite (pop_pin_cons _ _ b r) in Hrun by (by apply list_lookup_insert_eq).
    simpl in Hrun. rewrite implement_HA_run in Hrun. simpl in Hrun.
    destruct (temp st !! i) as [t0|] eqn:Ht0;
      [|by unfold push_pin in Hrun; rewrite Ht0 in Hrun].
    rewrite (push_pin_Some _ _ _ _ Ht0) in Hrun. simpl in Hrun.
    destruct (temp st !! (i + 1)) as [t1|] eqn:Ht1.
    + rewrite (push_pin_Some _ _ _ t1) in Hrun
        by (by rewrite list_lookup_insert_ne by lia).
      simpl in Hrun. injection Hrun as <-.
      exists a, b, r, t0, t1. unfold rows_after_HA.
      by rewrite !list_insert_insert_eq.
    + unfold push_pin in Hrun.
      rewrite list_lookup_insert_ne in Hrun by lia. by rewrite Ht1 in Hrun.
Qed.

(** ** Invariants of the rows that every adder keeps *)

Lemma for_loop_keeps {St : Type} (I : St → Prop) (body : nat → St → option St) :
  (∀ i s s', I s → body i s = Some s' → I s') →
  ∀ n i s s', I s → for_loop body i n s = Some s' → I s'.
Proof.
  intros Hbody. induction n as [|n IH]; intros i s s' HI Hrun; simpl in Hrun.
  - by injection Hrun as <-.
  - destruct (body i s) as [s1|] eqn:Hb; [|done]. simpl in Hrun.
    apply (IH (S i) s1); [|done]. by apply (Hbody i s).
Qed.

Lemma wallace_reduce_reaches fuel s ranks t :
  wallace_reduce fuel (init_tree s ranks) = Some t →
  ∃ n, reaches wallace_cond wallace_stage (init_tree s ranks) n t.
Proof.
  intros Hrun.
  destruct (wallace_loop_run s ranks) as (n & t' & Hr & _ & _ & Hsome & Hnone & _).
  exists n. destruct (le_lt_dec n fuel) as [Hle|Hlt].
  - rewrite (Hsome fuel Hle) in Hrun. by injection Hrun as <-.
  - by rewrite (Hnone fuel Hlt) in Hrun.
Qed.

Lemma dadda_reduce_reaches fuel s ranks t0 t :
  init_dadda s ranks = Some t0 →
  dadda_reduce fuel t0 = Some t →
  ∃ n, reaches dadda_cond dadda_stage t0 n t.
Proof.
  intros Hinit Hrun.
  destruct (dadda_loop_run s ranks)
    as (t1 & n & t' & Hinit1 & Hr & _ & _ & Hsome & Hnone & _).
  rewrite Hinit in Hinit1. injection Hinit1 as <-.
  exists n. destruct (le_lt_dec n fuel) as [Hle|Hlt].
  - rewrite (Hsome fuel Hle) in Hrun. by injection Hrun as <-.
  - by rewrite (Hnone fuel Hlt) in Hrun.
Qed.

Section RowsInvariant.
(** [I] is kept by a new empty row and by each adder; [T] is what it
    amounts to between two stages. *)
Variable I : rows_t → Prop.
Variable T : ranks_t → netlist_t → Prop.
Hypothesis I_new_row : ∀ k st, I st → I (new_row k st).
Hypothesis I_FA : ∀ i a b c r t0 t1 st,
  I st → ranks st !! i = Some (a :: b :: c :: r) →
  temp st !! i = Some t0 → temp st !! (i + 1) = Some t1 →
  I (rows_after_FA i a b c r t0 t1 st).
Hypothesis I_HA : ∀ i a b r t0 t1 st,
  I st → ranks st !! i = Some (a :: b :: r) →
  temp st !! i = Some t0 → temp st !! (i + 1) = Some t1 →
  I (rows_after_HA i a b r t0 t1 st).
Hypothesis I_init : ∀ rk nl, T rk nl → I (mk_rows rk [] 0 nl).
Hypothesis I_merge : ∀ st,
  length (ranks st) ≤ length (temp st) ≤ length (ranks st) + 1 →
  I st → T (merge_result (temp st) (ranks st)) (netlist st).

Lemma reduce_with_FA_keeps i st st' :
  I st → reduce_with_FA i st = Some st' → I st'.
Proof using All.
  intros HI Hrun.
  destruct (reduce_with_FA_inv i st st' Hrun)
    as (a & b & c & r & t0 & t1 & Hr & Ht0 & Ht1 & ->).
  by apply I_FA.
Qed.

Lemma reduce_with_HA_keeps i st st' :
  I st → reduce_with_HA i st = Some st' → I st'.
Proof using All.
  intros HI Hrun.
  destruct (reduce_with_HA_inv i st st' Hrun)
    as (a & b & r & t0 & t1 & Hr & Ht0 & Ht1 & ->).
  by apply I_HA.
Qed.

Lemma wallace_FA_loop_keeps fuel : ∀ i st rank_size cur first st' rs' cur' first',
  I st →
  wallace_FA_loop fuel i st rank_size cur first = Some (st', rs', cur', first') →
  I st'.
Proof using All.
  induction fuel as [|fuel IH]; intros i st rs cur first st' rs' cur' first' HI Hrun;
    simpl in Hrun; case_decide; try done.
  - by injection Hrun as <- _ _ _.
  - destruct (reduce_with_FA i st) as [st1|] eqn:Hfa; [|done]. simpl in Hrun.
    apply (IH _ _ _ _ _ _ _ _ _ (reduce_with_FA_keeps _ _ _ HI Hfa) Hrun).
  - by injection Hrun as <- _ _ _.
Qed.

Lemma wallace_rank_keeps target i w w' :
  I (w_rows w) → wallace_rank target i w = Some w' → I (w_rows w').
Proof using All.
  intros HI Hrun. unfold wallace_rank in Hrun.
  destruct (ranks (w_rows w) !! i) as [r|]; [|done]. simpl in Hrun.
  case_decide.
  - injection Hrun as <-. simpl. by apply I_new_row.
  - destruct (wallace_FA_loop _ _ _ _ _ _) as [[[[st1 rs1] cur1] first1]|] eqn:Hloop;
      [|done].
    simpl in Hrun.
    pose proof (wallace_FA_loop_keeps _ _ _ _ _ _ _ _ _ _
                  (I_new_row _ _ (I_new_row _ _ HI)) Hloop) as HI1.
    destruct (bool_decide (rs1 = 2) && _).
    + destruct (reduce_with_HA i st1) as [st2|] eqn:Hha; [|done]. simpl in Hrun.
      injection Hrun as <-. simpl. by apply (reduce_with_HA_keeps i st1).
    + by injection Hrun as <-.
Qed.

Lemma dadda_FA_loop_keeps fuel : ∀ d lcc i st rank_size cur st' rs' cur',
  I st →
  dadda_FA_loop fuel d lcc i st rank_size cur = Some (st', rs', cur') →
  I st'.
Proof using All.
  induction fuel as [|fuel IH]; intros d lcc i st rs cur st' rs' cur' HI Hrun;
    simpl in Hrun; destruct (bool_decide _ && bool_decide _); try done.
  - by injection Hrun as <- _ _.
  - destruct (reduce_with_FA i st) as [st1|] eqn:Hfa; [|done]. simpl in Hrun.
    apply (IH _ _ _ _ _ _ _ _ _ (reduce_with_FA_keeps _ _ _ HI Hfa) Hrun).
  - by injection Hrun as <- _ _.
Qed.

Lemma dadda_rank_keeps d i w w' :
  I (d_rows w) → dadda_rank d i w = Some w' → I (d_rows w').
Proof using All.
  intros HI Hrun. unfold dadda_rank in Hrun.
  destruct (ranks (d_rows w) !! i) as [r|]; [|done]. simpl in Hrun.
  case_decide.
  - injection Hrun as <-. simpl. by apply I_new_row.
  - destruct (dadda_FA_loop _ _ _ _ _ _ _) as [[[st1 rs1] cur1]|] eqn:Hloop; [|done].
    simpl in Hrun.
    pose proof (dadda_FA_loop_keeps _ _ _ _ _ _ _ _ _ _
                  (I_new_row _ _ (I_new_row _ _ HI)) Hloop) as HI1.
    destruct (bool_decide _ && bool_decide _).
    + destruct (reduce_with_HA i st1) as [st2|] eqn:Hha; [|done]. simpl in Hrun.
      injection Hrun as <-. simpl. by apply (reduce_with_HA_keeps i st1).
    + by injection Hrun as <-.
Qed.

Lemma wallace_stage_keeps (t t' : tree_t) :
  tree_ok t → 2 < max_rank_size t →
  T (t_ranks t) (t_netlist t) → wallace_stage t = Some t' →
  T (t_ranks t') (t_netlist t').
Proof using All.
  intros Hok Hm HT Hst.
  destruct (wallace_pass_run t Hok Hm) as (w & Hpass & Hinv).
  destruct (wallace_stage_shape t w Hok Hpass Hinv)
    as (t1 & Hst1 & Hrk & Hnl & _ & Hshape).
  rewrite Hst in Hst1. injection Hst1 as <-. rewrite Hrk, Hnl.
  apply I_merge; [done|].
  unfold wallace_pass in Hpass.
  refine (for_loop_keeps (λ w, I (w_rows w)) _ _ _ _ _ _ _ Hpass).
  - intros i w0 w1. apply wallace_rank_keeps.
  - simpl. by apply I_init.
Qed.

Lemma dadda_stage_keeps (t t' : dadda_tree_t) :
  dadda_ok t → 2 < max_rank_size (d_tree t) →
  T (t_ranks (d_tree t)) (t_netlist (d_tree t)) → dadda_stage t = Some t' →
  T (t_ranks (d_tree t')) (t_netlist (d_tree t')).
Proof using All.
  intros Hok Hm HT Hst.
  pose proof Hok as (Htok & Hsched & Hd). destruct (Hd Hm) as [_ Hdmax].
  destruct (dadda_pass_run t Htok (is_schedule_ge _ _ Hsched) Hdmax)
    as (w & Hpass & Hinv).
  destruct (dadda_stage_shape t w Hok Hm Hpass Hinv)
    as (t1 & Hst1 & Hrk & Hnl & _ & Hshape).
  rewrite Hst in Hst1. injection Hst1 as <-. rewrite Hrk, Hnl.
  apply I_merge; [done|].
  unfold dadda_pass in Hpass.
  refine (for_loop_keeps (λ w, I (d_rows w)) _ _ _ _ _ _ _ Hpass).
  - intros i w0 w1. apply dadda_rank_keeps.
  - simpl. by apply I_init.
Qed.

(** Whatever the strategy, [T] goes from the input to what the finisher
    is given. *)
Lemma reduce_ranks_keeps tree_type fuel s (ranks rk : ranks_t) nl :
  T ranks s → reduce_ranks tree_type fuel s ranks = Some (rk, nl) → T rk nl.
Proof using All.
  intros HT Hrun. destruct tree_type; simpl in Hrun.
  - destruct (wallace_reduce fuel (init_tree s ranks)) as [t|] eqn:Hred; [|done].
    injection Hrun as <- <-.
    destruct (wallace_reduce_reaches _ _ _ _ Hred) as [n Hr].
    clear Hred. induction Hr as [|n t t' Hr IH Hc Hst]; [done|].
    destruct (wallace_reaches_inv _ _ _ _ Hr) as (Hok & _).
    apply bool_decide_eq_true_1 in Hc.
    by apply (wallace_stage_keeps t t').
  - destruct (init_dadda s ranks) as [t0|] eqn:Hinit; [|done]. simpl in Hrun.
    destruct (dadda_reduce fuel t0) as [t|] eqn:Hred; [|done].
    injection Hrun as <- <-.
    destruct (dadda_reduce_reaches _ _ _ _ _ Hinit Hred) as [n Hr].
    clear Hred. induction Hr as [|n t t' Hr IH Hc Hst].
    + destruct (init_dadda_run s ranks) as (t1 & Hinit1 & _ & Htree & _).
      rewrite Hinit in Hinit1. injection Hinit1 as <-. by rewrite Htree.
    + destruct (dadda_reaches_inv _ _ _ _ _ Hinit Hr) as (Hok & _).
      apply bool_decide_eq_true_1 in Hc.
      by apply (dadda_stage_keeps t t').
Qed.
End RowsInvariant.

(** ** The netlists the reducers build *)

Section Built.
(** [P s p]: the signal [p] may be used in the netlist [s]. *)
Variable P : netlist_t → npin_t → Prop.
Hypothesis P_mono : ∀ s new p, P s p → P (extend s new) p.
Hypothesis P_fresh : ∀ s new j,
  j < length new → P (extend s new) (OUT (length (nodes s) + j) 0).

(** The netlists reached from [s0] by full and half adders on signals
    that may be used. *)
Inductive built_from (s0 : netlist_t) : netlist_t → Prop :=
| built_refl : built_from s0 s0
| built_FA s a b c :
    built_from s0 s → P s a → P s b → P s c →
    built_from s0 (extend s (FA_nodes (length (nodes s)) a b c))
| built_HA s a b :
    built_from s0 s → P s a → P s b →
    built_from s0 (extend s (HA_nodes a b)).

Lemma usable_mono s new (l : ranks_t) :
  Forall (Forall (P s)) l → Forall (Forall (P (extend s new))) l.
Proof using P_mono.
  intros H. eapply list.Forall_impl; [exact H|]. intros r Hr. simpl in *.
  eapply list.Forall_impl; [exact Hr|]. intros p. apply P_mono.
Qed.

Lemma reduce_ranks_built tree_type fuel s (ranks0 rk : ranks_t) nl :
  Forall (Forall (P s)) ranks0 →
  reduce_ranks tree_type fuel s ranks0 = Some (rk, nl) →
  built_from s nl ∧ Forall (Forall (P nl)) rk.
Proof using All.
  intros Hin Hrun.
  apply (reduce_ranks_keeps
           (λ st, built_from s (netlist st)
                  ∧ Forall (Forall (P (netlist st))) (ranks st)
                  ∧ Forall (Forall (P (netlist st))) (temp st))
           (λ rk nl, built_from s nl ∧ Forall (Forall (P nl)) rk))
    with (tree_type := tree_type) (fuel := fuel) (s := s) (ranks := ranks0).
  - intros k st (Hb & Hr & Ht). unfold new_row. case_decide; [|done]. simpl.
    split; [done|]. split; [done|]. apply list.Forall_app. split; [done|].
    by repeat constructor.
  - intros i a b c r t0 t1 st (Hb & Hr & Ht) Hri Ht0 Ht1.
    pose proof (Forall_lookup_1 _ _ _ _ Hr Hri) as Habc. simpl in Habc.
    inversion Habc as [|? ? Ha Hbc]; subst.
    inversion Hbc as [|? ? Hb' Hc]; subst.
    inversion Hc as [|? ? Hc' Hrest]; subst.
    unfold rows_after_FA. simpl. split; [by constructor|].
    split.
    + apply Forall_insert; [by apply usable_mono|].
      eapply list.Forall_impl; [exact Hrest|]. intros p. apply P_mono.
    + apply Forall_insert; [apply Forall_insert; [by apply usable_mono|]|].
      * constructor.
        -- rewrite <- (Nat.add_0_r (length _)). apply P_fresh. simpl. lia.
        -- pose proof (Forall_lookup_1 _ _ _ _ Ht Ht0) as H0. simpl in H0.
           eapply list.Forall_impl; [exact H0|]. intros p. apply P_mono.
      * constructor.
        -- apply P_fresh. simpl. lia.
        -- pose proof (Forall_lookup_1 _ _ _ _ Ht Ht1) as H1. simpl in H1.
           eapply list.Forall_impl; [exact H1|]. intros p. apply P_mono.
  - intros i a b r t0 t1 st (Hb & Hr & Ht) Hri Ht0 Ht1.
    pose proof (Forall_lookup_1 _ _ _ _ Hr Hri) as Hab. simpl in Hab.
    inversion Hab as [|? ? Ha Hb0]; subst.
    inversion Hb0 as [|? ? Hb' Hrest]; subst.
    unfold rows_after_HA. simpl. split; [by constructor|].
    split.
    + apply Forall_insert; [by apply usable_mono|].
      eapply list.Forall_impl; [exact Hrest|]. intros p. apply P_mono.
    + apply Forall_insert; [apply Forall_insert; [by apply usable_mono|]|].
      * constructor.
        -- rewrite <- (Nat.add_0_r (length _)). apply P_fresh. simpl. lia.
        -- pose proof (Forall_lookup_1 _ _ _ _ Ht Ht0) as H0. simpl in H0.
           eapply list.Forall_impl; [exact H0|]. intros p. apply P_mono.
      * constructor.
        -- apply P_fresh. simpl. lia.
        -- pose proof (Forall_lookup_1 _ _ _ _ Ht Ht1) as H1. simpl in H1.
           eapply list.Forall_impl; [exact H1|]. intros p. apply P_mono.
  - intros rk0 nl0 [Hb Hr]. simpl. split; [done|]. split; [done|]. constructor.
  - intros st Hshape (Hb & Hr & Ht). split; [done|].
    apply Forall_lookup_2. intros j r Hj.
    destruct (merge_result_lookup _ _ _ _ Hshape Hj)
      as [(t0 & r0 & Ht0 & Hr0 & ->)|(-> & Hr' & _)].
    + apply list.Forall_app. split.
      * apply (Forall_lookup_1 _ _ _ _ Ht Ht0).
      * apply (Forall_lookup_1 _ _ _ _ Hr Hr0).
    + apply (Forall_lookup_1 _ _ _ _ Ht Hr').
  - split; [constructor|done].
  - exact Hrun.
Qed.
End Built.

(** A gate as the cell builders leave it: not an adder, every input slot
    attached, its one output attached. *)
Definition wired_gate (nd : nnode_t) : bool :=
  match type nd with
  | ADD => false
  | _ => forallb (λ o : option npin_t, bool_decide (is_Some o)) (input_pins nd)
         && bool_decide (output_pins nd = [true])
  end.

(** What the adders add to a netlist: gates only, five for a full adder
    and two for a half adder, after the nodes that were there. *)
Lemma built_from_gates P s0 s :
  built_from P s0 s →
  ∃ gates fa ha,
    s = extend s0 gates ∧
    forallb wired_gate gates = true ∧
    length gates = 5 * fa + 2 * ha ∧
    count_FA s = count_FA s0 + fa ∧ count_HA s = count_HA s0 + ha.
Proof.
  induction 1 as [|s a b c _ (gates & fa & ha & -> & Hw & Hl & Hfa & Hha) _ _ _
                  |s a b _ (gates & fa & ha & -> & Hw & Hl & Hfa & Hha) _ _].
  - exists [], 0, 0. rewrite extend_nil. repeat split; lia.
  - exists (gates ++ FA_nodes (length (nodes (extend s0 gates))) a b c), (S fa), ha.
    rewrite extend_extend. split; [done|].
    split. { rewrite forallb_app, Hw. reflexivity. }
    split. { rewrite length_app. simpl. lia. }
    rewrite <- extend_extend, count_FA_extend, count_HA_extend, Hfa, Hha.
    split; simpl; lia.
  - exists (gates ++ HA_nodes a b), fa, (S ha).
    rewrite extend_extend. split; [done|].
    split. { rewrite forallb_app, Hw. reflexivity. }
    split. { rewrite length_app. simpl. lia. }
    rewrite <- extend_extend, count_FA_extend, count_HA_extend, Hfa, Hha.
    split; simpl; lia.
Qed.

(** X8. The netlist either strategy returns: the nodes it was given, as they
    were, then wired gates only, five per full adder and two per half
    adder, then the one adder of the carry chain if there is a chain; the
    registry of adders gets that adder and nothing else. *)
Theorem compressor_tree_netlist (tree_type : compressor_tree_type_e)
    (s : netlist_t) (ranks : ranks_t) (fuel : nat) :
  enough_fuel ranks ≤ fuel →
  ∃ out s' gates fa ha,
    implement_compressor_tree tree_type fuel s ranks = Some (out, s') ∧
    forallb wired_gate gates = true ∧
    length gates = 5 * fa + 2 * ha ∧
    count_FA s' = count_FA s + fa ∧ count_HA s' = count_HA s + ha ∧
    ((nodes s' = nodes s ++ gates ∧ add_list s' = add_list s)
     ∨ (∃ nd, type nd = ADD ∧ nodes s' = nodes s ++ gates ++ [nd] ∧
              add_list s' = add_list s ++ [length (nodes s) + length gates])).
Proof.
  intros Hfuel.
  destruct (reduce_ranks_run tree_type s ranks fuel Hfuel) as (rk & nl & Hred & _).
  destruct (reduce_ranks_built (λ _ _, True) ltac:(done) ltac:(done)
              tree_type fuel s ranks rk nl) as [Hb _]; [|done|].
  { apply Forall_lookup_2. intros i r _. apply Forall_lookup_2. done. }
  destruct (built_from_gates _ _ _ Hb) as (gates & fa & ha & -> & Hw & Hl & Hfa & Hha).
  rewrite implement_compressor_tree_reduce, Hred. simpl.
  destruct (ranks_to_adder_chain_run (extend s gates) rk)
    as [[_ Hfin]|(k & _ & Hfin)]; rewrite Hfin.
  - eexists _, _, gates, fa, ha. split; [done|]. split; [done|]. split; [done|].
    split; [done|]. split; [done|]. by left.
  - eexists _, _, gates, fa, ha. split; [done|]. split; [done|]. split; [done|].
    split.
    { rewrite <- Hfa. unfold count_FA, chain_netlist. simpl.
      rewrite list.filter_app, length_app. simpl. lia. }
    split.
    { rewrite <- Hha. unfold count_HA, chain_netlist. simpl.
      rewrite list.filter_app, length_app. simpl. lia. }
    right. eexists. split; [|split];
      [|simpl; rewrite <- app_assoc; reflexivity|simpl; by rewrite length_app].
    reflexivity.
Qed.

Lemma compressor_tree_netlist_witness :
  ∃ out s' gates fa ha,
    implement_compressor_tree WALLACE 6 empty_netlist
      [[PI 0; PI 1; PI 2; PI 3]] = Some (out, s') ∧
    forallb wired_gate gates = true ∧
    length gates = 5 * fa + 2 * ha ∧
    count_FA s' = count_FA empty_netlist + fa ∧
    count_HA s' = count_HA empty_netlist + ha ∧
    ((nodes s' = nodes empty_netlist ++ gates ∧ add_list s' = add_list empty_netlist)
     ∨ (∃ nd, type nd = ADD ∧ nodes s' = nodes empty_netlist ++ gates ++ [nd] ∧
              add_list s' = add_list empty_netlist
                            ++ [length (nodes empty_netlist) + length gates])).
Proof.
  apply (compressor_tree_netlist WALLACE empty_netlist [[PI 0; PI 1; PI 2; PI 3]] 6).
  vm_compute. lia.
Defined.

(** ** Netlists that have a valuation *)

(** Every attached input of every node is a signal that exists. *)
Definition closed (s : netlist_t) : Prop :=
  ∀ node nd k p,
    nodes s !! node = Some nd → input_pins nd !! k = Some (Some p) → known_pin s p.

Lemma known_pin_more s s' p :
  length (nodes s) ≤ length (nodes s') → known_pin s p → known_pin s' p.
Proof. destruct p; simpl; [done|done|lia]. Qed.

Lemma known_pin_extend s new p : known_pin s p → known_pin (extend s new) p.
Proof. apply known_pin_more. unfold extend. simpl. rewrite length_app. lia. Qed.

Lemma known_pin_fresh s new j :
  j < length new → known_pin (extend s new) (OUT (length (nodes s) + j) 0).
Proof. intros Hj. simpl. rewrite length_app. lia. Qed.

(** The valuation [v] with the outputs of the nodes from handle [n] on
    read from [vals] instead. *)
Definition block_valuation (n : nat) (vals : list (nat → bool)) (v : npin_t → bool)
    : npin_t → bool :=
  λ p, match p with
       | OUT m idx =>
           if decide (n ≤ m) then
             match vals !! (m - n) with
             | Some f => f idx
             | None => v p
             end
           else v p
       | _ => v p
       end.

Lemma block_valuation_old s vals v p :
  known_pin s p → block_valuation (length (nodes s)) vals v p = v p.
Proof.
  destruct p as [| |m idx]; simpl; [done|done|]. intros Hm.
  by rewrite decide_False by lia.
Qed.

Lemma block_valuation_new n vals v j f idx :
  vals !! j = Some f → block_valuation n vals v (OUT (n + j) idx) = f idx.
Proof.
  intros Hf. simpl. rewrite decide_True by lia.
  replace (n + j - n) with j by lia. by rewrite Hf.
Qed.

Lemma node_inputs_old floating s vals v node nd :
  (∀ k p, input_pins nd !! k = Some (Some p) → known_pin s p) →
  node_inputs floating (block_valuation (length (nodes s)) vals v) node nd
  = node_inputs floating v node nd.
Proof.
  intros Hin. unfold node_inputs. apply imap_ext. intros k o Ho.
  destruct o as [p|]; simpl; [|done].
  apply (block_valuation_old s). by apply (Hin k).
Qed.

Lemma node_inputs_gate floating v node op ins :
  node_inputs floating v node (gate op ins) = v <$> ins.
Proof.
  unfold node_inputs, gate. simpl. apply list_eq. intros k.
  rewrite list_lookup_imap, !list_lookup_fmap. by destruct (ins !! k).
Qed.

(** Nodes appended to a closed netlist: if [vals] gives each of them what
    it computes, the valuation goes over to the longer netlist. *)
Lemma consistent_block env floating s s' new vals v :
  nodes s' = nodes s ++ new →
  closed s → consistent env floating s v →
  length vals = length new →
  (∀ j nd f idx, new !! j = Some nd → vals !! j = Some f →
     f idx = node_value nd
               (node_inputs floating (block_valuation (length (nodes s)) vals v)
                  (length (nodes s) + j) nd) idx) →
  consistent env floating s' (block_valuation (length (nodes s)) vals v).
Proof.
  intros Hn Hcl (Hpi & Hz & Hnode) Hlen Hvals.
  split; [done|]. split; [done|].
  intros node nd idx Hnd. rewrite Hn in Hnd.
  apply lookup_app_Some in Hnd as [Hold|[Hge Hnew]].
  - rewrite (block_valuation_old s) by (simpl; by apply lookup_lt_Some in Hold).
    rewrite (node_inputs_old floating s) by (intros k p; by apply (Hcl node nd)).
    by apply Hnode.
  - destruct (lookup_lt_is_Some_2 vals (node - length (nodes s))) as [f Hf].
    { rewrite Hlen. by apply lookup_lt_Some in Hnew. }
    replace node with (length (nodes s) + (node - length (nodes s))) by lia.
    rewrite (block_valuation_new _ _ _ _ f) by done.
    by apply Hvals.
Qed.

Lemma closed_more s s' new :
  nodes s' = nodes s ++ new →
  closed s →
  (∀ nd k p, nd ∈ new → input_pins nd !! k = Some (Some p) → known_pin s' p) →
  closed s'.
Proof.
  intros Hn Hcl Hnew node nd k p Hnd Hp. rewrite Hn in Hnd.
  apply lookup_app_Some in Hnd as [Hold|[_ Hnd]].
  - apply (known_pin_more s); [rewrite Hn, length_app; lia|].
    by apply (Hcl node nd k).
  - apply (Hnew nd k); [|done]. apply list_elem_of_lookup. eauto.
Qed.

Lemma gate_input op ins k p :
  input_pins (gate op ins) !! k = Some (Some p) → p ∈ ins.
Proof.
  unfold gate. simpl. rewrite list_lookup_fmap. intros H.
  destruct (ins !! k) as [q|] eqn:E; [|done]. injection H as <-.
  apply list_elem_of_lookup. eauto.
Qed.

Local Arguments block_valuation : simpl never.

(** What a full adder and a half adder compute, gate by gate. *)
Definition FA_values (x y z : bool) : list (nat → bool) :=
  [ λ _, xorb (xorb x y) z;
    λ _, (x && y) || (x && z) || (y && z);
    λ _, x && y; λ _, x && z; λ _, y && z ].

Definition HA_values (x y : bool) : list (nat → bool) :=
  [ λ _, xorb x y; λ _, x && y ].

Lemma FA_has_valuation env floating s a b c v :
  closed s → consistent env floating s v →
  known_pin s a → known_pin s b → known_pin s c →
  let s' := extend s (FA_nodes (length (nodes s)) a b c) in
  closed s' ∧
  consistent env floating s'
    (block_valuation (length (nodes s)) (FA_values (v a) (v b) (v c)) v).
Proof.
  intros Hcl Hc Ha Hb Hc' s'. split.
  - apply (closed_more s s' (FA_nodes (length (nodes s)) a b c)); [done|done|].
    intros nd k p Hnd Hp. unfold FA_nodes in Hnd.
    rewrite !elem_of_cons, elem_of_nil in Hnd.
    destruct Hnd as [->|[->|[->|[->|[->|[]]]]]]; apply gate_input in Hp;
      rewrite !elem_of_cons, elem_of_nil in Hp;
      repeat (destruct Hp as [->|Hp]); try done;
      try (by apply known_pin_extend);
      simpl; rewrite length_app; simpl; lia.
  - apply (consistent_block env floating s s' (FA_nodes (length (nodes s)) a b c));
      [done|done|done|done|].
    intros j nd f idx Hnd Hf.
    destruct j as [|[|[|[|[|j]]]]]; simpl in Hnd, Hf; try done;
      injection Hnd as <-; injection Hf as <-;
      rewrite node_inputs_gate; unfold node_value; simpl;
      rewrite ?(block_valuation_old s) by done;
      rewrite ?(block_valuation_new _ (FA_values (v a) (v b) (v c)) v 2 _ 0 eq_refl),
        ?(block_valuation_new _ (FA_values (v a) (v b) (v c)) v 3 _ 0 eq_refl),
        ?(block_valuation_new _ (FA_values (v a) (v b) (v c)) v 4 _ 0 eq_refl);
      destruct (v a), (v b), (v c); reflexivity.
Qed.

Lemma HA_has_valuation env floating s a b v :
  closed s → consistent env floating s v →
  known_pin s a → known_pin s b →
  let s' := extend s (HA_nodes a b) in
  closed s' ∧
  consistent env floating s'
    (block_valuation (length (nodes s)) (HA_values (v a) (v b)) v).
Proof.
  intros Hcl Hc Ha Hb s'. split.
  - apply (closed_more s s' (HA_nodes a b)); [done|done|].
    intros nd k p Hnd Hp. unfold HA_nodes in Hnd.
    rewrite !elem_of_cons, elem_of_nil in Hnd.
    destruct Hnd as [->|[->|[]]]; apply gate_input in Hp;
      rewrite !elem_of_cons, elem_of_nil in Hp;
      repeat (destruct Hp as [->|Hp]); try done;
      by apply known_pin_extend.
  - apply (consistent_block env floating s s' (HA_nodes a b));
      [done|done|done|done|].
    intros j nd f idx Hnd Hf.
    destruct j as [|[|j]]; simpl in Hnd, Hf; try done;
      injection Hnd as <-; injection Hf as <-;
      rewrite node_inputs_gate; unfold node_value; simpl;
      rewrite ?(block_valuation_old s) by done;
      destruct (v a), (v b); reflexivity.
Qed.

(** The adders never close a loop: a valuation of the netlist they start
    from goes over to the netlist they build. *)
Lemma built_from_valuation env floating s0 s v0 :
  built_from known_pin s0 s →
  closed s0 → consistent env floating s0 v0 →
  closed s ∧ length (nodes s0) ≤ length (nodes s) ∧
  ∃ v, consistent env floating s v ∧ ∀ p, known_pin s0 p → v p = v0 p.
Proof.
  intros Hb Hcl0 Hc0.
  induction Hb as [|s a b c _ (Hcl & Hlen & v & Hc & Hv) Ha Hb' Hc'
                   |s a b _ (Hcl & Hlen & v & Hc & Hv) Ha Hb'].
  - split; [done|]. split; [done|]. by exists v0.
  - destruct (FA_has_valuation env floating s a b c v Hcl Hc Ha Hb' Hc') as [Hcl' Hcs].
    split; [done|]. split. { simpl. rewrite length_app. lia. }
    eexists. split; [exact Hcs|]. intros p Hp.
    rewrite (block_valuation_old s) by (by apply (known_pin_more s0)). by apply Hv.
  - destruct (HA_has_valuation env floating s a b v Hcl Hc Ha Hb') as [Hcl' Hcs].
    split; [done|]. split. { simpl. rewrite length_app. lia. }
    eexists. split; [exact Hcs|]. intros p Hp.
    rewrite (block_valuation_old s) by (by apply (known_pin_more s0)). by apply Hv.
Qed.

Lemma chain_adder_input w (rows : ranks_t) carry_out k p :
  input_pins (chain_adder w rows carry_out) !! k = Some (Some p) →
  p = ZERO_PIN ∨ ∃ r, r ∈ rows ∧ p ∈ r.
Proof.
  unfold chain_adder. simpl. intros H.
  apply lookup_app_Some in H as [H|[_ H]]; rewrite list_lookup_fmap in H;
    destruct (rows !! _) as [r|] eqn:E; try done; simpl in H;
    apply (list_elem_of_lookup_2 rows) in E.
  - destruct r as [|q r]; [done|]. injection H as <-.
    right. exists (q :: r). split; [done|]. apply list_elem_of_here.
  - destruct r as [|q [|q' r]]; [done| |].
    + injection H as <-. by left.
    + injection H as <-. right. exists (q :: q' :: r). split; [done|].
      apply list_elem_of_further, list_elem_of_here.
Qed.

(** The finisher does not close a loop either. *)
Lemma finisher_has_valuation env floating nl (rk : ranks_t) out s' v :
  closed nl → Forall (Forall (known_pin nl)) rk →
  consistent env floating nl v →
  ranks_to_adder_chain nl rk = Some (out, s') →
  closed s' ∧ Forall (known_pin s') out ∧
  ∃ v', consistent env floating s' v' ∧ ∀ p, known_pin nl p → v' p = v p.
Proof.
  intros Hcl Hknown Hc Hfin.
  assert (Hpass : ∀ s1 (l : ranks_t), Forall (Forall (known_pin s1)) l →
                    Forall (known_pin s1) (pass_pin <$> l)).
  { intros s1 l Hl. apply Forall_fmap. eapply list.Forall_impl; [exact Hl|].
    intros r Hr. simpl. destruct r as [|p r]; [done|]. by inversion Hr. }
  destruct (ranks_to_adder_chain_run nl rk) as [[_ Hrun]|(k & _ & Hrun)];
    rewrite Hfin in Hrun; injection Hrun as -> ->.
  - split; [done|]. split; [by apply Hpass|]. by exists v.
  - set (adder := chain_adder (length rk - k) (drop k rk) true).
    assert (Hin : ∀ j p, input_pins adder !! j = Some (Some p) → known_pin nl p).
    { intros j p Hp. apply chain_adder_input in Hp as [->|(r & Hr & Hp)]; [done|].
      apply list_elem_of_lookup in Hr as [i Hr]. rewrite lookup_drop in Hr.
      pose proof (Forall_lookup_1 _ _ _ _ Hknown Hr) as Hkr. simpl in Hkr.
      apply list_elem_of_lookup in Hp as [i' Hp].
      apply (Forall_lookup_1 _ _ _ _ Hkr Hp). }
    split; [|split].
    + apply (closed_more nl _ [adder]); [done|done|].
      intros nd j p Hnd Hp. apply list_elem_of_singleton in Hnd. subst nd.
      apply (known_pin_more nl); [simpl; rewrite length_app; lia|].
      by apply (Hin j).
    + apply list.Forall_app. split; [|apply list.Forall_app; split].
      * apply Hpass. apply Forall_take.
        eapply list.Forall_impl; [exact Hknown|]. intros r Hr. simpl.
        eapply list.Forall_impl; [exact Hr|]. intros p.
        apply known_pin_more. simpl. rewrite length_app. lia.
      * apply Forall_lookup_2. intros j p Hp.
        rewrite list_lookup_imap in Hp.
        destruct (drop k rk !! j) as [r|]; [|done]. injection Hp as <-.
        destruct r; simpl; [done|]. rewrite length_app. simpl. lia.
      * constructor; [|constructor]. simpl. rewrite length_app. simpl. lia.
    + exists (block_valuation (length (nodes nl))
                [λ idx, node_value adder
                          (node_inputs floating v (length (nodes nl)) adder) idx] v).
      split.
      * apply (consistent_block env floating nl _ [adder]); [done|done|done|done|].
        intros j nd f idx Hnd Hf. destruct j as [|j]; [|done].
        injection Hnd as <-. injection Hf as <-.
        rewrite (node_inputs_old floating nl) by done.
        by rewrite Nat.add_0_r.
      * intros p Hp. by apply (block_valuation_old nl).
Qed.

(** X9. End to end, from a netlist that has a valuation: the netlist returned
    has one too, that reads the signals that were there as before (the
    function closes no loop, attaches no input to a signal that does not
    exist and returns no such signal); and
    when the input has no empty rank from its first rank of two signals or
    more on, the output sequence is worth under it what the input is worth
    under the valuation given. *)
Theorem compressor_tree_has_valuation (tree_type : compressor_tree_type_e)
    (s : netlist_t) (ranks : ranks_t) (fuel : nat)
    (env : nat → bool) (floating : nat → nat → bool) (v0 : npin_t → bool) :
  closed s → Forall (Forall (known_pin s)) ranks →
  consistent env floating s v0 →
  enough_fuel ranks ≤ fuel →
  ∃ out s' v,
    implement_compressor_tree tree_type fuel s ranks = Some (out, s') ∧
    closed s' ∧ Forall (known_pin s') out ∧
    consistent env floating s' v ∧
    (∀ p, known_pin s p → v p = v0 p) ∧
    (chain_is_full ranks → output_value v out = ranks_value v0 ranks).
Proof.
  intros Hcl Hknown Hc0 Hfuel.
  destruct (reduce_ranks_run tree_type s ranks fuel Hfuel)
    as (rk & nl & Hred & Hh & _ & Hval & Hkept).
  destruct (reduce_ranks_built known_pin known_pin_extend known_pin_fresh
              tree_type fuel s ranks rk nl Hknown Hred) as [Hb Hrk].
  destruct (built_from_valuation env floating s nl v0 Hb Hcl Hc0)
    as (Hcl' & Hlen & v1 & Hc1 & Hv1).
  assert (∃ out s', ranks_to_adder_chain nl rk = Some (out, s')) as (out & s' & Hfin).
  { destruct (ranks_to_adder_chain_run nl rk) as [[_ H]|(k & _ & H)]; eauto. }
  destruct (finisher_has_valuation env floating nl rk out s' v1 Hcl' Hrk Hc1 Hfin)
    as (Hcl'' & Hout & v & Hc & Hv).
  assert (Hrun : implement_compressor_tree tree_type fuel s ranks = Some (out, s')).
  { by rewrite implement_compressor_tree_reduce, Hred. }
  assert (Hagree : ∀ p, known_pin s p → v p = v0 p).
  { intros p Hp. rewrite Hv by (by apply (known_pin_more s)). by apply Hv1. }
  exists out, s', v. split; [done|]. split; [done|]. split; [done|].
  split; [done|]. split; [done|]. intros Hfull.
  pose proof (chain_is_full_kept ranks rk Hfull Hkept) as Hfull'.
  rewrite (ranks_to_adder_chain_value env floating nl rk out s' v Hh Hfull' Hfin Hc).
  rewrite (Hval env floating v)
    by (eapply consistent_prefix; [|exact Hc]; by eapply ranks_to_adder_chain_extends).
  apply ranks_value_ext.
  intros r p Hr Hp. apply Hagree.
  apply list_elem_of_lookup in Hr as [i Hr]. apply list_elem_of_lookup in Hp as [j Hp].
  pose proof (Forall_lookup_1 _ _ _ _ Hknown Hr) as Hkr. simpl in Hkr.
  apply (Forall_lookup_1 _ _ _ _ Hkr Hp).
Qed.

Lemma compressor_tree_has_valuation_witness :
  let env := λ _ : nat, true in
  let floating := λ _ _ : nat, false in
  let v0 := λ p, match p with PI _ => true | _ => false end in
  let ranks := [[PI 0; PI 1; PI 2]; [PI 3]] in
  ∃ out s' v,
    implement_compressor_tree DADDA 6 empty_netlist ranks = Some (out, s') ∧
    closed s' ∧ Forall (known_pin s') out ∧
    consistent env floating s' v ∧
    (∀ p, known_pin empty_netlist p → v p = v0 p) ∧
    (chain_is_full ranks → output_value v out = ranks_value v0 ranks).
Proof.
  intros env floating v0 ranks.
  apply (compressor_tree_has_valuation DADDA empty_netlist ranks 6 env floating v0).
  - intros node nd k p Hnd. discriminate Hnd.
  - repeat constructor.
  - split; [done|]. split; [done|]. intros node nd idx Hnd. discriminate Hnd.
  - vm_compute. lia.
Defined.

(** ** Counting signals *)

(** The number of signals in a rank structure. *)
Definition total_pins (rk : ranks_t) : nat := sum_list_with length rk.

Lemma total_pins_app (l1 l2 : ranks_t) :
  total_pins (l1 ++ l2) = total_pins l1 + total_pins l2.
Proof. apply sum_list_with_app. Qed.

Lemma total_pins_insert (l : ranks_t) i r r' :
  l !! i = Some r →
  total_pins (<[i := r']> l) + length r = total_pins l + length r'.
Proof.
  revert i. induction l as [|x l IH]; intros [|i] Hl; simpl in *; try done.
  - injection Hl as ->. unfold total_pins. simpl. lia.
  - specialize (IH i Hl). unfold total_pins in *. simpl. lia.
Qed.

Lemma total_pins_merged (temp ranks : ranks_t) :
  length temp = length ranks →
  total_pins (merged temp ranks) = total_pins temp + total_pins ranks.
Proof.
  revert ranks. induction temp as [|t temp IH]; intros [|r ranks] H; simpl in *;
    try done.
  specialize (IH ranks ltac:(lia)). unfold total_pins in *. simpl.
  rewrite IH, length_app. lia.
Qed.

Lemma total_pins_merge_result (temp ranks : ranks_t) :
  length ranks ≤ length temp ≤ length ranks + 1 →
  total_pins (merge_result temp ranks) = total_pins ranks + total_pins temp.
Proof.
  intros Hlen. unfold merge_result.
  rewrite total_pins_app, total_pins_merged by (rewrite length_take; lia).
  rewrite <- (take_drop (length ranks) temp) at 3.
  rewrite total_pins_app.
  assert (total_pins (extra_row temp (length ranks))
          = total_pins (drop (length ranks) temp)) as ->; [|lia].
  unfold extra_row.
  destruct (temp !! length ranks) as [t|] eqn:Ht.
  - rewrite (drop_S _ _ _ Ht). rewrite drop_ge by lia.
    case_decide; [done|]. destruct t; [done|simpl in *; lia].
  - apply lookup_ge_None_1 in Ht. by rewrite drop_ge by lia.
Qed.

(** A full adder takes three signals and gives back two, a half adder
    takes two and gives back two: signals and full adders together stay
    as many as they were. *)
Lemma reduce_ranks_pins tree_type fuel s (ranks0 rk : ranks_t) nl :
  reduce_ranks tree_type fuel s ranks0 = Some (rk, nl) →
  total_pins rk + count_FA nl = total_pins ranks0 + count_FA s.
Proof.
  intros Hrun.
  apply (reduce_ranks_keeps
           (λ st, total_pins (ranks st) + total_pins (temp st) + count_FA (netlist st)
                  = total_pins ranks0 + count_FA s)
           (λ rk nl, total_pins rk + count_FA nl = total_pins ranks0 + count_FA s))
    with (tree_type := tree_type) (fuel := fuel) (s := s) (ranks := ranks0).
  - intros k st HI. unfold new_row. case_decide; [|done]. simpl.
    rewrite total_pins_app. unfold total_pins at 3. simpl. lia.
  - intros i a b c r t0 t1 st HI Hr Ht0 Ht1. unfold rows_after_FA. simpl.
    pose proof (total_pins_insert (ranks st) i _ r Hr) as H1.
    pose proof (total_pins_insert (temp st) i _
                  (OUT (length (nodes (netlist st))) 0 :: t0) Ht0) as H2.
    assert (Ht1' : <[i := OUT (length (nodes (netlist st))) 0 :: t0]> (temp st)
                   !! (i + 1) = Some t1) by (by rewrite list_lookup_insert_ne by lia).
    pose proof (total_pins_insert _ (i + 1) _
                  (OUT (length (nodes (netlist st)) + 1) 0 :: t1) Ht1') as H3.
    rewrite count_FA_extend. simpl in *. lia.
  - intros i a b r t0 t1 st HI Hr Ht0 Ht1. unfold rows_after_HA. simpl.
    pose proof (total_pins_insert (ranks st) i _ r Hr) as H1.
    pose proof (total_pins_insert (temp st) i _
                  (OUT (length (nodes (netlist st))) 0 :: t0) Ht0) as H2.
    assert (Ht1' : <[i := OUT (length (nodes (netlist st))) 0 :: t0]> (temp st)
                   !! (i + 1) = Some t1) by (by rewrite list_lookup_insert_ne by lia).
    pose proof (total_pins_insert _ (i + 1) _
                  (OUT (length (nodes (netlist st)) + 1) 0 :: t1) Ht1') as H3.
    rewrite count_FA_extend. simpl in *. lia.
  - intros rk0 nl0 HT. simpl. change (total_pins []) with 0. lia.
  - intros st Hshape HI. rewrite total_pins_merge_result by done. lia.
  - done.
  - exact Hrun.
Qed.

(** X10. Each full adder removes one signal and each half adder none: when
    the loop of either reducer ends, the signals left and the full adders
    made are together as many as the signals of the input. *)
Theorem full_adders_remove_signals (s : netlist_t) (ranks : ranks_t) :
  (∃ t, wallace_reduce (enough_fuel ranks) (init_tree s ranks) = Some t ∧
        total_pins (t_ranks t) + count_FA (t_netlist t)
        = total_pins ranks + count_FA s) ∧
  (∃ t0 t, init_dadda s ranks = Some t0 ∧
           dadda_reduce (enough_fuel ranks) t0 = Some t ∧
           total_pins (t_ranks (d_tree t)) + count_FA (t_netlist (d_tree t))
           = total_pins ranks + count_FA s).
Proof.
  split.
  - destruct (wallace_loop_run s ranks) as (n & t & _ & _ & _ & Hrun & _ & Hn).
    specialize (Hrun (enough_fuel ranks) Hn).
    exists t. split; [done|].
    pose proof (reduce_ranks_pins WALLACE (enough_fuel ranks) s ranks
                  (t_ranks t) (t_netlist t)) as H.
    simpl in H. rewrite Hrun in H. specialize (H eq_refl). lia.
  - destruct (dadda_loop_run s ranks)
      as (t0 & n & t & Hinit & _ & _ & _ & Hrun & _ & _ & Hn).
    specialize (Hrun (enough_fuel ranks) Hn).
    exists t0, t. split; [done|]. split; [done|].
    pose proof (reduce_ranks_pins DADDA (enough_fuel ranks) s ranks
                  (t_ranks (d_tree t)) (t_netlist (d_tree t))) as H.
    simpl in H. rewrite Hinit in H. simpl in H. rewrite Hrun in H.
    specialize (H eq_refl). lia.
Qed.

(** ** The adders of a Wallace stage *)

(** X11. A Wallace stage makes a full adder for every three signals of every
    rank, and at most one half adder on a rank (never one on a rank whose
    height does not leave two signals after the full adders). *)
Theorem wallace_stage_adders (s : netlist_t) (ranks0 : ranks_t) (n : nat) (t : tree_t) :
  reaches wallace_cond wallace_stage (init_tree s ranks0) n t →
  2 < get_max_rank_size (t_ranks t) →
  ∃ t', wallace_stage t = Some t' ∧
        count_FA (t_netlist t')
        = count_FA (t_netlist t) + sum_list_with (λ r, length r / 3) (t_ranks t) ∧
        count_HA (t_netlist t')
        ≤ count_HA (t_netlist t)
          + length (filter (λ r, length r `mod` 3 = 2) (t_ranks t)).
Proof.
  intros Hr Hm.
  destruct (wallace_reaches_inv _ _ _ _ Hr) as (Hok & _).
  pose proof Hok as [_ Hmax]. rewrite <- Hmax in Hm.
  destruct (wallace_pass_ind t
              (λ i w,
                 count_FA (netlist (w_rows w))
                 = count_FA (t_netlist t)
                   + sum_list_with (λ r, length r / 3) (take i (t_ranks t))
                 ∧ count_HA (netlist (w_rows w))
                   ≤ count_HA (t_netlist t)
                     + length (filter (λ r, length r `mod` 3 = 2) (take i (t_ranks t))))
              Hok Hm)
    as (w & Hpass & Hinv & Hfa & Hha).
  { simpl. lia. }
  { intros i w w' r f h Hr0 Hri Hat [Hfa Hha] Hrun Hstep Hdec.
    destruct Hstep as (_ & _ & _ & _ & _ & _ & _ & _ & _ & Hf & Hh & _).
    rewrite (take_S_r _ _ _ Hr0), sum_list_with_app, list.filter_app, length_app.
    rewrite filter_cons, filter_nil. simpl.
    unfold wallace_decides in Hdec.
    assert (f = length r / 3 ∧ (h = 0 ∨ h = 1 ∧ length r `mod` 3 = 2)) as [Hfd Hhd].
    { divmod (length r) 3. case_decide; [lia|]. lia. }
    split; [lia|].
    destruct Hhd as [->|[-> Hmod]]; [lia|].
    rewrite decide_True by done. simpl. lia. }
  destruct (wallace_stage_shape t w Hok Hpass Hinv) as (t' & Hst & _ & Hnl & _).
  exists t'. split; [done|]. rewrite Hnl.
  rewrite take_ge in Hfa, Hha by lia. done.
Qed.

Lemma wallace_stage_adders_witness :
  let t := init_tree empty_netlist [[PI 0; PI 1; PI 2; PI 3; PI 4]; [PI 5; PI 6; PI 7]] in
  ∃ t', wallace_stage t = Some t' ∧
        count_FA (t_netlist t')
        = count_FA (t_netlist t) + sum_list_with (λ r, length r / 3) (t_ranks t) ∧
        count_HA (t_netlist t')
        ≤ count_HA (t_netlist t)
          + length (filter (λ r, length r `mod` 3 = 2) (t_ranks t)).
Proof.
  intros t.
  apply (wallace_stage_adders empty_netlist
           [[PI 0; PI 1; PI 2; PI 3; PI 4]; [PI 5; PI 6; PI 7]] 0 t).
  - constructor.
  - vm_compute. lia.
Defined.

(** ** The number of ranks, and of output signals *)

Lemma length_merge_result (temp ranks : ranks_t) :
  length ranks ≤ length temp ≤ length ranks + 1 →
  length ranks ≤ length (merge_result temp ranks) ≤ length ranks + 1.
Proof.
  intros Hshape. unfold merge_result.
  rewrite length_app, length_merged_take by lia.
  unfold extra_row. destruct (temp !! length ranks); [case_decide|]; simpl; lia.
Qed.

(** A stage keeps every rank and adds one at most. *)
Lemma wallace_reaches_length s (ranks0 : ranks_t) n t :
  reaches wallace_cond wallace_stage (init_tree s ranks0) n t →
  length ranks0 ≤ length (t_ranks t) ≤ length ranks0 + n.
Proof.
  intros Hr. induction Hr as [|n t t' Hr IH Hc Hst]; [simpl; lia|].
  destruct (wallace_reaches_inv _ _ _ _ Hr) as (Hok & _).
  apply bool_decide_eq_true_1 in Hc.
  destruct (wallace_pass_run t Hok Hc) as (w & Hpass & Hinv).
  destruct (wallace_stage_shape t w Hok Hpass Hinv)
    as (t1 & Hst1 & Hrk & _ & Hlen & Hshape).
  rewrite Hst in Hst1. injection Hst1 as <-. rewrite Hrk.
  pose proof (length_merge_result _ _ Hshape). lia.
Qed.

Lemma dadda_reaches_length s (ranks0 : ranks_t) t0 n t :
  init_dadda s ranks0 = Some t0 →
  reaches dadda_cond dadda_stage t0 n t →
  length ranks0 ≤ length (t_ranks (d_tree t)) ≤ length ranks0 + n.
Proof.
  intros Hinit Hr. induction Hr as [|n t t' Hr IH Hc Hst].
  - destruct (init_dadda_run s ranks0) as (t1 & Hinit1 & _ & Htree & _).
    rewrite Hinit in Hinit1. injection Hinit1 as <-. rewrite Htree. simpl. lia.
  - destruct (dadda_reaches_inv _ _ _ _ _ Hinit Hr) as (Hok & _).
    apply bool_decide_eq_true_1 in Hc.
    pose proof Hok as (Htok & Hsched & Hd). destruct (Hd Hc) as [_ Hdmax].
    destruct (dadda_pass_run t Htok (is_schedule_ge _ _ Hsched) Hdmax)
      as (w & Hpass & Hinv).
    destruct (dadda_stage_shape t w Hok Hc Hpass Hinv)
      as (t1 & Hst1 & Hrk & _ & Hlen & Hshape).
    rewrite Hst in Hst1. injection Hst1 as <-. rewrite Hrk.
    pose proof (length_merge_result _ _ Hshape). lia.
Qed.

Lemma reduce_ranks_length tree_type s (ranks0 : ranks_t) fuel :
  enough_fuel ranks0 ≤ fuel →
  ∃ rk nl,
    reduce_ranks tree_type fuel s ranks0 = Some (rk, nl) ∧
    length ranks0 ≤ length rk ≤ length ranks0 + enough_fuel ranks0.
Proof.
  intros Hfuel. unfold enough_fuel in *. destruct tree_type.
  - destruct (wallace_loop_run s ranks0) as (n & t & Hr & _ & _ & Hrun & _ & Hn).
    exists (t_ranks t), (t_netlist t).
    split. { simpl. by rewrite Hrun by lia. }
    pose proof (wallace_reaches_length _ _ _ _ Hr). lia.
  - destruct (dadda_loop_run s ranks0)
      as (t0 & n & t & Hinit & Hr & _ & _ & Hrun & _ & _ & Hn).
    exists (t_ranks (d_tree t)), (t_netlist (d_tree t)).
    split. { simpl. rewrite Hinit. simpl. by rewrite Hrun by lia. }
    pose proof (dadda_reaches_length _ _ _ _ _ Hinit Hr). lia.
Qed.

(** X12. The output has a signal for every rank of the input, and at most one
    more for every stage the reducer may run, and one for the carry-out of
    the chain. *)
Theorem output_width (tree_type : compressor_tree_type_e) (s : netlist_t)
    (ranks0 : ranks_t) (fuel : nat) :
  enough_fuel ranks0 ≤ fuel →
  ∃ out s',
    implement_compressor_tree tree_type fuel s ranks0 = Some (out, s') ∧
    length ranks0 ≤ length out ≤ length ranks0 + enough_fuel ranks0 + 1.
Proof.
  intros Hfuel.
  destruct (reduce_ranks_length tree_type s ranks0 fuel Hfuel)
    as (rk & nl & Hred & Hlen).
  rewrite implement_compressor_tree_reduce, Hred. simpl.
  destruct (ranks_to_adder_chain_run nl rk) as [[_ Hfin]|(k & Hstart & Hfin)];
    rewrite Hfin; eexists _, _; (split; [reflexivity|]).
  - rewrite length_fmap. lia.
  - destruct Hstart as [(r & Hr & _) _]. apply lookup_lt_Some in Hr.
    rewrite !length_app, length_fmap, length_take, length_imap, length_drop.
    simpl. lia.
Qed.

Lemma output_width_witness :
  ∃ out s',
    implement_compressor_tree WALLACE 6 empty_netlist
      [[PI 0; PI 1; PI 2; PI 3]; [PI 4]] = Some (out, s') ∧
    2 ≤ length out ≤ 2 + 6 + 1.
Proof.
  apply (output_width WALLACE empty_netlist [[PI 0; PI 1; PI 2; PI 3]; [PI 4]] 6).
  vm_compute. lia.
Defined.

(** ** The loop variables *)

(** X13. At the head of every turn of [while (max_rank_size > 2)], in either
    reducer, [cur_ranks_size] is the number of ranks and [max_rank_size]
    is the height of the highest rank: no rank is higher, and one is that
    high unless all are empty. *)
Theorem loop_variables_in_sync (s : netlist_t) (ranks0 : ranks_t) :
  (∀ n t, reaches wallace_cond wallace_stage (init_tree s ranks0) n t →
     cur_ranks_size t = length (t_ranks t) ∧
     Forall (λ r, length r ≤ max_rank_size t) (t_ranks t) ∧
     (max_rank_size t = 0 ∨ ∃ r, r ∈ t_ranks t ∧ length r = max_rank_size t)) ∧
  (∃ t0, init_dadda s ranks0 = Some t0 ∧
     ∀ n t, reaches dadda_cond dadda_stage t0 n t →
       cur_ranks_size (d_tree t) = length (t_ranks (d_tree t)) ∧
       Forall (λ r, length r ≤ max_rank_size (d_tree t)) (t_ranks (d_tree t)) ∧
       (max_rank_size (d_tree t) = 0
        ∨ ∃ r, r ∈ t_ranks (d_tree t) ∧ length r = max_rank_size (d_tree t))).
Proof.
  split.
  - intros n t Hr. destruct (wallace_reaches_inv _ _ _ _ Hr) as ([Hcur Hmax] & _).
    split; [done|]. rewrite Hmax.
    split; [apply get_max_rank_size_bound|apply get_max_rank_size_attained].
  - destruct (init_dadda_run s ranks0) as (t0 & Hinit & _).
    exists t0. split; [done|]. intros n t Hr.
    destruct (dadda_reaches_inv _ _ _ _ _ Hinit Hr) as (([Hcur Hmax] & _) & _).
    split; [done|]. rewrite Hmax.
    split; [apply get_max_rank_size_bound|apply get_max_rank_size_attained].
Qed.
